(** * Rotating log-file writers of go-tools: [log/handler/rotating.go]

    A shallow embedding of the two writers of package [handler]
    ([TimedRotatingFile], rotation by day, and [RotatingFile], rotation by
    size) over a small model of the operating system, followed by the
    properties of the writers.

    Conventions.
    - Go's [int] and [int64] are 64-bit two's complement integers: they are
      values of [Z] and every arithmetic result goes through [wrap64].
    - A Go [error] value is an [option error], [None] being [nil].
    - A Go [(value, err)] result whose value is meaningless on failure is a
      sum [error + A]; the pair [(n, err)] of [Write] stays a pair.
    - A run-time panic is the outcome [Panic].
    - Methods with a pointer receiver are computations in a state monad whose
      state is the receiver together with the world.
    - [sync.Mutex] is not modelled: calls are executed one after another. *)

From Stdlib Require Import ZArith Lia List Ascii String.
From Stdlib.Strings Require Import Byte.
From Stdlib Require OrderedTypeEx Sorted.
From stdpp Require Import gmap strings list fin_maps pretty.

Local Open Scope Z_scope.

(** ** Machine integers *)

Definition wrap64 (z : Z) : Z := (z + 2 ^ 63) mod 2 ^ 64 - 2 ^ 63.

Definition int64_range (z : Z) : Prop := - 2 ^ 63 <= z < 2 ^ 63.

Arguments wrap64 : simpl never.

(** [len] of a byte slice and of a string, as a Go [int]. *)
Definition len {A : Type} (l : list A) : Z := Z.of_nat (List.length l).
Definition strlen (s : string) : Z := Z.of_nat (String.length s).

(** ** Outcomes and the state monad *)

Inductive Res (S A : Type) : Type :=
| Done (a : A) (s : S)
| Panic.
Arguments Done {S A} a s.
Arguments Panic {S A}.

Definition ST (S A : Type) : Type := S -> Res S A.

Definition ret {S A : Type} (a : A) : ST S A := fun s => Done a s.

Definition bind {S A B : Type} (m : ST S A) (k : A -> ST S B) : ST S B :=
  fun s => match m s with
           | Done a s' => k a s'
           | Panic => Panic
           end.

Definition panic {S A : Type} : ST S A := fun _ => Panic.

Definition gets {S A : Type} (f : S -> A) : ST S A := fun s => Done (f s) s.

Definition modify {S : Type} (f : S -> S) : ST S unit := fun s => Done tt (f s).

Declare Scope go_scope.
Delimit Scope go_scope with go.
Notation "'let!' x ':=' m 'in' k" := (bind m (fun x => k))
  (at level 10, x pattern, m at level 100, k at level 200) : go_scope.
Local Open Scope go_scope.

(** A computation on the world alone, run inside a method whose state is the
    receiver paired with the world. *)
Definition lift {T S A : Type} (m : ST S A) : ST (T * S) A :=
  fun ts => match m (snd ts) with
            | Done a s' => Done a (fst ts, s')
            | Panic => Panic
            end.

Definition self {T S : Type} : ST (T * S) T := gets fst.

Definition update {T S : Type} (f : T -> T) : ST (T * S) unit :=
  modify (fun ts => (f (fst ts), snd ts)).

(** ** Errors *)

Inductive error : Type :=
| ErrFileNotOpen                (* errors.New("The file is not opened") *)
| ErrClosed                     (* use of a closed handle *)
| OSError (errno : Z).          (* a failure reported by the operating system *)

Definition ENOENT : error := OSError 2.
Definition EBADF : error := OSError 9.
Definition EISDIR : error := OSError 21.

(** ** The operating system

    The file system maps a path to a regular file (permission bits and
    content) or to an entry that is not a regular file.  Every call that goes
    to the operating system is recorded in [trace] with its result.  [faults]
    lets the environment make the n-th call fail; [clock] gives the successive
    readings of [time.Now().Unix()], [zone] the offset of local time from UTC
    at an instant.  [filePerm] is the package-level variable of that name. *)

Inductive node : Type :=
| RegFile (perm : Z) (content : list byte)
| Dir.

Inductive syscall : Type :=
| SysOpenFile (name : string) (flag perm : Z)
| SysStat (name : string)
| SysWrite (name : string) (data : list byte)
| SysClose (name : string)
| SysRemove (name : string)
| SysRename (oldpath newpath : string)
| SysReadDir (dirname : string).

Definition event : Type := syscall * option error.

Record World : Type := mkWorld {
  fs : gmap string node;
  trace : list event;
  faults : nat -> syscall -> option error;
  clock : nat -> Z;
  ticks : nat;
  zone : Z -> Z;
  filePerm : Z
}.

Definition set_fs (m : gmap string node) (σ : World) : World :=
  mkWorld m (trace σ) (faults σ) (clock σ) (ticks σ) (zone σ) (filePerm σ).

Definition log_event (e : event) (σ : World) : World :=
  mkWorld (fs σ) (trace σ ++ [e]) (faults σ) (clock σ) (ticks σ) (zone σ)
          (filePerm σ).

Definition tick (σ : World) : World :=
  mkWorld (fs σ) (trace σ) (faults σ) (clock σ) (S (ticks σ)) (zone σ)
          (filePerm σ).

Definition set_filePerm (p : Z) (σ : World) : World :=
  mkWorld (fs σ) (trace σ) (faults σ) (clock σ) (ticks σ) (zone σ) p.

(** One call to the operating system: the injected fault, if any, wins;
    otherwise [run] gives the result on the file system.  A failed call
    leaves the file system as it was. *)
Definition sys {A : Type} (c : syscall)
    (run : gmap string node -> error + (A * gmap string node))
    : ST World (error + A) :=
  fun σ =>
    let r := match faults σ (List.length (trace σ)) c with
             | Some e => inl e
             | None => run (fs σ)
             end in
    match r with
    | inl e => Done (inl e) (log_event (c, Some e) σ)
    | inr (a, m) => Done (inr a) (log_event (c, None) (set_fs m σ))
    end.

Definition err_of {A : Type} (r : error + A) : option error :=
  match r with inl e => Some e | inr _ => None end.

(** [os.O_WRONLY], [os.O_CREATE] and [os.O_APPEND] (values on Linux). *)
Definition O_WRONLY : Z := 1.
Definition O_CREATE : Z := 64.
Definition O_APPEND : Z := 1024.

(** An open file of package os.  The writers close their handle before they rename
    or remove anything, so the path a handle was opened on identifies its
    file. *)
Record File : Type := mkFile { f_name : string }.

(** [os.OpenFile] with the append-create flags: an existing regular file is
    opened as it is, a missing one is created empty with [perm]. *)
Definition os_OpenFile (name : string) (flag perm : Z) : ST World (error + File) :=
  sys (SysOpenFile name flag perm) (fun m =>
    match m !! name with
    | Some (RegFile _ _) => inr (mkFile name, m)
    | Some Dir => inl EISDIR
    | None => inr (mkFile name, <[name := RegFile perm []]> m)
    end).

(** [File.Stat] of package os, reduced to the size it reports. *)
Definition File_Stat (f : File) : ST World (error + Z) :=
  sys (SysStat (f_name f)) (fun m =>
    match m !! f_name f with
    | Some (RegFile _ c) => inr (len c, m)
    | _ => inl EBADF
    end).

(** [File.Write] of package os on a handle opened with [O_APPEND]. *)
Definition File_Write (f : File) (data : list byte) : ST World (Z * option error) :=
  let! r := sys (SysWrite (f_name f) data) (fun m =>
         match m !! f_name f with
         | Some (RegFile p c) =>
             inr (len data, <[f_name f := RegFile p (c ++ data)]> m)
         | _ => inl EBADF
         end) in
  ret (match r with inl e => (0, Some e) | inr n => (n, None) end).

Definition File_Close (f : File) : ST World (option error) :=
  let! r := sys (SysClose (f_name f)) (fun m => inr (tt, m)) in
  ret (err_of r).

Definition os_Remove (name : string) : ST World (option error) :=
  let! r := sys (SysRemove name) (fun m =>
         match m !! name with
         | Some _ => inr (tt, delete name m)
         | None => inl ENOENT
         end) in
  ret (err_of r).

Definition os_Rename (oldpath newpath : string) : ST World (option error) :=
  let! r := sys (SysRename oldpath newpath) (fun m =>
         match m !! oldpath with
         | Some n => inr (tt, <[newpath := n]> (delete oldpath m))
         | None => inl ENOENT
         end) in
  ret (err_of r).

Definition time_Now_Unix : ST World Z :=
  fun σ => Done (clock σ (ticks σ)) (tick σ).

(** ** Collaborators from other packages of the repository

    Packages [file] and [function] are used by the writers through four
    functions. *)

(** Modelled from the spec: [file.IsExist], "does path exist". *)
Definition file_IsExist (name : string) : ST World bool :=
  gets (fun σ => bool_decide (is_Some (fs σ !! name))).

(** Modelled from the spec: [file.IsFile], "is path a regular file". *)
Definition file_IsFile (name : string) : ST World bool :=
  gets (fun σ => match fs σ !! name with
                 | Some (RegFile _ _) => true
                 | _ => false
                 end).

Fixpoint has_slash (s : string) : bool :=
  match s with
  | EmptyString => false
  | String c r => Ascii.eqb c "/" || has_slash r
  end.

(** The name of [path] inside directory [dirname] (which ends with the
    separator), when [path] lies directly in it. *)
Definition entry_name (dirname path : string) : option string :=
  if String.prefix dirname path then
    let name := substring (String.length dirname)
                  (String.length path - String.length dirname)%nat path in
    if negb (String.eqb name "") && negb (has_slash name)
    then Some name else None
  else None.

(** Modelled from the spec: [file.ListDir], "list directory entries (returns
    plain filenames, not full paths)".  The empty path names no directory. *)
Definition file_ListDir (dirname : string) : ST World (error + list string) :=
  sys (SysReadDir dirname) (fun m =>
    if String.eqb dirname "" then inl ENOENT
    else inr (omap (entry_name dirname) (map fst (map_to_list m)), m)).

(** Modelled from the spec: [function.Range], "generate a descending/ascending
    integer sequence for ladder iteration": from [start] by [step] as long as
    [stop] is not reached, [stop] excluded. *)
Definition Range (start stop step : Z) : list Z :=
  let n := if 0 <? step then (stop - start + step - 1) / step
           else if step <? 0 then (start - stop - step - 1) / (- step)
           else 0 in
  map (fun i => start + step * Z.of_nat i) (seq 0 (Z.to_nat n)).

(** ** Pieces of the Go standard library *)

(** [fmt.Sprintf("%s.%d", name, i)]. *)
Definition Sprintf_s_d (name : string) (i : Z) : string :=
  name +:+ "." +:+ pretty i.

(** [filepath.Split]: the path up to and including the last separator, and
    what follows it. *)
Fixpoint filepath_Split (path : string) : string * string :=
  match path with
  | EmptyString => (EmptyString, EmptyString)
  | String c r =>
      let '(d, b) := filepath_Split r in
      if negb (String.eqb d "") then (String c d, b)
      else if Ascii.eqb c "/" then (String c EmptyString, b)
      else (EmptyString, String c b)
  end.

Fixpoint ends_with_slash (s : string) : bool :=
  match s with
  | EmptyString => false
  | String c EmptyString => Ascii.eqb c "/"
  | String _ r => ends_with_slash r
  end.

(** [filepath.Join] of a directory and a plain file name.  The directory comes
    from [filepath.Split] of a cleaned path, so joining needs no clean-up
    beyond not doubling the separator. *)
Definition filepath_Join (dir name : string) : string :=
  if String.eqb dir "" then name
  else if ends_with_slash dir then dir +:+ name
  else dir +:+ "/" +:+ name.

(** [sort.Strings]: ascending in byte-wise lexicographic order. *)
Fixpoint insert_sorted (x : string) (l : list string) : list string :=
  match l with
  | [] => [x]
  | y :: r => if String.leb x y then x :: l else y :: insert_sorted x r
  end.

Definition sort_Strings (l : list string) : list string :=
  foldr insert_sorted [] l.

(** The compiled regular expressions of the package: there is one. *)
Inductive Regexp : Type := RE_day.

Definition is_digit (c : ascii) : bool :=
  let n := nat_of_ascii c in (48 <=? n)%nat && (n <=? 57)%nat.

(** The class [\w] of RE2: ASCII letters, digits and the underscore. *)
Definition is_word (c : ascii) : bool :=
  let n := nat_of_ascii c in
  is_digit c || ((65 <=? n)%nat && (n <=? 90)%nat)
  || ((97 <=? n)%nat && (n <=? 122)%nat) || (n =? 95)%nat.

Fixpoint all_word (s : string) : bool :=
  match s with
  | EmptyString => true
  | String c r => is_word c && all_word r
  end.

(** A point in time in the local zone: seconds since the epoch and the
    offset of the zone at that instant. *)
Record Time : Type := mkTime { t_unix : Z; t_offset : Z }.

(** [time.Unix(sec, 0)]. *)
Definition time_Unix (sec : Z) : ST World Time :=
  gets (fun σ => mkTime sec (zone σ sec)).

Definition local_seconds (t : Time) : Z := t_unix t + t_offset t.

Definition Hour (t : Time) : Z := (local_seconds t mod 86400) / 3600.
Definition Minute (t : Time) : Z := (local_seconds t mod 3600) / 60.
Definition Second (t : Time) : Z := local_seconds t mod 60.

(** Year, month and day of the proleptic Gregorian calendar from the number
    of days since 1970-01-01. *)
Definition civil_from_days (days : Z) : Z * Z * Z :=
  let z := days + 719468 in
  let era := z / 146097 in
  let doe := z - era * 146097 in
  let yoe := (doe - doe / 1460 + doe / 36524 - doe / 146096) / 365 in
  let doy := doe - (365 * yoe + yoe / 4 - yoe / 100) in
  let mp := (5 * doy + 2) / 153 in
  let d := doy - (153 * mp + 2) / 5 + 1 in
  let m := if mp <? 10 then mp + 3 else mp - 9 in
  let y := yoe + era * 400 + (if m <=? 2 then 1 else 0) in
  (y, m, d).

Fixpoint zeros (n : nat) : string :=
  match n with
  | O => EmptyString
  | S k => String "0" (zeros k)
  end.

Definition zero_pad (width : nat) (n : Z) : string :=
  let s := pretty n in zeros (width - String.length s) +:+ s.

(** [Time.Format] for the layout of the writer, ["2006-01-02"]; any other
    layout the writer can pass holds no date element and is returned as it
    is. *)
Definition Format (t : Time) (layout : string) : string :=
  if String.eqb layout "2006-01-02" then
    let '(y, m, d) := civil_from_days (local_seconds t / 86400) in
    zero_pad 4 y +:+ "-" +:+ zero_pad 2 m +:+ "-" +:+ zero_pad 2 d
  else layout.

(** ** Package [handler]: constants and variables *)

Definition DAY_FMT : string := "2006-01-02".

Definition FILE_MODE : Z := Z.lor (Z.lor O_APPEND O_CREATE) O_WRONLY.

Definition FILE_PERM : Z := 420.   (* 0644 *)

(** [regexp.MustCompile(`^\d{4}-\d{2}-\d{2}(\.\w+)?$`)]. *)
Definition dayRE_match (s : string) : bool :=
  match s with
  | String y1 (String y2 (String y3 (String y4 (String h1
      (String m1 (String m2 (String h2 (String d1 (String d2 rest))))))))) =>
      is_digit y1 && is_digit y2 && is_digit y3 && is_digit y4
      && Ascii.eqb h1 "-" && is_digit m1 && is_digit m2
      && Ascii.eqb h2 "-" && is_digit d1 && is_digit d2
      && match rest with
         | EmptyString => true
         | String dot ext =>
             Ascii.eqb dot "." && negb (String.eqb ext "") && all_word ext
         end
  | _ => false
  end.

Definition dayRE : Regexp := RE_day.

(** [Regexp.MatchString]. *)
Definition MatchString (re : Regexp) (s : string) : bool :=
  match re with RE_day => dayRE_match s end.

Definition day : Z := 3600 * 24.

(** The map [time2fmt]; a missing key reads as the empty string. *)
Definition time2fmt (k : Z) : string :=
  if k =? day then DAY_FMT else "".

(** The initial value of the variable [filePerm]. *)
Definition filePerm_init : Z := FILE_PERM.

(** [ResetDefaultFilePerm]; [os.FileMode] is a [uint32]. *)
Definition ResetDefaultFilePerm (perm : Z) : ST World unit :=
  modify (set_filePerm (perm mod 2 ^ 32)).

(** Modelled from the spec: the wrapper [WriteCloser] around a file, "a
    minimal owned resource exposing write, close and isClosed", with the
    closed flag that [Closed] reports. *)
Record WriteCloser : Type := mkWriteCloser { wc_closed : bool; wc_file : File }.

Definition NewWriteCloser (f : File) : WriteCloser := mkWriteCloser false f.

Definition WriteCloser_Closed (c : WriteCloser) : bool := wc_closed c.

Definition WriteCloser_Write (c : WriteCloser) (data : list byte)
    : ST World (Z * option error) :=
  if wc_closed c then ret (0, Some ErrClosed) else File_Write (wc_file c) data.

Definition WriteCloser_Close (c : WriteCloser)
    : ST World (option error * WriteCloser) :=
  if wc_closed c then ret (None, c)
  else let! err := File_Close (wc_file c) in
       ret (err, mkWriteCloser true (wc_file c)).

(** ** [TimedRotatingFile]: rotation by day *)

Module Timed.

Record TimedRotatingFile : Type := mkTimed {
  w : option File;            (* io.WriteCloser, nil when absent *)
  filename : string;
  backupCount : Z;
  interval : Z;
  when : Z;
  rotatorAt : Z;
  extRE : Regexp
}.

Definition set_w (f : option File) (t : TimedRotatingFile) :=
  mkTimed f (filename t) (backupCount t) (interval t) (when t) (rotatorAt t)
          (extRE t).
Definition set_backupCount (n : Z) (t : TimedRotatingFile) :=
  mkTimed (w t) (filename t) n (interval t) (when t) (rotatorAt t) (extRE t).
Definition set_interval (n : Z) (t : TimedRotatingFile) :=
  mkTimed (w t) (filename t) (backupCount t) n (when t) (rotatorAt t)
          (extRE t).
Definition set_rotatorAt (n : Z) (t : TimedRotatingFile) :=
  mkTimed (w t) (filename t) (backupCount t) (interval t) (when t) n
          (extRE t).

Definition Self : Type := TimedRotatingFile * World.

Definition shouldRollover : ST Self bool :=
  let! t := self in
  let! now := lift time_Now_Unix in
  ret (rotatorAt t <=? now).

(** [t.w.Close()] on a nil interface value is a nil dereference. *)
Definition Close : ST Self (option error) :=
  let! t := self in
  match w t with
  | None => panic
  | Some f =>
      let! err := lift (File_Close f) in
      match err with
      | Some e => ret (Some e)
      | None => let! _ := update (set_w None) in ret None
      end
  end.

Definition open : ST Self (option error) :=
  let! t := self in
  let! r := lift (os_OpenFile (filename t) FILE_MODE FILE_PERM) in
  match r with
  | inl err => ret (Some err)
  | inr file => let! _ := update (set_w (Some file)) in ret None
  end.

Definition reComputeRollover : ST Self unit :=
  let! currentTime := lift time_Now_Unix in
  let! _time := lift (time_Unix currentTime) in
  let currentHour := Hour _time in
  let currentMinute := Minute _time in
  let currentSecond := Second _time in
  let! t := self in
  let r := wrap64 (interval t
             - wrap64 (wrap64 (wrap64 (wrap64 (currentHour * 60) + currentMinute) * 60)
                       + currentSecond)) in
  update (set_rotatorAt (wrap64 (currentTime + r))).

(** The loop of [getFilesToDelete] over the directory listing. *)
Definition is_backup (t : TimedRotatingFile) (_prefix fileName : string) : bool :=
  let plen := String.length _prefix in
  if (String.length fileName <=? plen)%nat then false
  else
    let prefix := substring 0 plen fileName in
    if String.eqb _prefix prefix then
      let suffix := substring plen (String.length fileName - plen)%nat fileName in
      MatchString (extRE t) suffix
    else false.

(** The source's only call is guarded by [backupCount > 0].  With a negative
    count the final slice expression [result[:n]] goes past the length of
    [result]: it is legal as long as [n] is within the capacity, and then
    gives the sorted matches followed by empty strings.  The capacity is the
    30 of [make] as long as no [append] had to grow the slice, so up to 30
    the expression is legal, and beyond 30 it panics when at most 30 matches
    were found.  With more matches the capacity is up to the allocator of
    the runtime; that case is rendered as a panic too. *)
Definition getFilesToDelete : ST Self (list string) :=
  let! t := self in
  let '(dirName, baseName) := filepath_Split (filename t) in
  let! listing := lift (file_ListDir dirName) in
  match listing with
  | inl _ => ret []
  | inr fileNames =>
      let _prefix := baseName +:+ "." in
      let result := map (filepath_Join dirName)
                        (filter (fun n => is_backup t _prefix n = true) fileNames) in
      if len result <=? backupCount t then ret []
      else if backupCount t <? 0 then
        let n := wrap64 (len result - backupCount t) in
        if (0 <=? n) && (n <=? 30)
        then ret (sort_Strings result
                  ++ replicate (Z.to_nat (n - len result)) EmptyString)
        else panic
      else ret (take (Z.to_nat (len result - backupCount t)) (sort_Strings result))
  end.

(** [for _, file := range ... { os.Remove(file) }]: results are dropped. *)
Fixpoint remove_each (files : list string) : ST Self unit :=
  match files with
  | [] => ret tt
  | file :: rest => let! _ := lift (os_Remove file) in remove_each rest
  end.

Definition doRollover : ST Self (option error) :=
  let! err := Close in
  match err with
  | Some e => ret (Some e)
  | None =>
      let! t := self in
      let dstTime := wrap64 (rotatorAt t - interval t) in
      let! tm := lift (time_Unix dstTime) in
      let dstPath := filename t +:+ "." +:+ Format tm (time2fmt (when t)) in
      let! ex := lift (file_IsExist dstPath) in
      let! _ := (if ex then lift (os_Remove dstPath) else ret None) in
      let! isf := lift (file_IsFile (filename t)) in
      let! err := (if isf then lift (os_Rename (filename t) dstPath)
                   else ret None) in
      match err with
      | Some e => ret (Some e)
      | None =>
          let! _ := (if 0 <? backupCount t
                     then let! files := getFilesToDelete in remove_each files
                     else ret tt) in
          let! _ := reComputeRollover in
          open
      end
  end.

Definition Write (data : list byte) : ST Self (Z * option error) :=
  let! t := self in
  match w t with
  | None => ret (0, Some ErrFileNotOpen)
  | Some _ =>
      let! b := shouldRollover in
      let! err := (if b then doRollover else ret None) in
      match err with
      | Some e => ret (0, Some e)
      | None =>
          let! t := self in
          match w t with
          | None => panic
          | Some f => lift (File_Write f data)
          end
      end
  end.

Definition WriteString (data : string) : ST Self (Z * option error) :=
  Write (list_byte_of_string data).

Definition SetBackupCount (num : Z) : ST Self unit :=
  update (set_backupCount num).

Definition SetInterval (n : Z) : ST Self unit :=
  let! t := self in
  let! _ := update (set_interval (wrap64 (n * when t))) in
  reComputeRollover.

(** [NewTimedRotatingFile]; [absname] is what [filepath.Abs] made of the
    argument.  The result is the new writer. *)
Definition NewTimedRotatingFile (absname : string) : ST World TimedRotatingFile :=
  fun σ =>
    let t := mkTimed None absname 0 0 day 0 dayRE in
    match (let! _ := SetBackupCount 31 in
           let! _ := SetInterval 1 in
           open) (t, σ) with
    | Done None (t', σ') => Done t' σ'
    | Done (Some _) _ => Panic
    | Panic => Panic
    end.

End Timed.

(** ** [RotatingFile]: rotation by size *)

Module Rotating.

Record RotatingFile : Type := mkRotating {
  w : option WriteCloser;     (* nil when absent *)
  filename : string;
  maxSize : Z;
  backupCount : Z;
  nbytes : Z
}.

Definition set_w (c : option WriteCloser) (r : RotatingFile) :=
  mkRotating c (filename r) (maxSize r) (backupCount r) (nbytes r).
Definition set_nbytes (n : Z) (r : RotatingFile) :=
  mkRotating (w r) (filename r) (maxSize r) (backupCount r) n.

Definition Self : Type := RotatingFile * World.

Definition close : ST Self (option error) :=
  let! r := self in
  match w r with
  | Some c =>
      let! res := lift (WriteCloser_Close c) in
      let! _ := update (set_w None) in
      ret (fst res)
  | None => ret None
  end.

Definition Close : ST Self (option error) := close.

Definition open : ST Self (option error) :=
  let! r := self in
  let! o := lift (os_OpenFile (filename r) FILE_MODE FILE_PERM) in
  match o with
  | inl err => ret (Some err)
  | inr file =>
      let! info := lift (File_Stat file) in
      match info with
      | inl err => ret (Some err)
      | inr size =>
          let! _ := update (set_nbytes size) in
          let! _ := update (set_w (Some (NewWriteCloser file))) in
          ret None
      end
  end.

(** The body of the loop of [doRollover] over [function.Range]; an error
    leaves the loop and the method. *)
Fixpoint shift_backups (name : string) (indices : list Z) : ST Self (option error) :=
  match indices with
  | [] => ret None
  | i :: rest =>
      let sfn := Sprintf_s_d name i in
      let dfn := Sprintf_s_d name (wrap64 (i + 1)) in
      let! es := lift (file_IsExist sfn) in
      let! err :=
        (if es then
           let! ed := lift (file_IsExist dfn) in
           if ed then
             let! err := lift (os_Remove dfn) in
             match err with
             | Some e => ret (Some e)
             | None => lift (os_Rename sfn dfn)
             end
           else ret None
         else ret None) in
      match err with
      | Some e => ret (Some e)
      | None => shift_backups name rest
      end
  end.

Definition doRollover : ST Self (option error) :=
  let! _ := close in
  let! r := self in
  let! err :=
    (if 0 <? backupCount r then
       let! err := shift_backups (filename r)
                     (Range (wrap64 (backupCount r - 1)) 0 (-1)) in
       match err with
       | Some e => ret (Some e)
       | None =>
           let dfn := filename r +:+ ".1" in
           let! ed := lift (file_IsExist dfn) in
           let! err := (if ed then lift (os_Remove dfn) else ret None) in
           match err with
           | Some e => ret (Some e)
           | None =>
               let! ef := lift (file_IsExist (filename r)) in
               if ef then lift (os_Rename (filename r) dfn) else ret None
           end
       end
     else ret None) in
  match err with
  | Some e => ret (Some e)
  | None => open
  end.

Definition Write (data : list byte) : ST Self (Z * option error) :=
  let! r := self in
  match w r with
  | None => ret (0, Some ErrFileNotOpen)
  | Some c =>
      if WriteCloser_Closed c then ret (0, Some ErrFileNotOpen)
      else
        let! err := (if maxSize r <? wrap64 (nbytes r + len data)
                     then doRollover else ret None) in
        match err with
        | Some e => ret (0, Some e)
        | None =>
            let! r := self in
            match w r with
            | None => panic
            | Some c =>
                let! res := lift (WriteCloser_Write c data) in
                match snd res with
                | Some e => ret res
                | None =>
                    let! _ := update (set_nbytes (wrap64 (nbytes r + fst res))) in
                    ret res
                end
            end
        end
  end.

(** [r.w.Write([]byte(data))]: the wrapper is used directly. *)
Definition WriteString (data : string) : ST Self (Z * option error) :=
  let! r := self in
  match w r with
  | None => panic
  | Some c => lift (WriteCloser_Write c (list_byte_of_string data))
  end.

Definition NewRotatingFile (name : string) (size count : Z) : ST World RotatingFile :=
  fun σ =>
    let r := mkRotating None name size count 0 in
    match open (r, σ) with
    | Done None (r', σ') => Done r' σ'
    | Done (Some _) _ => Panic
    | Panic => Panic
    end.

End Rotating.

(** * Vocabulary of the properties *)

(** ** Observing a run *)

Definition returned {S A : Type} (r : Res S A) : option A :=
  match r with Done a _ => Some a | Panic => None end.

Definition events_of {T A : Type} (r : Res (T * World) A) : list event :=
  match r with Done _ ts => trace (snd ts) | Panic => [] end.

Definition file_of {T A : Type} (r : Res (T * World) A) (name : string)
    : option node :=
  match r with Done _ ts => fs (snd ts) !! name | Panic => None end.

Definition receiver_of {T A : Type} (r : Res (T * World) A) : option T :=
  match r with Done _ ts => Some (fst ts) | Panic => None end.

(** ** Events of a computation

    [extends φ σ σ']: the trace of [σ'] is the trace of [σ] followed by
    events that all satisfy [φ].  [emits φ m]: whenever [m] returns, the
    calls it made to the operating system all satisfy [φ], and they were
    added at the end of the trace. *)

Definition extends (φ : event -> Prop) (σ σ' : World) : Prop :=
  exists d, trace σ' = trace σ ++ d /\ Forall φ d.

Definition emits {T A : Type} (φ : event -> Prop) (m : ST (T * World) A) : Prop :=
  forall ts a ts', m ts = Done a ts' -> extends φ (snd ts) (snd ts').

Definition any_event (ev : event) : Prop := True.

Definition opens_with (p : Z) (ev : event) : Prop :=
  forall name flag perm, fst ev = SysOpenFile name flag perm -> perm = p.

Definition is_rename (ev : event) : bool :=
  match fst ev with SysRename _ _ => true | _ => false end.

(** The calls that take a file away from its path. *)
Definition moves_file (c : syscall) : bool :=
  match c with
  | SysRemove _ | SysRename _ _ => true
  | _ => false
  end.

Definition is_write (c : syscall) : bool :=
  match c with SysWrite _ _ => true | _ => false end.

Definition not_a_write (ev : event) : Prop := is_write (fst ev) = false.

(** The call that lists a directory. *)
Definition is_listing (c : syscall) : bool :=
  match c with SysReadDir _ => true | _ => false end.

Definition not_a_listing (ev : event) : Prop := is_listing (fst ev) = false.

(** ** Failures and their propagation

    [ign] tells which calls may fail without the method giving up.  An event
    is tolerated when it did not fail or when its call is one of those.  A
    run is settled with result [err] when all its events are tolerated, or
    when its last event is a failure that [err] reports and the events before
    it are tolerated. *)

Definition tolerated (ign : syscall -> bool) (ev : event) : Prop :=
  forall e, snd ev = Some e -> ign (fst ev) = true.

Definition settled (ign : syscall -> bool) (d : list event)
    (err : option error) : Prop :=
  Forall (tolerated ign) d
  \/ exists pre c e,
       d = pre ++ [(c, Some e)] /\ Forall (tolerated ign) pre /\ err = Some e.

(** The reading of [settled] used in the statements: a failure of a call
    that is not ignored is the last event and is the result. *)
Definition propagated (ign : syscall -> bool) (d : list event)
    (err : option error) : Prop :=
  forall pre c e post,
    d = pre ++ (c, Some e) :: post -> ign c = false ->
    post = [] /\ err = Some e.

Definition propagates (ign : syscall -> bool) {T A : Type}
    (proj : A -> option error) (m : ST (T * World) A) : Prop :=
  forall ts a ts', m ts = Done a ts' ->
    exists d, trace (snd ts') = trace (snd ts) ++ d /\ settled ign d (proj a).

(** The calls whose failure the time-based writer does not report, and the
    one whose failure the size-based writer does not report. *)
Definition timed_ignored (c : syscall) : bool :=
  match c with
  | SysRemove _ | SysReadDir _ => true
  | _ => false
  end.

Definition rotating_ignored (c : syscall) : bool :=
  match c with
  | SysClose _ => true
  | _ => false
  end.

(** ** Computations that keep a relation

    [keeps R m]: whenever [m] returns, its final state is related by [R] to
    its initial state. *)

Definition keeps {S : Type} (R : S -> S -> Prop) {A : Type} (m : ST S A) : Prop :=
  forall s a s', m s = Done a s' -> R s s'.

(** The clock and the zone are as before and no reading of the clock was
    made. *)
Definition same_clock (σ σ' : World) : Prop :=
  ticks σ' = ticks σ /\ clock σ' = clock σ /\ zone σ' = zone σ.

(** The receiver is unchanged and the clock untouched. *)
Definition calm {T : Type} (ts ts' : T * World) : Prop :=
  fst ts' = fst ts /\ same_clock (snd ts) (snd ts').

(** The receiver and the file at [name] are as before. *)
Definition fixes {T : Type} (name : string) (ts ts' : T * World) : Prop :=
  fst ts' = fst ts /\ fs (snd ts') !! name = fs (snd ts) !! name.

(** What [os.OpenFile] in append-create mode may do to the files: nothing, or
    create the missing file empty with the permission passed. *)
Definition opened (name : string) (m m' : gmap string node) : Prop :=
  m' = m \/ (m !! name = None /\ m' = <[name := RegFile FILE_PERM []]> m).

(** ** Parts of the methods, named *)

(** Seconds elapsed since local midnight, as [reComputeRollover] adds them
    up. *)
Definition elapsed (tm : Time) : Z :=
  wrap64 (wrap64 (wrap64 (wrap64 (Hour tm * 60) + Minute tm) * 60) + Second tm).

(** The deadline [reComputeRollover] stores when it reads [now]. *)
Definition next_deadline (zone_offset now interval : Z) : Z :=
  wrap64 (now + wrap64 (interval - elapsed (mkTime now zone_offset))).

(** The pruning of old backups in [doRollover]. *)
Definition timed_prune (t : Timed.TimedRotatingFile) : ST Timed.Self unit :=
  if 0 <? Timed.backupCount t
  then let! files := Timed.getFilesToDelete in Timed.remove_each files
  else ret tt.

(** The part of [doRollover] guarded by [backupCount > 0]: the ladder is
    shifted and the active file retired to the first slot. *)
Definition rotating_retire (r : Rotating.RotatingFile)
    : ST Rotating.Self (option error) :=
  if 0 <? Rotating.backupCount r then
    let! err := Rotating.shift_backups (Rotating.filename r)
                  (Range (wrap64 (Rotating.backupCount r - 1)) 0 (-1)) in
    match err with
    | Some e => ret (Some e)
    | None =>
        let dfn := (Rotating.filename r +:+ ".1")%string in
        let! ed := lift (file_IsExist dfn) in
        let! err := (if ed then lift (os_Remove dfn) else ret None) in
        match err with
        | Some e => ret (Some e)
        | None =>
            let! ef := lift (file_IsExist (Rotating.filename r)) in
            if ef then lift (os_Rename (Rotating.filename r) dfn) else ret None
        end
    end
  else ret None.

(** The last step of [Write]: the data go to the handle and are counted. *)
Definition write_and_count (c : WriteCloser) (data : list byte)
    (r : Rotating.RotatingFile) (σ : World)
    (n : Z) (err : option error) (r' : Rotating.RotatingFile) (σ' : World)
    : Prop :=
  trace σ' = trace σ ++ [(SysWrite (f_name (wc_file c)) data, err)]
  /\ match err with
     | None =>
         n = len data
         /\ r' = Rotating.set_nbytes (wrap64 (Rotating.nbytes r + len data)) r
         /\ exists p content,
              fs σ !! f_name (wc_file c) = Some (RegFile p content)
              /\ fs σ' = <[f_name (wc_file c) := RegFile p (content ++ data)]> (fs σ)
     | Some _ => n = 0 /\ r' = r /\ fs σ' = fs σ
     end.

(** The configuration of a size-based writer: what [Write] never changes. *)
Definition same_config (r r' : Rotating.RotatingFile) : Prop :=
  Rotating.filename r' = Rotating.filename r
  /\ Rotating.maxSize r' = Rotating.maxSize r
  /\ Rotating.backupCount r' = Rotating.backupCount r.

(** No backup numbered 2 or more exists. *)
Definition short_ladder (name : string) (m : gmap string node) : Prop :=
  forall i, 2 <= i -> m !! Sprintf_s_d name i = None.

(** ** Files of the size-based writer *)

(** The size-based writer counts what its file holds: its handle is on the
    active file, which is a regular file of [nbytes] bytes. *)
Definition tracks (r : Rotating.RotatingFile) (σ : World) : Prop :=
  Rotating.w r = Some (NewWriteCloser (mkFile (Rotating.filename r)))
  /\ exists p c, fs σ !! Rotating.filename r = Some (RegFile p c)
                 /\ Rotating.nbytes r = len c.

(** The paths a size-based writer works on: the active file, the numbered
    backups, and the file its handle is on. *)
Definition rotating_own (r : Rotating.RotatingFile) (q : string) : Prop :=
  q = Rotating.filename r
  \/ (exists i, q = Sprintf_s_d (Rotating.filename r) i)
  \/ (exists c, Rotating.w r = Some c /\ q = f_name (wc_file c)).

(** ** Files of the time-based writer *)

(** The names [file.ListDir] gives for a directory. *)
Definition listed (dirName : string) (m : gmap string node) : list string :=
  omap (entry_name dirName) (map fst (map_to_list m)).

(** The dated backups [getFilesToDelete] finds among the names of the
    directory of the log file, as paths. *)
Definition timed_candidates (t : Timed.TimedRotatingFile)
    (fileNames : list string) : list string :=
  let '(dirName, baseName) := filepath_Split (Timed.filename t) in
  map (filepath_Join dirName)
      (filter (fun n => Timed.is_backup t (baseName +:+ ".") n = true) fileNames).

(** The order of [sort.Strings]. *)
Definition String_le (a b : string) : Prop := String.leb a b = true.

(** The path a time-based rotation moves the log file to: the name of the
    log file, a dot, and the start of the period that ends, formatted in the
    zone [z]. *)
Definition timed_dstPath (t : Timed.TimedRotatingFile) (z : Z -> Z) : string :=
  let dstTime := wrap64 (Timed.rotatorAt t - Timed.interval t) in
  (Timed.filename t +:+ "."
   +:+ Format (mkTime dstTime (z dstTime)) (time2fmt (Timed.when t)))%string.

(** A dated backup of the log file of [t]. *)
Definition timed_backup (t : Timed.TimedRotatingFile) (q : string) : Prop :=
  exists suffix,
    q = (Timed.filename t +:+ "." +:+ suffix)%string
    /\ MatchString (Timed.extRE t) suffix = true.

(** ** Sessions and sample runs *)

(** A sequence of calls of a writer's [Write], one after the other. *)
Fixpoint write_each {S : Type} (write : list byte -> ST S (Z * option error))
    (chunks : list (list byte)) : ST S (list (Z * option error)) :=
  match chunks with
  | [] => ret []
  | data :: rest =>
      let! r := write data in
      let! rs := write_each write rest in
      ret (r :: rs)
  end.

(** A writer is constructed, then written to chunk by chunk. *)
Definition rotating_session (name : string) (size count : Z)
    (chunks : list (list byte)) (σ : World)
    : Res Rotating.Self (list (Z * option error)) :=
  match Rotating.NewRotatingFile name size count σ with
  | Done r σ' => write_each Rotating.Write chunks (r, σ')
  | Panic => Panic
  end.

Definition timed_session (absname : string) (chunks : list (list byte))
    (σ : World) : Res Timed.Self (list (Z * option error)) :=
  match Timed.NewTimedRotatingFile absname σ with
  | Done t σ' => write_each Timed.Write chunks (t, σ')
  | Panic => Panic
  end.

Module Sample.

Definition bytes (s : string) : list byte := list_byte_of_string s.

Definition no_faults : nat -> syscall -> option error := fun _ _ => None.

(** A world with the given files, an empty trace, a clock that starts at
    [t0] and advances by one second per reading, and local time equal to
    UTC. *)
Definition world (files : gmap string node)
    (flt : nat -> syscall -> option error) (t0 : Z) : World :=
  mkWorld files [] flt (fun n => Z.of_nat n + t0) 0 (fun _ => 0) filePerm_init.

Definition log : string := "/var/log/app.log".

(** A time-based writer on [log], open, keeping one backup, due for rotation
    at 1970-01-02 00:00:00. *)
Definition timed_writer : Timed.TimedRotatingFile :=
  Timed.mkTimed (Some (mkFile log)) log 1 86400 day 86400 dayRE.

Definition timed_files : gmap string node :=
  <[log := RegFile 420 (bytes "x")]>
  (<["/var/log/app.log.1969-12-30" := RegFile 420 (bytes "a")]>
  (<["/var/log/app.log.1969-12-31" := RegFile 420 (bytes "b")]> ∅)).

Definition EIO : error := OSError 5.
Definition EACCES : error := OSError 13.

Definition listing_fails : nat -> syscall -> option error :=
  fun _ c => match c with SysReadDir _ => Some EIO | _ => None end.

Definition removal_fails : nat -> syscall -> option error :=
  fun _ c => match c with SysRemove _ => Some EACCES | _ => None end.

Definition rename_fails : nat -> syscall -> option error :=
  fun _ c => match c with SysRename _ _ => Some EACCES | _ => None end.

(** A size-based writer on ["app.log"] with an open handle. *)
Definition rotating_writer (size count written : Z) : Rotating.RotatingFile :=
  Rotating.mkRotating (Some (NewWriteCloser (mkFile "app.log"))) "app.log"
                      size count written.

Definition open_fails : nat -> syscall -> option error :=
  fun _ c => match c with SysOpenFile _ _ _ => Some EACCES | _ => None end.

End Sample.

(** A world whose clock advances by one day per reading, so that every
    write of a time-based writer constructed in it is due for rotation. *)
Definition daily_world (files : gmap string node) : World :=
  mkWorld files [] Sample.no_faults (fun n => Z.of_nat n * 86400) 0
          (fun _ => 0) filePerm_init.

(** * Properties *)

(** ** Running computations *)

Lemma bind_Done {S A B : Type} (m : ST S A) (k : A -> ST S B) s b s2 :
  bind m k s = Done b s2 ->
  exists a s1, m s = Done a s1 /\ k a s1 = Done b s2.
Proof.
  unfold bind. destruct (m s) as [a s1|] eqn:E; [|discriminate].
  intros H. exists a, s1. split; [reflexivity | exact H].
Qed.

Lemma ret_Done {S A : Type} (a b : A) (s s' : S) :
  ret a s = Done b s' -> b = a /\ s' = s.
Proof. unfold ret. intros H. inversion H. split; reflexivity. Qed.

Lemma lift_Done {T S A : Type} (m : ST S A) (ts : T * S) a ts' :
  lift m ts = Done a ts' ->
  fst ts' = fst ts /\ m (snd ts) = Done a (snd ts').
Proof.
  unfold lift. destruct (m (snd ts)) as [x s1|] eqn:E; [|discriminate].
  intros H. inversion H; subst. simpl. split; reflexivity.
Qed.

Lemma self_Done {T S : Type} (ts : T * S) a ts' :
  self ts = Done a ts' -> a = fst ts /\ ts' = ts.
Proof. unfold self, gets. intros H. inversion H. split; reflexivity. Qed.

Lemma update_Done {T S : Type} (f : T -> T) (ts : T * S) a ts' :
  update f ts = Done a ts' -> ts' = (f (fst ts), snd ts).
Proof. unfold update, modify. intros H. inversion H. reflexivity. Qed.

(** What one call to the operating system leaves behind. *)
Lemma sys_Done {A : Type} c run σ (r : error + A) σ' :
  sys c run σ = Done r σ' ->
  trace σ' = trace σ ++ [(c, err_of r)]
  /\ faults σ' = faults σ /\ clock σ' = clock σ /\ ticks σ' = ticks σ
  /\ zone σ' = zone σ /\ filePerm σ' = filePerm σ
  /\ match r with
     | inl e => fs σ' = fs σ
                /\ (faults σ (List.length (trace σ)) c = Some e
                    \/ run (fs σ) = inl e)
     | inr a => run (fs σ) = inr (a, fs σ')
     end.
Proof.
  unfold sys.
  destruct (faults σ (List.length (trace σ)) c) as [e|] eqn:F.
  - intros H. inversion H; subst. simpl. repeat split; auto.
  - destruct (run (fs σ)) as [e|[a m]] eqn:R; intros H; inversion H; subst;
      simpl; repeat split; auto.
Qed.

(** ** Events of a computation *)

Lemma extends_refl φ σ : extends φ σ σ.
Proof. exists []. split; [symmetry; apply app_nil_r | constructor]. Qed.

Lemma extends_trans φ σ1 σ2 σ3 :
  extends φ σ1 σ2 -> extends φ σ2 σ3 -> extends φ σ1 σ3.
Proof.
  intros (d1 & E1 & F1) (d2 & E2 & F2). exists (d1 ++ d2). split.
  - rewrite E2, E1. symmetry. apply app_assoc.
  - apply Forall_app. split; assumption.
Qed.

Lemma extends_weaken (φ ψ : event -> Prop) σ σ' :
  (forall ev, φ ev -> ψ ev) -> extends φ σ σ' -> extends ψ σ σ'.
Proof.
  intros Hi (d & E & F). exists d. split; [exact E|].
  eapply Forall_impl; eauto.
Qed.

Lemma sys_extends {A : Type} (φ : event -> Prop) c run σ (r : error + A) σ' :
  sys c run σ = Done r σ' -> φ (c, err_of r) -> extends φ σ σ'.
Proof.
  intros H Hφ. apply sys_Done in H as (E & _).
  exists [(c, err_of r)]. split; [exact E | repeat constructor; exact Hφ].
Qed.

(** [emits] goes through the constructs of the monad; [T] is the type of
    the receiver. *)
Section Emits.

Context {T : Type}.

Lemma emits_ret {A : Type} φ (a : A) : emits (T:=T) φ (ret a).
Proof. intros ts b ts' H. apply ret_Done in H as [_ ->]. apply extends_refl. Qed.

Lemma emits_panic {A : Type} φ : emits (T:=T) φ (@panic (T * World) A).
Proof. intros ts b ts' H. discriminate. Qed.

Lemma emits_self φ : emits (T:=T) φ (@self T World).
Proof. intros ts b ts' H. apply self_Done in H as [_ ->]. apply extends_refl. Qed.

Lemma emits_update φ f : emits (T:=T) φ (@update T World f).
Proof. intros ts b ts' H. apply update_Done in H as ->. apply extends_refl. Qed.

Lemma emits_bind {A B : Type} φ (m : ST (T * World) A) (k : A -> ST (T * World) B) :
  emits (T:=T) φ m -> (forall a, emits (T:=T) φ (k a)) -> emits (T:=T) φ (bind m k).
Proof.
  intros Hm Hk ts b ts' H. apply bind_Done in H as (a & ts1 & H1 & H2).
  eapply extends_trans; [eapply Hm | eapply Hk]; eassumption.
Qed.

Lemma emits_if {A : Type} φ (b : bool) (m1 m2 : ST (T * World) A) :
  emits (T:=T) φ m1 -> emits (T:=T) φ m2 -> emits (T:=T) φ (if b then m1 else m2).
Proof. destruct b; auto. Qed.

Lemma emits_weaken {A : Type} (φ ψ : event -> Prop) (m : ST (T * World) A) :
  (forall ev, φ ev -> ψ ev) -> emits (T:=T) φ m -> emits (T:=T) ψ m.
Proof. intros Hi Hm ts a ts' H. eapply extends_weaken; eauto. Qed.

Lemma emits_lift_gets {A : Type} φ (f : World -> A) : emits (T:=T) φ (lift (T:=T) (gets f)).
Proof.
  intros ts a ts' H. apply lift_Done in H as [_ H]. unfold gets in H.
  inversion H. apply extends_refl.
Qed.

Lemma emits_lift_sys {A : Type} (φ : event -> Prop) c run :
  (forall r, φ (c, r)) -> emits (T:=T) φ (lift (T:=T) (@sys A c run)).
Proof.
  intros Hφ ts a ts' H. apply lift_Done in H as [_ H].
  eapply sys_extends; eauto.
Qed.

Lemma emits_lift_bind {A B : Type} φ (m : ST World A) (f : A -> B) :
  emits (T:=T) φ (lift (T:=T) m) ->
  emits (T:=T) φ (lift (T:=T) (let! r := m in ret (f r))).
Proof.
  intros Hm ts b ts' H. apply lift_Done in H as [Ht H].
  apply bind_Done in H as (a & σ1 & H1 & H2). apply ret_Done in H2 as [-> E].
  rewrite E. apply (Hm ts a (fst ts, σ1)). unfold lift. rewrite H1. reflexivity.
Qed.

Lemma emits_now φ : emits (T:=T) φ (lift (T:=T) time_Now_Unix).
Proof.
  intros ts a ts' H. apply lift_Done in H as [_ H]. unfold time_Now_Unix in H.
  inversion H. exists []. simpl. split; [symmetry; apply app_nil_r | constructor].
Qed.

End Emits.

(** Stepping through a method body for [emits]. *)
Ltac emits_step :=
  match goal with
  | |- emits _ (ret _) => apply emits_ret
  | |- emits _ panic => apply emits_panic
  | |- emits _ self => apply emits_self
  | |- emits _ (update _) => apply emits_update
  | |- emits _ (lift (gets _)) => apply emits_lift_gets
  | |- emits _ (lift (file_IsExist _)) => apply emits_lift_gets
  | |- emits _ (lift (file_IsFile _)) => apply emits_lift_gets
  | |- emits _ (lift (time_Unix _)) => apply emits_lift_gets
  | |- emits _ (lift time_Now_Unix) => apply emits_now
  | |- emits _ (bind _ _) => apply emits_bind; [|intros ?]
  | |- emits _ (if ?b then _ else _) => destruct b
  | |- emits _ (match ?x with _ => _ end) => destruct x
  end.

(** ** Failures and their propagation *)

Lemma list_last_case {A : Type} (l : list A) :
  l = [] \/ exists l' x, l = l' ++ [x].
Proof.
  induction l as [|a l IH] using rev_ind; [left; reflexivity|].
  right. exists l, a. reflexivity.
Qed.

(** [propagates] goes through sequencing, and through the pattern of an
    early return on error ([propagates_try]). *)
Section Propagation.

Variable ign : syscall -> bool.

Lemma tolerated_not_ignored c e : ign c = false -> ~ tolerated ign (c, Some e).
Proof. intros Hc Ht. specialize (Ht e eq_refl). simpl in Ht. congruence. Qed.

Lemma settled_propagated d err : settled ign d err -> propagated ign d err.
Proof.
  intros [Hall | (pre' & c' & e' & -> & Hpre & ->)] pre c e post E Hc.
  - exfalso. subst d. apply Forall_app in Hall as [_ Hall].
    inversion Hall; subst. eapply tolerated_not_ignored; eauto.
  - destruct (list_last_case post) as [-> | (post' & z & ->)].
    + apply app_inj_tail in E as [_ E]. inversion E; subst. auto.
    + exfalso. change (pre ++ (c, Some e) :: post' ++ [z])
        with (pre ++ ((c, Some e) :: post') ++ [z]) in E.
      rewrite app_assoc in E. apply app_inj_tail in E as [E _]. subst pre'.
      apply Forall_app in Hpre as [_ Hpre]. inversion Hpre; subst.
      eapply tolerated_not_ignored; eauto.
Qed.

Lemma settled_app d1 d2 err :
  Forall (tolerated ign) d1 -> settled ign d2 err -> settled ign (d1 ++ d2) err.
Proof.
  intros H1 [H2 | (pre & c & e & -> & Hpre & ->)].
  - left. apply Forall_app. split; assumption.
  - right. exists (d1 ++ pre), c, e. split; [apply app_assoc|].
    split; [apply Forall_app; split; assumption | reflexivity].
Qed.

Context {T : Type}.

Lemma propagates_emits {A : Type} (proj : A -> option error) m :
  emits (T:=T) (tolerated ign) m -> propagates ign (T:=T) proj m.
Proof.
  intros Hm ts a ts' H. destruct (Hm _ _ _ H) as (d & E & F).
  exists d. split; [exact E | left; exact F].
Qed.

Lemma propagates_seq {A B : Type} (proj : B -> option error)
    (m : ST (T * World) A) (k : A -> ST (T * World) B) :
  emits (T:=T) (tolerated ign) m -> (forall a, propagates ign (T:=T) proj (k a)) ->
  propagates ign (T:=T) proj (bind m k).
Proof.
  intros Hm Hk ts b ts' H. apply bind_Done in H as (a & ts1 & H1 & H2).
  destruct (Hm _ _ _ H1) as (d1 & E1 & F1).
  destruct (Hk _ _ _ _ H2) as (d2 & E2 & S2).
  exists (d1 ++ d2). split.
  - rewrite E2, E1. symmetry. apply app_assoc.
  - apply settled_app; assumption.
Qed.

Lemma propagates_try {A B : Type} (p1 : A -> option error)
    (p2 : B -> option error) (m : ST (T * World) A)
    (k : A -> ST (T * World) B) :
  propagates ign (T:=T) p1 m ->
  (forall a, p1 a = None -> propagates ign (T:=T) p2 (k a)) ->
  (forall a e, p1 a = Some e ->
     forall ts b ts', k a ts = Done b ts' -> ts' = ts /\ p2 b = Some e) ->
  propagates ign (T:=T) p2 (bind m k).
Proof.
  intros Hm Hk Hr ts b ts' H. apply bind_Done in H as (a & ts1 & H1 & H2).
  destruct (Hm _ _ _ H1) as (d1 & E1 & S1).
  destruct (p1 a) as [e|] eqn:P.
  - destruct (Hr _ _ P _ _ _ H2) as [-> Pb]. exists d1. split; [exact E1|].
    rewrite Pb. exact S1.
  - destruct (Hk _ P _ _ _ H2) as (d2 & E2 & S2).
    exists (d1 ++ d2). split.
    + rewrite E2, E1. symmetry. apply app_assoc.
    + apply settled_app; [|exact S2].
      destruct S1 as [F1 | (? & ? & ? & _ & _ & ?)]; [exact F1 | discriminate].
Qed.

Lemma propagates_try_err {B : Type} (p2 : B -> option error)
    (m : ST (T * World) (option error))
    (k : option error -> ST (T * World) B) :
  propagates ign (T:=T) id m ->
  propagates ign (T:=T) p2 (k None) ->
  (forall e ts b ts', k (Some e) ts = Done b ts' -> ts' = ts /\ p2 b = Some e) ->
  propagates ign (T:=T) p2 (bind m k).
Proof.
  intros Hm Hk Hr. apply propagates_try with (p1 := id); [exact Hm | |].
  - intros a E. unfold id in E. subst a. exact Hk.
  - intros a e E. unfold id in E. subst a. apply Hr.
Qed.

Lemma propagates_if {A : Type} (proj : A -> option error) (b : bool) m1 m2 :
  propagates ign (T:=T) proj m1 -> propagates ign (T:=T) proj m2 ->
  propagates ign (T:=T) proj (if b then m1 else m2).
Proof. destruct b; auto. Qed.

Lemma settled_single c r : settled ign [(c, r)] r.
Proof.
  destruct r as [e|].
  - right. exists [], c, e. repeat split. constructor.
  - left. repeat constructor. intros e H. discriminate.
Qed.

Lemma propagates_sys {A : Type} c run :
  propagates ign (T:=T) err_of (lift (T:=T) (@sys A c run)).
Proof.
  intros ts r ts' H. apply lift_Done in H as [_ H].
  apply sys_Done in H as (E & _). exists [(c, err_of r)].
  split; [exact E | apply settled_single].
Qed.

Lemma propagates_lift_bind {A B : Type} (p : A -> option error)
    (q : B -> option error) (m : ST World A) (f : A -> B) :
  (forall a, q (f a) = p a) ->
  propagates ign (T:=T) p (lift (T:=T) m) ->
  propagates ign (T:=T) q (lift (T:=T) (let! r := m in ret (f r))).
Proof.
  intros Hf Hm ts b ts' H. apply lift_Done in H as [Ht H].
  apply bind_Done in H as (a & σ1 & H1 & H2). apply ret_Done in H2 as [-> E].
  rewrite E, Hf. apply (Hm ts a (fst ts, σ1)). unfold lift. rewrite H1.
  reflexivity.
Qed.

Lemma propagates_Remove name : propagates ign (T:=T) id (lift (T:=T) (os_Remove name)).
Proof.
  unfold os_Remove.
  apply propagates_lift_bind with (p := err_of); [reflexivity|].
  apply propagates_sys.
Qed.

Lemma propagates_Rename a b : propagates ign (T:=T) id (lift (T:=T) (os_Rename a b)).
Proof.
  unfold os_Rename.
  apply propagates_lift_bind with (p := err_of); [reflexivity|].
  apply propagates_sys.
Qed.

Lemma propagates_File_Close f : propagates ign (T:=T) id (lift (T:=T) (File_Close f)).
Proof.
  unfold File_Close.
  apply propagates_lift_bind with (p := err_of); [reflexivity|].
  apply propagates_sys.
Qed.

Lemma propagates_File_Write f data :
  propagates ign (T:=T) snd (lift (T:=T) (File_Write f data)).
Proof.
  unfold File_Write.
  apply propagates_lift_bind with (p := err_of);
    [intros [e|n]; reflexivity|].
  apply propagates_sys.
Qed.

Lemma propagates_WriteCloser_Write c data :
  propagates ign (T:=T) snd (lift (T:=T) (WriteCloser_Write c data)).
Proof.
  unfold WriteCloser_Write. destruct (wc_closed c).
  - apply propagates_emits. intros ts a ts' H.
    apply lift_Done in H as [_ H]. apply ret_Done in H as [_ ->].
    apply extends_refl.
  - apply propagates_File_Write.
Qed.

End Propagation.

(** ** What the methods of the two writers report *)

Section TimedPropagation.

Import Timed.

Lemma timed_Remove_tolerated name :
  emits (tolerated timed_ignored) (lift (T:=TimedRotatingFile) (os_Remove name)).
Proof.
  unfold os_Remove. apply emits_lift_bind, emits_lift_sys.
  intros r e _. reflexivity.
Qed.

Lemma timed_remove_each_tolerated files :
  emits (tolerated timed_ignored) (remove_each files).
Proof.
  induction files as [|f rest IH]; simpl.
  - apply emits_ret.
  - apply emits_bind; [apply timed_Remove_tolerated | intros _; exact IH].
Qed.

Lemma timed_getFilesToDelete_tolerated :
  emits (tolerated timed_ignored) getFilesToDelete.
Proof.
  unfold getFilesToDelete. apply emits_bind; [apply emits_self | intros t].
  destruct (filepath_Split (filename t)) as [dirName baseName].
  apply emits_bind.
  - unfold file_ListDir. apply emits_lift_sys. intros r e _. reflexivity.
  - intros listing. repeat emits_step.
Qed.

Lemma timed_reComputeRollover_tolerated φ : emits φ reComputeRollover.
Proof. unfold reComputeRollover. repeat emits_step. Qed.

Lemma timed_shouldRollover_tolerated φ : emits φ shouldRollover.
Proof. unfold shouldRollover. repeat emits_step. Qed.

Lemma timed_Close_propagates : propagates timed_ignored id Close.
Proof.
  unfold Close. apply propagates_seq; [apply emits_self | intros t].
  destruct (w t) as [f|]; [|apply propagates_emits, emits_panic].
  apply propagates_try_err.
  - apply propagates_File_Close.
  - apply propagates_emits. repeat emits_step.
  - intros e ts b ts' H. apply ret_Done in H as [-> ->]. auto.
Qed.

Lemma timed_open_propagates : propagates timed_ignored id open.
Proof.
  unfold open. apply propagates_seq; [apply emits_self | intros t].
  apply propagates_try with (p1 := err_of).
  - apply propagates_sys.
  - intros [e|f] E; [discriminate|]. apply propagates_emits. repeat emits_step.
  - intros [e'|f] e E ts b ts' H; [|discriminate].
    apply ret_Done in H as [-> ->]. auto.
Qed.

Lemma timed_doRollover_propagates : propagates timed_ignored id doRollover.
Proof.
  unfold doRollover. apply propagates_try_err.
  - apply timed_Close_propagates.
  - simpl.
    apply propagates_seq; [apply emits_self | intros t].
    apply propagates_seq; [apply emits_lift_gets | intros tm].
    apply propagates_seq; [apply emits_lift_gets | intros ex].
    apply propagates_seq.
    { destruct ex; [apply timed_Remove_tolerated | apply emits_ret]. }
    intros _.
    apply propagates_seq; [apply emits_lift_gets | intros isf].
    apply propagates_try_err.
    + destruct isf; [apply propagates_Rename | apply propagates_emits, emits_ret].
    + apply propagates_seq.
      { destruct (0 <? backupCount t); [|apply emits_ret].
        apply emits_bind; [apply timed_getFilesToDelete_tolerated|].
        intros files. apply timed_remove_each_tolerated. }
      intros _. apply propagates_seq; [apply timed_reComputeRollover_tolerated|].
      intros _. apply timed_open_propagates.
    + intros e ts b ts' H. apply ret_Done in H as [-> ->]. auto.
  - intros e ts b ts' H. apply ret_Done in H as [-> ->]. auto.
Qed.

Lemma timed_Write_propagates data : propagates timed_ignored snd (Write data).
Proof.
  unfold Write. apply propagates_seq; [apply emits_self | intros t].
  destruct (w t) as [f|]; [|apply propagates_emits, emits_ret].
  apply propagates_seq; [apply timed_shouldRollover_tolerated | intros b].
  apply propagates_try_err.
  - destruct b; [apply timed_doRollover_propagates | apply propagates_emits, emits_ret].
  - apply propagates_seq; [apply emits_self | intros t1].
    destruct (w t1) as [f1|]; [|apply propagates_emits, emits_panic].
    apply propagates_File_Write.
  - intros e ts b' ts' H. apply ret_Done in H as [-> ->]. auto.
Qed.

End TimedPropagation.

Section RotatingPropagation.

Import Rotating.

Lemma rotating_close_tolerated : emits (tolerated rotating_ignored) close.
Proof.
  unfold close. apply emits_bind; [apply emits_self | intros r].
  destruct (w r) as [c|]; [|apply emits_ret].
  apply emits_bind; [|intros res; repeat emits_step].
  unfold WriteCloser_Close. destruct (wc_closed c).
  - intros ts a ts' H. apply lift_Done in H as [_ H].
    apply ret_Done in H as [_ ->]. apply extends_refl.
  - unfold File_Close.
    apply (emits_lift_bind (T:=RotatingFile) _
             (let! r0 := sys (SysClose (f_name (wc_file c))) (fun m => inr (tt, m)) in
              ret (err_of r0))
             (fun err => (err, mkWriteCloser true (wc_file c)))).
    apply emits_lift_bind, emits_lift_sys. intros r0 e _. reflexivity.
Qed.

Lemma rotating_open_propagates : propagates rotating_ignored id open.
Proof.
  unfold open. apply propagates_seq; [apply emits_self | intros r].
  apply propagates_try with (p1 := err_of).
  - apply propagates_sys.
  - intros [e|f] E; [discriminate|].
    apply propagates_try with (p1 := err_of).
    + apply propagates_sys.
    + intros [e|size] E'; [discriminate|]. apply propagates_emits.
      repeat emits_step.
    + intros [e'|size] e E' ts b ts' H; [|discriminate].
      apply ret_Done in H as [-> ->]. auto.
  - intros [e'|f] e E ts b ts' H; [|discriminate].
    apply ret_Done in H as [-> ->]. auto.
Qed.

Lemma rotating_shift_backups_propagates name indices :
  propagates rotating_ignored id (shift_backups name indices).
Proof.
  induction indices as [|i rest IH]; simpl.
  - apply propagates_emits, emits_ret.
  - apply propagates_seq; [apply emits_lift_gets | intros es].
    apply propagates_try_err.
    + destruct es; [|apply propagates_emits, emits_ret].
      apply propagates_seq; [apply emits_lift_gets | intros ed].
      destruct ed; [|apply propagates_emits, emits_ret].
      apply propagates_try_err.
      * apply propagates_Remove.
      * apply propagates_Rename.
      * intros e ts b ts' H. apply ret_Done in H as [-> ->]. auto.
    + exact IH.
    + intros e ts b ts' H. apply ret_Done in H as [-> ->]. auto.
Qed.

Lemma rotating_doRollover_propagates : propagates rotating_ignored id doRollover.
Proof.
  unfold doRollover.
  apply propagates_seq; [apply rotating_close_tolerated | intros _].
  apply propagates_seq; [apply emits_self | intros r].
  apply propagates_try_err.
  - destruct (0 <? backupCount r); [|apply propagates_emits, emits_ret].
    apply propagates_try_err.
    + apply rotating_shift_backups_propagates.
    + simpl.
      apply propagates_seq; [apply emits_lift_gets | intros ed].
      apply propagates_try_err.
      * destruct ed; [apply propagates_Remove | apply propagates_emits, emits_ret].
      * simpl.
        apply propagates_seq; [apply emits_lift_gets | intros ef].
        destruct ef; [apply propagates_Rename | apply propagates_emits, emits_ret].
      * intros e ts b ts' H. apply ret_Done in H as [-> ->]. auto.
    + intros e ts b ts' H. apply ret_Done in H as [-> ->]. auto.
  - apply rotating_open_propagates.
  - intros e ts b ts' H. apply ret_Done in H as [-> ->]. auto.
Qed.

Lemma rotating_Write_propagates data :
  propagates rotating_ignored snd (Write data).
Proof.
  unfold Write. apply propagates_seq; [apply emits_self | intros r].
  destruct (w r) as [c|]; [|apply propagates_emits, emits_ret].
  destruct (WriteCloser_Closed c); [apply propagates_emits, emits_ret|].
  apply propagates_try_err.
  - destruct (maxSize r <? wrap64 (nbytes r + len data));
      [apply rotating_doRollover_propagates | apply propagates_emits, emits_ret].
  - apply propagates_seq; [apply emits_self | intros r1].
    destruct (w r1) as [c1|]; [|apply propagates_emits, emits_panic].
    apply propagates_try with (p1 := snd).
    + apply propagates_WriteCloser_Write.
    + intros res E. rewrite E. apply propagates_seq; [apply emits_update|].
      intros _. intros ts b ts' H. apply ret_Done in H as [-> ->].
      exists []. split; [symmetry; apply app_nil_r|]. left. constructor.
    + intros res e E ts b ts' H. rewrite E in H.
      apply ret_Done in H as [-> ->]. auto.
  - intros e ts b ts' H. apply ret_Done in H as [-> ->]. auto.
Qed.

End RotatingPropagation.

(** ** Computations that keep a relation *)

Section Keeps.

Context {S : Type} (R : S -> S -> Prop).
Hypothesis R_refl : forall s, R s s.
Hypothesis R_trans : forall s1 s2 s3, R s1 s2 -> R s2 s3 -> R s1 s3.

Lemma keeps_ret {A : Type} (a : A) : keeps R (ret a).
Proof using R_refl. intros s b s' H. apply ret_Done in H as [_ ->]. apply R_refl. Qed.

Lemma keeps_panic {A : Type} : keeps R (@panic S A).
Proof. intros s b s' H. discriminate. Qed.

Lemma keeps_gets {A : Type} (f : S -> A) : keeps R (gets f).
Proof using R_refl. intros s b s' H. unfold gets in H. inversion H. apply R_refl. Qed.

Lemma keeps_bind {A B : Type} (m : ST S A) (k : A -> ST S B) :
  keeps R m -> (forall a, keeps R (k a)) -> keeps R (bind m k).
Proof using R_trans.
  intros Hm Hk s b s' H. apply bind_Done in H as (a & s1 & H1 & H2).
  eapply R_trans; [eapply Hm | eapply Hk]; eassumption.
Qed.

End Keeps.

Lemma calm_refl {T : Type} (ts : T * World) : calm ts ts.
Proof. repeat split. Qed.

Lemma calm_trans {T : Type} (a b c : T * World) : calm a b -> calm b c -> calm a c.
Proof.
  intros (E1 & T1 & C1 & Z1) (E2 & T2 & C2 & Z2).
  repeat split; congruence.
Qed.

Lemma calm_lift_sys {T A : Type} c run :
  keeps calm (lift (T:=T) (@sys A c run)).
Proof.
  intros ts a ts' H. apply lift_Done in H as [E H].
  apply sys_Done in H as (_ & _ & C & K & Z & _). repeat split; assumption.
Qed.

Lemma calm_lift_gets {T A : Type} (f : World -> A) :
  keeps calm (lift (T:=T) (gets f)).
Proof.
  intros ts a ts' H. apply lift_Done in H as [E H]. unfold gets in H.
  inversion H as [[Ha Hs]]. repeat split; try assumption; rewrite <- Hs; reflexivity.
Qed.

Lemma calm_lift_bind {T A B : Type} (m : ST World A) (f : A -> B) :
  keeps calm (lift (T:=T) m) ->
  keeps calm (lift (T:=T) (let! r := m in ret (f r))).
Proof.
  intros Hm ts b ts' H. apply lift_Done in H as [Ht H].
  apply bind_Done in H as (a & σ1 & H1 & H2). apply ret_Done in H2 as [_ E].
  assert (Hc : calm ts (fst ts, σ1)).
  { apply (Hm ts a). unfold lift. rewrite H1. reflexivity. }
  destruct Hc as (_ & Hc). split; [exact Ht|]. rewrite E. exact Hc.
Qed.

Lemma calm_self {T : Type} : keeps calm (@self T World).
Proof. intros ts a ts' H. apply self_Done in H as [_ ->]. apply calm_refl. Qed.

Ltac calm_step :=
  match goal with
  | |- keeps calm (ret _) => apply keeps_ret, calm_refl
  | |- keeps calm panic => apply keeps_panic
  | |- keeps calm self => apply calm_self
  | |- keeps calm (lift (gets _)) => apply calm_lift_gets
  | |- keeps calm (lift (file_IsExist _)) => apply calm_lift_gets
  | |- keeps calm (lift (file_IsFile _)) => apply calm_lift_gets
  | |- keeps calm (lift (time_Unix _)) => apply calm_lift_gets
  | |- keeps calm (lift (sys _ _)) => apply calm_lift_sys
  | |- keeps calm (lift (file_ListDir _)) => apply calm_lift_sys
  | |- keeps calm (lift (os_Remove _)) => apply calm_lift_bind, calm_lift_sys
  | |- keeps calm (lift (os_Rename _ _)) => apply calm_lift_bind, calm_lift_sys
  | |- keeps calm (lift (File_Close _)) => apply calm_lift_bind, calm_lift_sys
  | |- keeps calm (bind _ _) => apply (keeps_bind calm calm_trans); [|intros ?]
  | |- keeps calm (if ?b then _ else _) => destruct b
  | |- keeps calm (match ?x with _ => _ end) => destruct x
  end.

Lemma timed_remove_each_calm files : keeps calm (Timed.remove_each files).
Proof.
  induction files as [|f rest IH]; simpl.
  - apply keeps_ret, calm_refl.
  - apply (keeps_bind calm calm_trans); [calm_step | intros _; exact IH].
Qed.

Lemma timed_getFilesToDelete_calm : keeps calm Timed.getFilesToDelete.
Proof.
  unfold Timed.getFilesToDelete.
  apply (keeps_bind calm calm_trans); [apply calm_self | intros t].
  destruct (filepath_Split (Timed.filename t)) as [dirName baseName].
  repeat calm_step.
Qed.

(** ** Writers without a handle *)

Lemma timed_Close_ok_absent t σ t' σ' :
  Timed.Close (t, σ) = Done None (t', σ') -> Timed.w t' = None.
Proof.
  unfold Timed.Close. intros H.
  apply bind_Done in H as (t0 & ts0 & H0 & H). apply self_Done in H0 as [-> ->].
  simpl in H. destruct (Timed.w t) as [f|]; [|discriminate].
  apply bind_Done in H as (err & ts1 & H1 & H).
  destruct err as [e|].
  - apply ret_Done in H as [H _]. discriminate.
  - apply bind_Done in H as (u & ts2 & H2 & H).
    apply update_Done in H2. apply ret_Done in H as [_ E].
    rewrite H2 in E. inversion E; subst. reflexivity.
Qed.

Lemma rotating_close_absent r σ err r' σ' :
  Rotating.close (r, σ) = Done err (r', σ') -> Rotating.w r' = None.
Proof.
  unfold Rotating.close. intros H.
  apply bind_Done in H as (r0 & ts0 & H0 & H). apply self_Done in H0 as [-> ->].
  simpl in H. destruct (Rotating.w r) as [c|] eqn:W.
  - apply bind_Done in H as (res & ts1 & H1 & H).
    apply bind_Done in H as (u & ts2 & H2 & H).
    apply update_Done in H2. apply ret_Done in H as [_ E].
    rewrite H2 in E. inversion E; subst. reflexivity.
  - apply ret_Done in H as [_ H]. inversion H; subst. exact W.
Qed.

Lemma timed_Write_absent data t σ :
  Timed.w t = None ->
  Timed.Write data (t, σ) = Done (0, Some ErrFileNotOpen) (t, σ).
Proof. intros W. unfold Timed.Write, bind, self, gets. simpl. rewrite W. reflexivity. Qed.

Lemma rotating_Write_absent data r σ :
  Rotating.w r = None ->
  Rotating.Write data (r, σ) = Done (0, Some ErrFileNotOpen) (r, σ).
Proof.
  intros W. unfold Rotating.Write, bind, self, gets. simpl. rewrite W.
  reflexivity.
Qed.

(** ** The steps of a time-based rotation *)

Lemma timed_Close_inv t σ err t' σ' :
  Timed.Close (t, σ) = Done err (t', σ') ->
  exists f, Timed.w t = Some f
    /\ trace σ' = trace σ ++ [(SysClose (f_name f), err)]
    /\ same_clock σ σ'
    /\ t' = match err with None => Timed.set_w None t | Some _ => t end.
Proof.
  unfold Timed.Close. intros H.
  apply bind_Done in H as (t0 & ts0 & H0 & H). apply self_Done in H0 as [-> ->].
  simpl in H. destruct (Timed.w t) as [f|]; [|discriminate].
  exists f. split; [reflexivity|].
  apply bind_Done in H as (e & ts1 & H1 & H).
  apply lift_Done in H1 as [E1 H1]. unfold File_Close in H1.
  apply bind_Done in H1 as (r & σ1 & H1 & H1'). apply ret_Done in H1' as [-> Eσ].
  apply sys_Done in H1 as (Tr & _ & C & K & Z & _).
  destruct ts1 as [t1 σ1']. simpl in *. subst σ1' t1.
  destruct (err_of r) as [e|] eqn:Er.
  - apply ret_Done in H as [-> E]. inversion E; subst.
    repeat split; assumption.
  - apply bind_Done in H as (u & ts2 & H2 & H). apply update_Done in H2.
    apply ret_Done in H as [-> E]. rewrite H2 in E. inversion E; subst.
    repeat split; assumption.
Qed.

Lemma timed_open_inv t σ err t' σ' :
  Timed.open (t, σ) = Done err (t', σ') ->
  trace σ' = trace σ ++ [(SysOpenFile (Timed.filename t) FILE_MODE FILE_PERM, err)]
  /\ same_clock σ σ'
  /\ t' = match err with
          | None => Timed.set_w (Some (mkFile (Timed.filename t))) t
          | Some _ => t
          end.
Proof.
  unfold Timed.open. intros H.
  apply bind_Done in H as (t0 & ts0 & H0 & H). apply self_Done in H0 as [-> ->].
  simpl in H. apply bind_Done in H as (r & ts1 & H1 & H).
  apply lift_Done in H1 as [E1 H1]. unfold os_OpenFile in H1.
  apply sys_Done in H1 as (Tr & _ & C & K & Z & _ & Hr).
  destruct ts1 as [t1 σ1]. simpl in *. subst t1.
  destruct r as [e|file].
  - apply ret_Done in H as [-> E]. inversion E; subst. repeat split; assumption.
  - apply bind_Done in H as (u & ts2 & H2 & H). apply update_Done in H2.
    apply ret_Done in H as [-> E]. rewrite H2 in E. inversion E; subst.
    assert (file = mkFile (Timed.filename t)) as ->.
    { destruct (fs σ !! Timed.filename t) as [[p c|]|]; inversion Hr; reflexivity. }
    repeat split; assumption.
Qed.

Lemma timed_reComputeRollover_inv t σ u t' σ' :
  Timed.reComputeRollover (t, σ) = Done u (t', σ') ->
  σ' = tick σ
  /\ t' = Timed.set_rotatorAt
            (next_deadline (zone σ (clock σ (ticks σ))) (clock σ (ticks σ))
                           (Timed.interval t)) t.
Proof.
  unfold Timed.reComputeRollover, bind, lift, time_Now_Unix, time_Unix, gets,
    self, update, modify, next_deadline, elapsed.
  cbn [fst snd tick ticks clock zone]. intros H.
  injection H as _ <- <-. split; reflexivity.
Qed.

Lemma wrap64_id z : int64_range z -> wrap64 z = z.
Proof.
  unfold int64_range, wrap64. intros H.
  rewrite Z.mod_small; lia.
Qed.


Lemma emits_any {T A : Type} φ (m : ST (T * World) A) :
  emits φ m -> emits any_event m.
Proof. apply emits_weaken. intros ev _. exact I. Qed.

Lemma os_Rename_inv {T : Type} a b (ts : T * World) err ts' :
  lift (os_Rename a b) ts = Done err ts' ->
  calm ts ts' /\ trace (snd ts') = trace (snd ts) ++ [(SysRename a b, err)].
Proof.
  intros H. split.
  - revert H. apply (calm_lift_bind (T:=T)), calm_lift_sys.
  - apply lift_Done in H as [_ H]. unfold os_Rename in H.
    apply bind_Done in H as (r & σ1 & H1 & H2). apply ret_Done in H2 as [-> ->].
    apply sys_Done in H1 as (Tr & _). exact Tr.
Qed.

(** The part of [doRollover] between the close and the rename. *)
Lemma timed_before_rename_calm (t : Timed.TimedRotatingFile) dstPath :
  keeps calm
    (let! ex := lift (T:=Timed.TimedRotatingFile) (file_IsExist dstPath) in
     if ex then lift (os_Remove dstPath) else ret None).
Proof. repeat calm_step. Qed.

Lemma timed_before_rename_emits (t : Timed.TimedRotatingFile) dstPath :
  emits any_event
    (let! ex := lift (T:=Timed.TimedRotatingFile) (file_IsExist dstPath) in
     if ex then lift (os_Remove dstPath) else ret None).
Proof.
  apply emits_bind; [apply emits_lift_gets | intros ex].
  destruct ex; [|apply emits_ret].
  apply (emits_any _ _ (timed_Remove_tolerated dstPath)).
Qed.

Lemma timed_prune_calm t : keeps calm (timed_prune t).
Proof.
  unfold timed_prune. destruct (0 <? Timed.backupCount t).
  - apply (keeps_bind calm calm_trans); [apply timed_getFilesToDelete_calm|].
    intros files. apply timed_remove_each_calm.
  - apply keeps_ret, calm_refl.
Qed.

Lemma timed_prune_emits t : emits any_event (timed_prune t).
Proof.
  unfold timed_prune. destruct (0 <? Timed.backupCount t); [|apply emits_ret].
  apply emits_bind.
  - apply (emits_any _ _ timed_getFilesToDelete_tolerated).
  - intros files. apply (emits_any _ _ (timed_remove_each_tolerated files)).
Qed.

(** How a time-based rotation can end: the close failed; or the rename
    failed; or the deadline was recomputed from the next reading of the
    clock and the file reopened, with or without success. *)
Lemma timed_doRollover_inv t σ err t' σ' :
  Timed.doRollover (t, σ) = Done err (t', σ') ->
  exists f, Timed.w t = Some f /\
   ((exists e, err = Some e /\ t' = t
       /\ trace σ' = trace σ ++ [(SysClose (f_name f), Some e)]
       /\ same_clock σ σ')
    \/ (exists e d dst, err = Some e /\ t' = Timed.set_w None t
          /\ trace σ' = trace σ ++ d ++ [(SysRename (Timed.filename t) dst, Some e)]
          /\ same_clock σ σ')
    \/ (exists d,
          trace σ' = trace σ ++ d
                     ++ [(SysOpenFile (Timed.filename t) FILE_MODE FILE_PERM, err)]
          /\ ticks σ' = Datatypes.S (ticks σ)
          /\ clock σ' = clock σ /\ zone σ' = zone σ
          /\ let now := clock σ (ticks σ) in
             let t1 := Timed.set_rotatorAt
                         (next_deadline (zone σ now) now (Timed.interval t))
                         (Timed.set_w None t) in
             t' = match err with
                  | None => Timed.set_w (Some (mkFile (Timed.filename t))) t1
                  | Some _ => t1
                  end)).
Proof.
  unfold Timed.doRollover. intros H.
  apply bind_Done in H as (e0 & [t1 σ1] & HC & H).
  apply timed_Close_inv in HC as (f & W & Tr1 & Ck1 & Et1).
  exists f. split; [exact W|].
  destruct e0 as [e|].
  { apply ret_Done in H as [-> E]. inversion E; subst. left. exists e. auto. }
  apply bind_Done in H as (t1' & ts & Hs & H). apply self_Done in Hs as [-> ->].
  cbn [fst] in H.
  apply bind_Done in H as (tm & [t2 σ2] & Htm & H).
  apply (calm_lift_gets (T:=Timed.TimedRotatingFile)) in Htm as Cm2.
  apply lift_Done in Htm as [_ Htm]. unfold time_Unix, gets in Htm.
  injection Htm as _ Eσ2. cbn [snd] in Eσ2. subst σ2.
  destruct Cm2 as [Et2 _]. cbn [fst] in Et2. subst t2.
  (* the removal of an existing destination *)
  set (dst := (Timed.filename t1 +:+ "." +:+ Format tm (time2fmt (Timed.when t1)))%string) in H.
  match type of H with
  | bind (lift (file_IsExist dst)) (fun ex => bind ?rm (fun _ => ?rest)) _ = _ =>
      change (bind (bind (lift (file_IsExist dst)) (fun ex => rm))
                   (fun _ => rest) (t1, σ1) = Done err (t', σ')) in H
  end.
  apply bind_Done in H as (u & [t3 σ3] & Hrm & H).
  pose proof (timed_before_rename_calm t1 dst _ _ _ Hrm) as (Et3 & Ck3).
  pose proof (timed_before_rename_emits t1 dst _ _ _ Hrm) as (d3 & Tr3 & _).
  cbn [fst snd] in Et3, Ck3, Tr3. subst t3.
  apply bind_Done in H as (isf & [t4 σ4] & Hisf & H).
  apply (calm_lift_gets (T:=Timed.TimedRotatingFile)) in Hisf as Cm4.
  apply lift_Done in Hisf as [_ Hisf]. unfold file_IsFile, gets in Hisf.
  injection Hisf as _ Eσ4. cbn [snd] in Eσ4. subst σ4.
  destruct Cm4 as [Et4 _]. cbn [fst] in Et4. subst t4.
  apply bind_Done in H as (e5 & [t5 σ5] & Hrn & H).
  assert (R5 : t5 = t1 /\ same_clock σ3 σ5
               /\ exists d5, trace σ5 = trace σ3 ++ d5
                  /\ (forall e, e5 = Some e ->
                        d5 = [(SysRename (Timed.filename t1) dst, Some e)])).
  { destruct isf.
    - apply os_Rename_inv in Hrn as ((E & C) & Tr). cbn [fst snd] in *.
      split; [exact E|]. split; [exact C|].
      eexists. split; [exact Tr|]. intros e ->. reflexivity.
    - apply ret_Done in Hrn as [-> E]. inversion E; subst.
      split; [reflexivity|]. split; [repeat split|].
      exists []. split; [symmetry; apply app_nil_r | discriminate]. }
  destruct R5 as (-> & Ck5 & d5 & Tr5 & Hd5).
  assert (Ck15 : same_clock σ σ5).
  { destruct Ck1 as (? & ? & ?), Ck3 as (? & ? & ?), Ck5 as (? & ? & ?).
    repeat split; congruence. }
  destruct e5 as [e|].
  { apply ret_Done in H as [-> E]. inversion E; subst.
    right. left. exists e, ([(SysClose (f_name f), None)] ++ d3), dst.
    split; [reflexivity|]. split; [reflexivity|]. split; [|exact Ck15].
    rewrite Tr5, Tr3, Tr1, (Hd5 e eq_refl), <- !app_assoc. reflexivity. }
  fold (timed_prune t1) in H.
  apply bind_Done in H as (u6 & [t6 σ6] & Hpr & H).
  pose proof (timed_prune_calm t1 _ _ _ Hpr) as (Et6 & Ck6).
  pose proof (timed_prune_emits t1 _ _ _ Hpr) as (d6 & Tr6 & _).
  cbn [fst snd] in Et6, Ck6, Tr6. subst t6.
  apply bind_Done in H as (u7 & [t7 σ7] & Hre & H).
  apply timed_reComputeRollover_inv in Hre as (-> & ->).
  apply timed_open_inv in H as (Tr8 & Ck8 & Et8).
  destruct Ck15 as (K1 & K2 & K3), Ck6 as (K4 & K5 & K6), Ck8 as (K7 & K8 & K9).
  cbn [ticks clock zone tick trace Timed.filename Timed.set_rotatorAt] in *.
  right. right. exists ([(SysClose (f_name f), None)] ++ d3 ++ d5 ++ d6).
  split.
  { rewrite Tr8, Tr6, Tr5, Tr3, Tr1, <- !app_assoc. subst t1. reflexivity. }
  split; [congruence|]. split; [congruence|]. split; [congruence|].
  cbv zeta. rewrite Et8. subst t1.
  replace (ticks σ6) with (ticks σ) by congruence.
  replace (clock σ6) with (clock σ) by congruence.
  replace (zone σ6) with (zone σ) by congruence.
  destruct err; reflexivity.
Qed.

Lemma File_Write_inv {T : Type} f data (ts : T * World) n err ts' :
  lift (File_Write f data) ts = Done (n, err) ts' ->
  calm ts ts'
  /\ trace (snd ts') = trace (snd ts) ++ [(SysWrite (f_name f) data, err)]
  /\ match err with
     | None => n = len data
               /\ exists p c, fs (snd ts) !! f_name f = Some (RegFile p c)
                    /\ fs (snd ts') = <[f_name f := RegFile p (c ++ data)]> (fs (snd ts))
     | Some _ => n = 0 /\ fs (snd ts') = fs (snd ts)
     end.
Proof.
  intros H. split.
  { revert H. apply (calm_lift_bind (T:=T)), calm_lift_sys. }
  apply lift_Done in H as [_ H]. unfold File_Write in H.
  apply bind_Done in H as (r & σ1 & H1 & H2). apply ret_Done in H2 as [E ->].
  apply sys_Done in H1 as (Tr & _ & _ & _ & _ & _ & Hr).
  destruct r as [e|m]; inversion E; subst; cbn [err_of] in *.
  - split; [exact Tr|]. destruct Hr as [Hfs _]. auto.
  - split; [exact Tr|].
    destruct (fs (snd ts) !! f_name f) as [[p c|]|] eqn:L; try discriminate.
    inversion Hr; subst. split; [reflexivity|]. exists p, c. auto.
Qed.

(** How a [Write] of the time-based writer runs when the handle is there:
    the clock is read; if the deadline has passed the rotation runs first and
    its failure ends the call; then the data go to the handle. *)
Lemma timed_Write_inv data t σ n err t' σ' f :
  Timed.w t = Some f ->
  Timed.Write data (t, σ) = Done (n, err) (t', σ') ->
  if Timed.rotatorAt t <=? clock σ (ticks σ) then
    exists e0 t1 σ1,
      Timed.doRollover (t, tick σ) = Done e0 (t1, σ1)
      /\ match e0 with
         | Some e => n = 0 /\ err = Some e /\ t' = t1 /\ σ' = σ1
         | None => exists f1, Timed.w t1 = Some f1
                     /\ lift (File_Write f1 data) (t1, σ1) = Done (n, err) (t', σ')
         end
  else lift (File_Write f data) (t, tick σ) = Done (n, err) (t', σ').
Proof.
  intros W. unfold Timed.Write. intros H.
  apply bind_Done in H as (t0 & ts0 & H0 & H). apply self_Done in H0 as [-> ->].
  cbn [fst] in H. rewrite W in H.
  apply bind_Done in H as (b & [tb σb] & Hb & H).
  unfold Timed.shouldRollover, bind, self, gets, lift, time_Now_Unix, ret in Hb.
  cbn [fst snd] in Hb. injection Hb as <- <- <-.
  destruct (Timed.rotatorAt t <=? clock σ (ticks σ)).
  - apply bind_Done in H as (e0 & [t1 σ1] & Hr & H).
    exists e0, t1, σ1. split; [exact Hr|].
    destruct e0 as [e|].
    + apply ret_Done in H as [E1 E2]. inversion E1; inversion E2; subst. auto.
    + apply bind_Done in H as (t1' & ts1 & Hs & H).
      apply self_Done in Hs as [-> ->]. cbn [fst] in H.
      destruct (Timed.w t1) as [f1|]; [|discriminate].
      exists f1. split; [reflexivity | exact H].
  - apply bind_Done in H as (e0 & ts1 & Hr & H).
    apply ret_Done in Hr as [-> ->].
    apply bind_Done in H as (t1' & ts1 & Hs & H).
    apply self_Done in Hs as [-> ->]. cbn [fst] in H. rewrite W in H. exact H.
Qed.

(** ** The steps of a size-based rotation *)

Lemma append_empty_r (s : string) : (s +:+ "")%string = s.
Proof.
  induction s as [|c s IH]; [reflexivity|].
  change (String c (s +:+ "") = String c s). rewrite IH. reflexivity.
Qed.

Lemma append_ne_self (s t : string) : t <> ""%string -> (s +:+ t)%string <> s.
Proof.
  intros Ht E. rewrite <- (append_empty_r s) in E at 2.
  apply String.app_inj in E. contradiction.
Qed.

Lemma Sprintf_s_d_ne name i : Sprintf_s_d name i <> name.
Proof. unfold Sprintf_s_d. apply append_ne_self. discriminate. Qed.

Lemma rotating_close_inv r σ e r' σ' :
  Rotating.close (r, σ) = Done e (r', σ') ->
  r' = Rotating.set_w None r /\ fs σ' = fs σ /\ same_clock σ σ'
  /\ (trace σ' = trace σ /\ e = None
      /\ (forall c, Rotating.w r = Some c -> wc_closed c = true)
      \/ exists c, Rotating.w r = Some c /\ wc_closed c = false
           /\ trace σ' = trace σ ++ [(SysClose (f_name (wc_file c)), e)]).
Proof.
  unfold Rotating.close. intros H.
  apply bind_Done in H as (r0 & ts0 & H0 & H). apply self_Done in H0 as [-> ->].
  cbn [fst] in H. destruct (Rotating.w r) as [c|] eqn:W.
  - apply bind_Done in H as (res & [r1 σ1] & H1 & H).
    apply bind_Done in H as (u & ts2 & H2 & H). apply update_Done in H2.
    apply ret_Done in H as [-> E]. rewrite H2 in E. cbn [fst snd] in E.
    injection E as -> ->.
    apply lift_Done in H1 as [E1 H1]. cbn [fst snd] in E1, H1. subst r1.
    split; [reflexivity|].
    unfold WriteCloser_Close in H1. destruct (wc_closed c) eqn:C.
    + apply ret_Done in H1 as [-> ->]. cbn [fst].
      split; [reflexivity|]. split; [repeat split|]. left.
      split; [reflexivity|]. split; [reflexivity|].
      intros c' Hc'. injection Hc' as <-. exact C.
    + apply bind_Done in H1 as (err & σ2 & H1 & H1').
      apply ret_Done in H1' as [-> ->]. cbn [fst].
      unfold File_Close in H1.
      apply bind_Done in H1 as (r2 & σ3 & H1 & H1').
      apply ret_Done in H1' as [-> ->].
      apply sys_Done in H1 as (Tr & _ & Ck & Tk & Zn & _ & Hr).
      destruct r2 as [e2|[]]; cbn [err_of] in *.
      * destruct Hr as [Hfs _]. split; [exact Hfs|]. split; [repeat split; auto|].
        right. exists c. auto.
      * injection Hr as Hfs. split; [symmetry; exact Hfs|].
        split; [repeat split; auto|]. right. exists c. auto.
  - apply ret_Done in H as [-> E]. injection E as -> ->.
    split; [destruct r; cbn in W; subst; reflexivity|].
    split; [reflexivity|]. split; [repeat split|]. left.
    split; [reflexivity|]. split; [reflexivity|]. intros c' Hc'. discriminate.
Qed.

Lemma rotating_open_inv r σ err r' σ' :
  Rotating.open (r, σ) = Done err (r', σ') ->
  opened (Rotating.filename r) (fs σ) (fs σ')
  /\ match err with
     | None =>
         exists p c,
           fs σ' !! Rotating.filename r = Some (RegFile p c)
           /\ r' = Rotating.set_w
                     (Some (NewWriteCloser (mkFile (Rotating.filename r))))
                     (Rotating.set_nbytes (len c) r)
           /\ trace σ' = trace σ
                ++ [(SysOpenFile (Rotating.filename r) FILE_MODE FILE_PERM, None);
                    (SysStat (Rotating.filename r), None)]
     | Some e =>
         r' = r
         /\ (trace σ' = trace σ
               ++ [(SysOpenFile (Rotating.filename r) FILE_MODE FILE_PERM, Some e)]
             \/ trace σ' = trace σ
                  ++ [(SysOpenFile (Rotating.filename r) FILE_MODE FILE_PERM, None);
                      (SysStat (Rotating.filename r), Some e)])
     end.
Proof.
  unfold Rotating.open. intros H.
  apply bind_Done in H as (r0 & ts0 & H0 & H). apply self_Done in H0 as [-> ->].
  cbn [fst] in H. apply bind_Done in H as (o & [r1 σ1] & H1 & H).
  apply lift_Done in H1 as [E1 H1]. cbn [fst snd] in E1, H1. subst r1.
  unfold os_OpenFile in H1.
  apply sys_Done in H1 as (Tr1 & _ & _ & _ & _ & _ & Hr1).
  destruct o as [e|file]; cbn [err_of] in *.
  - apply ret_Done in H as [-> E]. injection E as -> ->.
    destruct Hr1 as [Hfs _]. split; [left; exact Hfs|]. auto.
  - assert (Ho : file = mkFile (Rotating.filename r)
                 /\ opened (Rotating.filename r) (fs σ) (fs σ1)).
    { destruct (fs σ !! Rotating.filename r) as [[p c|]|] eqn:L;
        inversion Hr1; subst; split; try reflexivity.
      - left. reflexivity.
      - right. auto. }
    destruct Ho as [-> Ho].
    apply bind_Done in H as (info & [r2 σ2] & H2 & H).
    apply lift_Done in H2 as [E2 H2]. cbn [fst snd] in E2, H2. subst r2.
    unfold File_Stat in H2. cbn [f_name] in H2.
    apply sys_Done in H2 as (Tr2 & _ & _ & _ & _ & _ & Hr2).
    destruct info as [e|size]; cbn [err_of] in *.
    + apply ret_Done in H as [-> E]. injection E as -> ->.
      destruct Hr2 as [Hfs _]. rewrite Hfs. split; [exact Ho|].
      split; [reflexivity|]. right. rewrite Tr2, Tr1, <- app_assoc. reflexivity.
    + apply bind_Done in H as (u1 & ts3 & H3 & H). apply update_Done in H3.
      apply bind_Done in H as (u2 & ts4 & H4 & H). apply update_Done in H4.
      apply ret_Done in H as [-> E]. rewrite H4, H3 in E. cbn [fst snd] in E.
      injection E as -> ->.
      destruct (fs σ1 !! Rotating.filename r) as [[p c|]|] eqn:L;
        try discriminate.
      injection Hr2 as <- Hfs. rewrite <- Hfs. split; [exact Ho|].
      exists p, c. split; [exact L|]. split; [reflexivity|].
      rewrite Tr2, Tr1, <- app_assoc. reflexivity.
Qed.

Lemma opened_keeps name m m' p n :
  opened name m m' -> m !! p = Some n -> m' !! p = Some n.
Proof.
  intros [-> | [Hn ->]] Hp; [exact Hp|].
  rewrite lookup_insert_ne; [exact Hp|]. intros ->. congruence.
Qed.

Lemma opened_elsewhere name m m' p :
  opened name m m' -> p <> name -> m' !! p = m !! p.
Proof.
  intros [-> | [Hn ->]] Hp; [reflexivity|].
  rewrite lookup_insert_ne; [reflexivity | congruence].
Qed.

Lemma os_Remove_inv {T : Type} p (ts : T * World) err ts' :
  lift (os_Remove p) ts = Done err ts' ->
  fst ts' = fst ts
  /\ match err with
     | None => fs (snd ts') = delete p (fs (snd ts))
     | Some _ => fs (snd ts') = fs (snd ts)
     end.
Proof.
  intros H. apply lift_Done in H as [E H]. split; [exact E|].
  unfold os_Remove in H. apply bind_Done in H as (r & σ1 & H1 & H2).
  apply ret_Done in H2 as [-> ->].
  apply sys_Done in H1 as (_ & _ & _ & _ & _ & _ & Hr).
  destruct r as [e|[]]; cbn [err_of].
  - apply Hr.
  - destruct (fs (snd ts) !! p); inversion Hr. reflexivity.
Qed.

Lemma os_Rename_fs {T : Type} a b (ts : T * World) err ts' :
  lift (os_Rename a b) ts = Done err ts' ->
  fst ts' = fst ts
  /\ match err with
     | None => exists n, fs (snd ts) !! a = Some n
                 /\ fs (snd ts') = <[b := n]> (delete a (fs (snd ts)))
     | Some _ => fs (snd ts') = fs (snd ts)
     end.
Proof.
  intros H. apply lift_Done in H as [E H]. split; [exact E|].
  unfold os_Rename in H. apply bind_Done in H as (r & σ1 & H1 & H2).
  apply ret_Done in H2 as [-> ->].
  apply sys_Done in H1 as (_ & _ & _ & _ & _ & _ & Hr).
  destruct r as [e|[]]; cbn [err_of].
  - apply Hr.
  - destruct (fs (snd ts) !! a) as [n|]; inversion Hr. exists n. auto.
Qed.

Lemma fixes_refl {T : Type} name (ts : T * World) : fixes name ts ts.
Proof. split; reflexivity. Qed.

Lemma fixes_trans {T : Type} name (a b c : T * World) :
  fixes name a b -> fixes name b c -> fixes name a c.
Proof. intros [E1 F1] [E2 F2]. split; congruence. Qed.

Lemma fixes_Remove {T : Type} name p :
  p <> name -> keeps (fixes name) (lift (T:=T) (os_Remove p)).
Proof.
  intros Hp ts err ts' H. apply os_Remove_inv in H as [E Hfs].
  split; [exact E|]. destruct err; rewrite Hfs; [reflexivity|].
  apply lookup_delete_ne. exact Hp.
Qed.

Lemma fixes_Rename {T : Type} name a b :
  a <> name -> b <> name -> keeps (fixes name) (lift (T:=T) (os_Rename a b)).
Proof.
  intros Ha Hb ts err ts' H. apply os_Rename_fs in H as [E Hfs].
  split; [exact E|]. destruct err as [e|]; [rewrite Hfs; reflexivity|].
  destruct Hfs as (n & _ & ->).
  rewrite lookup_insert_ne by exact Hb. apply lookup_delete_ne. exact Ha.
Qed.

Lemma fixes_gets {T A : Type} name (f : World -> A) :
  keeps (fixes name) (lift (T:=T) (gets f)).
Proof.
  intros ts a ts' H. apply lift_Done in H as [E H]. unfold gets in H.
  injection H as _ Eσ. split; [exact E | rewrite <- Eσ; reflexivity].
Qed.

(** The loop over the backups leaves the active file alone. *)
Lemma rotating_shift_backups_fixes name indices :
  keeps (fixes name) (Rotating.shift_backups name indices).
Proof.
  induction indices as [|i rest IH]; cbn [Rotating.shift_backups].
  - apply keeps_ret, fixes_refl.
  - apply (keeps_bind _ (fixes_trans name)); [apply fixes_gets | intros es].
    apply (keeps_bind _ (fixes_trans name)).
    + destruct es; [|apply keeps_ret, fixes_refl].
      apply (keeps_bind _ (fixes_trans name)); [apply fixes_gets | intros ed].
      destruct ed; [|apply keeps_ret, fixes_refl].
      apply (keeps_bind _ (fixes_trans name)).
      * apply fixes_Remove, Sprintf_s_d_ne.
      * intros [e|]; [apply keeps_ret, fixes_refl|].
        apply fixes_Rename; apply Sprintf_s_d_ne.
    + intros [e|]; [apply keeps_ret, fixes_refl | exact IH].
Qed.

Lemma rotating_doRollover_unfold ts :
  Rotating.doRollover ts
  = (let! _ := Rotating.close in
     let! r := self in
     let! err := rotating_retire r in
     match err with
     | Some e => ret (Some e)
     | None => Rotating.open
     end) ts.
Proof. reflexivity. Qed.

(** After a successful retirement the path of the active file is vacant. *)
Lemma rotating_retire_vacates r ts ts' :
  0 < Rotating.backupCount r ->
  rotating_retire r ts = Done None ts' ->
  fs (snd ts') !! Rotating.filename r = None.
Proof.
  intros Hb. unfold rotating_retire.
  destruct (Z.ltb_spec 0 (Rotating.backupCount r)) as [_|]; [|lia].
  intros H. apply bind_Done in H as (e1 & ts1 & _ & H).
  destruct e1 as [e|]; [apply ret_Done in H as [? _]; discriminate|].
  apply bind_Done in H as (ed & ts2 & _ & H).
  apply bind_Done in H as (e2 & ts3 & _ & H).
  destruct e2 as [e|]; [apply ret_Done in H as [? _]; discriminate|].
  apply bind_Done in H as (ef & ts4 & Hef & H).
  apply lift_Done in Hef as [_ Hef]. unfold file_IsExist, gets in Hef.
  injection Hef as <- Eσ.
  destruct (bool_decide (is_Some (fs (snd ts3) !! Rotating.filename r))) eqn:B.
  - apply os_Rename_fs in H as [_ (n & _ & ->)].
    rewrite lookup_insert_ne by (apply append_ne_self; discriminate).
    apply lookup_delete_eq.
  - apply ret_Done in H as [_ ->]. rewrite <- Eσ.
    apply bool_decide_eq_false_1 in B.
    destruct (fs (snd ts3) !! Rotating.filename r) eqn:L; [|reflexivity].
    exfalso. apply B. eauto.
Qed.

Lemma rotating_retire_receiver r ts e ts' :
  rotating_retire r ts = Done e ts' -> fst ts' = fst ts.
Proof.
  unfold rotating_retire. destruct (0 <? Rotating.backupCount r).
  2:{ intros H. apply ret_Done in H as [_ ->]. reflexivity. }
  intros H. apply bind_Done in H as (e1 & ts1 & H1 & H).
  apply (rotating_shift_backups_fixes (Rotating.filename r)) in H1 as [E1 _].
  destruct e1 as [e1|]; [apply ret_Done in H as [_ ->]; exact E1|].
  apply bind_Done in H as (ed & ts2 & H2 & H).
  apply lift_Done in H2 as [E2 _].
  apply bind_Done in H as (e2 & ts3 & H3 & H).
  assert (E3 : fst ts3 = fst ts2).
  { destruct ed; [apply lift_Done in H3 as [E3 _]; exact E3|].
    apply ret_Done in H3 as [_ ->]. reflexivity. }
  destruct e2 as [e2|]; [apply ret_Done in H as [_ ->]; congruence|].
  apply bind_Done in H as (ef & ts4 & H4 & H).
  apply lift_Done in H4 as [E4 _].
  destruct ef; [apply lift_Done in H as [E5 _]; congruence|].
  apply ret_Done in H as [_ ->]. congruence.
Qed.

Ltac quiet_step :=
  match goal with
  | |- emits _ (lift (os_Remove _)) =>
      unfold os_Remove; apply emits_lift_bind, emits_lift_sys; intros ?; reflexivity
  | |- emits _ (lift (os_Rename _ _)) =>
      unfold os_Rename; apply emits_lift_bind, emits_lift_sys; intros ?; reflexivity
  | _ => emits_step
  end.

Lemma rotating_retire_writes_nothing r : emits not_a_write (rotating_retire r).
Proof.
  unfold rotating_retire. destruct (0 <? Rotating.backupCount r); [|apply emits_ret].
  apply emits_bind.
  - generalize (Range (wrap64 (Rotating.backupCount r - 1)) 0 (-1)).
    intros indices. induction indices as [|i rest IH]; cbn [Rotating.shift_backups].
    + apply emits_ret.
    + apply emits_bind; [repeat quiet_step | intros es].
      apply emits_bind; [repeat quiet_step | intros e0].
      destruct e0; [apply emits_ret | exact IH].
  - intros e0. repeat quiet_step.
Qed.

(** How a rotation of the size-based writer runs from an open handle: the
    handle is closed first, nothing is written, and on success the active
    file has been reopened, [nbytes] is its size, and, when backups are kept,
    it is a new empty file. *)
Lemma rotating_doRollover_inv r σ c e0 r1 σ1 :
  Rotating.w r = Some c -> wc_closed c = false ->
  Rotating.doRollover (r, σ) = Done e0 (r1, σ1) ->
  exists res d,
    trace σ1 = trace σ ++ (SysClose (f_name (wc_file c)), res) :: d
    /\ Forall not_a_write d
    /\ (e0 = None ->
        exists p content,
          fs σ1 !! Rotating.filename r = Some (RegFile p content)
          /\ r1 = Rotating.set_w
                    (Some (NewWriteCloser (mkFile (Rotating.filename r))))
                    (Rotating.set_nbytes (len content) r)
          /\ (0 < Rotating.backupCount r -> p = FILE_PERM /\ content = [])).
Proof.
  intros W C H. rewrite rotating_doRollover_unfold in H.
  apply bind_Done in H as (ec & [ra σa] & Hc & H).
  apply rotating_close_inv in Hc as (-> & Hfsa & _ & Htra).
  destruct Htra as [(_ & _ & Hcl) | (c' & W' & _ & Tra)].
  { rewrite (Hcl c W) in C. discriminate. }
  rewrite W in W'. injection W' as <-.
  apply bind_Done in H as (r0 & ts0 & Hs & H). apply self_Done in Hs as [-> ->].
  cbn [fst] in H.
  apply bind_Done in H as (e1 & [rb σb] & Hret & H).
  pose proof (rotating_retire_receiver _ _ _ _ Hret) as Erb. cbn [fst] in Erb.
  subst rb.
  destruct (rotating_retire_writes_nothing _ _ _ _ Hret) as (d1 & Trb & F1).
  cbn [snd] in Trb.
  destruct e1 as [e|].
  - apply ret_Done in H as [-> E]. injection E as -> ->.
    exists ec, d1. split; [rewrite Trb, Tra, <- app_assoc; reflexivity|].
    split; [exact F1 | discriminate].
  - apply rotating_open_inv in H as (Hop & Hres).
    cbn [Rotating.filename Rotating.set_w] in Hop, Hres.
    destruct e0 as [e|].
    + destruct Hres as (_ & [Tr | Tr]); exists ec; eexists;
        (split; [rewrite Tr, Trb, Tra, <- !app_assoc; reflexivity|]);
        (split; [|discriminate]);
        apply Forall_app; split; try exact F1; repeat constructor.
    + destruct Hres as (p & content & L & -> & Tr). exists ec. eexists.
      split; [rewrite Tr, Trb, Tra, <- !app_assoc; reflexivity|].
      split; [apply Forall_app; split; try exact F1; repeat constructor|].
      intros _. exists p, content. split; [exact L|].
      split; [destruct r; reflexivity|].
      intros Hb.
      pose proof (rotating_retire_vacates _ _ _ Hb Hret) as Hv.
      cbn [snd Rotating.filename Rotating.set_w] in Hv.
      destruct Hop as [Eq | [_ Eq]]; rewrite Eq in L.
      * congruence.
      * rewrite lookup_insert_eq in L. injection L as <- <-. auto.
Qed.

Lemma rotating_write_step c data r σ n err r' σ' :
  wc_closed c = false ->
  (let! res := lift (WriteCloser_Write c data) in
   match snd res with
   | Some e => ret res
   | None =>
       let! _ := update (Rotating.set_nbytes (wrap64 (Rotating.nbytes r + fst res))) in
       ret res
   end) (r, σ) = Done (n, err) (r', σ') ->
  write_and_count c data r σ n err r' σ'.
Proof.
  intros C H. apply bind_Done in H as ([n1 e1] & [r1 σ1] & Hw & H).
  unfold WriteCloser_Write in Hw. rewrite C in Hw.
  apply File_Write_inv in Hw as ((Er & _) & Tr & Hres).
  cbn [fst snd] in *. subst r1. unfold write_and_count.
  destruct e1 as [e|].
  - apply ret_Done in H as [E1 E2]. injection E1 as -> ->. injection E2 as -> ->.
    split; [exact Tr|]. destruct Hres as [-> Hfs]. auto.
  - apply bind_Done in H as (u & ts2 & Hu & H). apply update_Done in Hu.
    apply ret_Done in H as [E1 E2]. injection E1 as -> ->.
    rewrite Hu in E2. cbn [fst snd] in E2. injection E2 as -> ->.
    split; [exact Tr|]. destruct Hres as (-> & p & content & L & Hfs).
    split; [reflexivity|]. split; [reflexivity|]. exists p, content. auto.
Qed.

Lemma rotating_Write_inv data r σ c n err r' σ' :
  Rotating.w r = Some c -> wc_closed c = false ->
  Rotating.Write data (r, σ) = Done (n, err) (r', σ') ->
  if Rotating.maxSize r <? wrap64 (Rotating.nbytes r + len data) then
    exists e0 r1 σ1,
      Rotating.doRollover (r, σ) = Done e0 (r1, σ1)
      /\ match e0 with
         | Some e => n = 0 /\ err = Some e /\ r' = r1 /\ σ' = σ1
         | None =>
             exists c1, Rotating.w r1 = Some c1
               /\ (wc_closed c1 = false ->
                   write_and_count c1 data r1 σ1 n err r' σ')
         end
  else write_and_count c data r σ n err r' σ'.
Proof.
  intros W C H. unfold Rotating.Write in H.
  apply bind_Done in H as (r0 & ts0 & Hs & H). apply self_Done in Hs as [-> ->].
  cbn [fst] in H. rewrite W in H. unfold WriteCloser_Closed in H. rewrite C in H.
  destruct (Rotating.maxSize r <? wrap64 (Rotating.nbytes r + len data)).
  - apply bind_Done in H as (e0 & [r1 σ1] & Hr & H).
    exists e0, r1, σ1. split; [exact Hr|].
    destruct e0 as [e|].
    + apply ret_Done in H as [E1 E2]. injection E1 as -> ->.
      injection E2 as -> ->. auto.
    + apply bind_Done in H as (r1' & ts1 & Hs & H).
      apply self_Done in Hs as [-> ->]. cbn [fst] in H.
      destruct (Rotating.w r1) as [c1|]; [|discriminate].
      exists c1. split; [reflexivity|]. intros C1.
      apply rotating_write_step; assumption.
  - apply bind_Done in H as (e0 & ts1 & Hr & H). apply ret_Done in Hr as [-> ->].
    apply bind_Done in H as (r1' & ts1 & Hs & H).
    apply self_Done in Hs as [-> ->]. cbn [fst] in H. rewrite W in H.
    apply rotating_write_step; assumption.
Qed.

(** ** C1: a backup next to a vacant slot *)

(** In the loop of [doRollover], a backup whose next slot is vacant is left
    where it is: the rename sits inside the test that the next slot
    exists. *)
Lemma rotating_shift_backups_vacant name i rest r σ :
  is_Some (fs σ !! Sprintf_s_d name i) ->
  fs σ !! Sprintf_s_d name (wrap64 (i + 1)) = None ->
  Rotating.shift_backups name (i :: rest) (r, σ)
  = Rotating.shift_backups name rest (r, σ).
Proof.
  intros Hs Hd. cbn [Rotating.shift_backups].
  unfold bind at 1. unfold lift at 1, file_IsExist, gets. cbn [fst snd].
  rewrite (bool_decide_eq_true_2 _ Hs).
  unfold bind at 1. unfold bind at 1. unfold lift at 1, gets. cbn [fst snd].
  rewrite bool_decide_eq_false_2 by (rewrite Hd; intros [? ?]; discriminate).
  reflexivity.
Qed.

(** C1 does not hold of the code.  The writer keeps three
    backups; ["app.log.1"] exists and ["app.log.2"] does not.  The rotation
    does not rename ["app.log.1"] to ["app.log.2"]: it removes ["app.log.1"]
    and renames the active file onto it, so the older backup is lost and the
    slot 2 stays vacant. *)
Theorem C1_vacant_slot_not_filled :
  let files : gmap string node :=
    <["app.log" := RegFile 420 (Sample.bytes "new-data")]>
    (<["app.log.1" := RegFile 420 (Sample.bytes "old")]> ∅) in
  let run := Rotating.doRollover
               (Sample.rotating_writer 10 3 8,
                Sample.world files Sample.no_faults 0) in
  returned run = Some None
  /\ events_of run =
       [(SysClose "app.log", None);
        (SysRemove "app.log.1", None);
        (SysRename "app.log" "app.log.1", None);
        (SysOpenFile "app.log" 1089 420, None);
        (SysStat "app.log", None)]
  /\ file_of run "app.log.2" = None
  /\ file_of run "app.log.1" = Some (RegFile 420 (Sample.bytes "new-data"))
  /\ file_of run "app.log" = Some (RegFile 420 []).
Proof. vm_compute. repeat split; reflexivity. Qed.

(** ** C2: the backups kept after many rotations *)

(** C2 does not hold of the code.  A writer with
    [maxSize = 4] and [backupCount = 2] on an empty directory receives four
    chunks of four bytes: the second, third and fourth write rotate.  After
    these three rotations there is one backup, not two: ["app.log.1"] holds
    the third chunk, and the second chunk is gone instead of being in
    ["app.log.2"]. *)
Theorem C2_one_backup_after_three_rotations :
  let run := rotating_session "app.log" 4 2
               [Sample.bytes "aaaa"; Sample.bytes "bbbb";
                Sample.bytes "cccc"; Sample.bytes "dddd"]
               (Sample.world ∅ Sample.no_faults 0) in
  returned run = Some [(4, None); (4, None); (4, None); (4, None)]
  /\ filter (fun ev => is_rename ev = true) (events_of run) =
       [(SysRename "app.log" "app.log.1", None);
        (SysRename "app.log" "app.log.1", None);
        (SysRename "app.log" "app.log.1", None)]
  /\ file_of run "app.log" = Some (RegFile 420 (Sample.bytes "dddd"))
  /\ file_of run "app.log.1" = Some (RegFile 420 (Sample.bytes "cccc"))
  /\ file_of run "app.log.2" = None.
Proof. vm_compute. repeat split; reflexivity. Qed.

(** *** C1 and C2 in general: the ladder never grows beyond its first slot *)

Lemma Sprintf_s_d_inj name i j : Sprintf_s_d name i = Sprintf_s_d name j -> i = j.
Proof.
  unfold Sprintf_s_d. intros E. apply String.app_inj in E.
  injection E as E. exact (pretty_Z_inj i j E).
Qed.

Lemma Sprintf_s_d_1 name : Sprintf_s_d name 1 = (name +:+ ".1")%string.
Proof. reflexivity. Qed.

Lemma Range_down_bounds s x : In x (Range s 0 (-1)) -> 1 <= x <= s.
Proof.
  unfold Range. change (0 <? -1) with false. change (-1 <? 0) with true.
  cbn iota. intros H. apply in_map_iff in H as (i & <- & Hi).
  apply in_seq in Hi.
  replace ((s - 0 - -1 - 1) / - -1) with s in Hi
    by (change (- -1) with 1; rewrite Z.div_1_r; lia).
  lia.
Qed.

(** With a short ladder the loop of [doRollover] does nothing: the slot
    after each backup it looks at is vacant. *)
Lemma rotating_shift_backups_short name indices (ts : Rotating.Self) :
  short_ladder name (fs (snd ts)) ->
  (forall i, In i indices -> 1 <= i < 2 ^ 63 - 1) ->
  Rotating.shift_backups name indices ts = Done None ts.
Proof.
  intros Hs. induction indices as [|i rest IH]; intros Hi; [reflexivity|].
  assert (Hd : fs (snd ts) !! Sprintf_s_d name (wrap64 (i + 1)) = None).
  { pose proof (Hi i (or_introl eq_refl)) as B.
    rewrite wrap64_id by (unfold int64_range; lia). apply Hs. lia. }
  cbn [Rotating.shift_backups].
  unfold bind at 1. unfold lift at 1, file_IsExist, gets. cbn [fst snd].
  destruct (bool_decide (is_Some (fs (snd ts) !! Sprintf_s_d name i))).
  - unfold bind at 1. unfold bind at 1. unfold lift at 1, gets. cbn [fst snd].
    rewrite bool_decide_eq_false_2 by (rewrite Hd; intros [? ?]; discriminate).
    unfold ret at 1. destruct ts. apply IH. intros j Hj. apply Hi. right. exact Hj.
  - unfold bind at 1, ret at 1. destruct ts. apply IH.
    intros j Hj. apply Hi. right. exact Hj.
Qed.

Lemma short_ladder_opened name m m' :
  opened name m m' -> short_ladder name m -> short_ladder name m'.
Proof.
  intros Ho Hs i Hi. rewrite (opened_elsewhere _ _ _ _ Ho); [apply Hs; exact Hi|].
  apply Sprintf_s_d_ne.
Qed.

(** A rotation keeps the ladder short, whatever [backupCount] is. *)
Lemma rotating_doRollover_short r σ e r' σ' :
  int64_range (Rotating.backupCount r) ->
  short_ladder (Rotating.filename r) (fs σ) ->
  Rotating.doRollover (r, σ) = Done e (r', σ') ->
  short_ladder (Rotating.filename r) (fs σ').
Proof.
  intros Hb Hs H. rewrite rotating_doRollover_unfold in H.
  apply bind_Done in H as (ec & [ra σa] & Hc & H).
  apply rotating_close_inv in Hc as (-> & Hfsa & _ & _).
  apply bind_Done in H as (r0 & ts0 & Hself & H).
  apply self_Done in Hself as [-> ->]. cbn [fst] in H.
  apply bind_Done in H as (e1 & [rb σb] & Hret & H).
  assert (Hsb : short_ladder (Rotating.filename r) (fs σb)).
  { unfold rotating_retire in Hret.
    cbn [Rotating.backupCount Rotating.filename Rotating.set_w] in Hret.
    destruct (Z.ltb_spec 0 (Rotating.backupCount r)) as [Hpos|].
    2:{ apply ret_Done in Hret as [_ E]. injection E as _ ->.
        rewrite Hfsa. exact Hs. }
    apply bind_Done in Hret as (e2 & ts2 & Hsh & Hret).
    rewrite rotating_shift_backups_short in Hsh.
    2:{ cbn [snd]. rewrite Hfsa. exact Hs. }
    2:{ intros i Hi. rewrite wrap64_id in Hi by (unfold int64_range in *; lia).
        apply Range_down_bounds in Hi. unfold int64_range in Hb. lia. }
    injection Hsh as <- <-.
    apply bind_Done in Hret as (ed & ts3 & Hed & Hret).
    apply lift_Done in Hed as [_ Hed]. unfold file_IsExist, gets in Hed.
    injection Hed as _ E3. cbn [snd] in E3.
    apply bind_Done in Hret as (e3 & ts4 & Hrm & Hret).
    assert (Hs4 : short_ladder (Rotating.filename r) (fs (snd ts4))).
    { destruct ed.
      - apply os_Remove_inv in Hrm as [_ Hfs]. rewrite <- E3 in Hfs.
        destruct e3; rewrite Hfs, Hfsa; [exact Hs|].
        intros i Hi. apply lookup_delete_None. right. apply Hs. exact Hi.
      - apply ret_Done in Hrm as [_ ->]. rewrite <- E3, Hfsa. exact Hs. }
    destruct e3 as [e3|].
    { apply ret_Done in Hret as [_ E]. rewrite <- E in Hs4. exact Hs4. }
    apply bind_Done in Hret as (ef & ts5 & Hef & Hret).
    apply lift_Done in Hef as [_ Hef]. unfold file_IsExist, gets in Hef.
    injection Hef as _ E5.
    destruct ef.
    - apply os_Rename_fs in Hret as [_ Hfs]. rewrite <- E5 in Hfs.
      cbn [snd] in Hfs. destruct e1 as [e1|]; [rewrite Hfs; exact Hs4|].
      destruct Hfs as (n & _ & ->). intros i Hi.
      rewrite lookup_insert_ne.
      + apply lookup_delete_None. right. apply Hs4. exact Hi.
      + rewrite <- Sprintf_s_d_1. intros E. apply Sprintf_s_d_inj in E. lia.
    - apply ret_Done in Hret as [_ E]. rewrite E5, <- E in Hs4. exact Hs4. }
  destruct e1 as [e1|].
  - apply ret_Done in H as [_ E]. injection E as _ <-. exact Hsb.
  - apply rotating_open_inv in H as (Hop & _).
    pose proof (rotating_retire_receiver _ _ _ _ Hret) as Erb.
    cbn [fst] in Erb. subst rb.
    cbn [Rotating.filename Rotating.set_w] in Hop.
    eapply short_ladder_opened; eauto.
Qed.

Lemma rotating_doRollover_config r σ e r' σ' :
  Rotating.doRollover (r, σ) = Done e (r', σ') -> same_config r r'.
Proof.
  intros H. rewrite rotating_doRollover_unfold in H.
  apply bind_Done in H as (ec & [ra σa] & Hc & H).
  apply rotating_close_inv in Hc as (-> & _).
  apply bind_Done in H as (r0 & ts0 & Hself & H).
  apply self_Done in Hself as [-> ->]. cbn [fst] in H.
  apply bind_Done in H as (e1 & [rb σb] & Hret & H).
  pose proof (rotating_retire_receiver _ _ _ _ Hret) as Erb.
  cbn [fst] in Erb. subst rb.
  destruct e1 as [e1|].
  - apply ret_Done in H as [_ E]. injection E as -> _. repeat split.
  - apply rotating_open_inv in H as (_ & Hres). destruct e as [e|].
    + destruct Hres as (-> & _). repeat split.
    + destruct Hres as (p & c & _ & -> & _). repeat split.
Qed.

Lemma short_ladder_append name m k p c data :
  m !! k = Some (RegFile p c) ->
  short_ladder name m ->
  short_ladder name (<[k := RegFile p (c ++ data)]> m).
Proof.
  intros Hk Hs i Hi. rewrite lookup_insert_ne; [apply Hs; exact Hi|].
  intros ->. rewrite (Hs i Hi) in Hk. discriminate.
Qed.

Lemma write_and_count_short name c data r σ n err r' σ' :
  write_and_count c data r σ n err r' σ' ->
  short_ladder name (fs σ) ->
  short_ladder name (fs σ') /\ same_config r r'.
Proof.
  intros (_ & H) Hs. destruct err as [e|].
  - destruct H as (_ & -> & ->). split; [exact Hs | repeat split].
  - destruct H as (_ & -> & p & content & L & ->).
    split; [eapply short_ladder_append; eauto | repeat split].
Qed.

(** A write keeps the ladder short. *)
Lemma rotating_Write_short data r σ a r' σ' :
  int64_range (Rotating.backupCount r) ->
  short_ladder (Rotating.filename r) (fs σ) ->
  Rotating.Write data (r, σ) = Done a (r', σ') ->
  short_ladder (Rotating.filename r) (fs σ') /\ same_config r r'.
Proof.
  intros Hb Hs H. destruct a as [n err].
  destruct (Rotating.w r) as [c|] eqn:W.
  2:{ rewrite (rotating_Write_absent data r σ W) in H. injection H as _ _ <- <-.
      split; [exact Hs | repeat split]. }
  destruct (wc_closed c) eqn:C.
  { unfold Rotating.Write, bind, self, gets in H. cbn [fst] in H.
    rewrite W in H. unfold WriteCloser_Closed in H. rewrite C in H.
    unfold ret in H. injection H as _ _ <- <-.
    split; [exact Hs | repeat split]. }
  apply (rotating_Write_inv _ _ _ _ _ _ _ _ W C) in H.
  destruct (Rotating.maxSize r <? wrap64 (Rotating.nbytes r + len data)).
  - destruct H as (e0 & r1 & σ1 & Hr & H).
    pose proof (rotating_doRollover_short _ _ _ _ _ Hb Hs Hr) as Hs1.
    pose proof (rotating_doRollover_config _ _ _ _ _ Hr) as Hc1.
    destruct e0 as [e|].
    + destruct H as (_ & _ & -> & ->). auto.
    + destruct (rotating_doRollover_inv _ _ _ _ _ _ W C Hr)
        as (_ & _ & _ & _ & Hok).
      destruct (Hok eq_refl) as (p & content & _ & Er1 & _).
      destruct H as (c1 & W1 & H). rewrite Er1 in W1.
      cbn [Rotating.w Rotating.set_w] in W1. injection W1 as <-.
      specialize (H eq_refl).
      destruct (write_and_count_short _ _ _ _ _ _ _ _ _ H Hs1) as (Hs' & Hc').
      split; [exact Hs'|].
      destruct Hc1 as (? & ? & ?), Hc' as (? & ? & ?). repeat split; congruence.
  - eapply write_and_count_short; eauto.
Qed.

Lemma rotating_write_each_short chunks r σ a r' σ' :
  int64_range (Rotating.backupCount r) ->
  short_ladder (Rotating.filename r) (fs σ) ->
  write_each Rotating.Write chunks (r, σ) = Done a (r', σ') ->
  short_ladder (Rotating.filename r) (fs σ').
Proof.
  revert r σ a. induction chunks as [|data rest IH]; intros r σ a Hb Hs H.
  - apply ret_Done in H as [_ E]. injection E as _ <-. exact Hs.
  - cbn [write_each] in H. apply bind_Done in H as (x & [r1 σ1] & Hw & H).
    apply bind_Done in H as (xs & [r2 σ2] & Hrest & H).
    apply ret_Done in H as [_ E]. injection E as -> ->.
    destruct (rotating_Write_short _ _ _ _ _ _ Hb Hs Hw) as (Hs1 & Hf & _ & Hc).
    rewrite <- Hf. eapply IH; [| |exact Hrest].
    + rewrite Hc. exact Hb.
    + rewrite Hf. exact Hs1.
Qed.

(** C1 and C2 in general: whatever [maxSize], [backupCount] and the writes
    are, a size-based writer constructed in a directory that holds no backup
    numbered 2 or more (an empty directory, for one) never produces one:
    at most the first slot of the ladder is ever filled. *)
Lemma rotating_ladder_never_grows name size count chunks σ a r' σ' :
  int64_range count ->
  short_ladder name (fs σ) ->
  rotating_session name size count chunks σ = Done a (r', σ') ->
  short_ladder name (fs σ').
Proof.
  intros Hb Hs H. unfold rotating_session, Rotating.NewRotatingFile in H.
  destruct (Rotating.open (Rotating.mkRotating None name size count 0, σ))
    as [[e|] [r0 σ0]|] eqn:Ho; try discriminate.
  apply rotating_open_inv in Ho as (Hop & (p & c & _ & -> & _)).
  cbn [Rotating.filename] in Hop.
  apply (rotating_write_each_short chunks) in H; [exact H | exact Hb |].
  cbn [Rotating.filename Rotating.set_w Rotating.set_nbytes].
  eapply short_ladder_opened; eauto.
Qed.

(** ** C3: the permission of the files the writers open *)

Ltac not_an_open :=
  let r := fresh in let n := fresh in let f := fresh in
  let p := fresh in let E := fresh in
  intros r n f p E; cbn [fst] in E; first [discriminate E | congruence].

Ltac opens_step :=
  match goal with
  | |- emits _ (lift (os_Remove _)) =>
      unfold os_Remove; apply emits_lift_bind, emits_lift_sys; not_an_open
  | |- emits _ (lift (os_Rename _ _)) =>
      unfold os_Rename; apply emits_lift_bind, emits_lift_sys; not_an_open
  | |- emits _ (lift (File_Close _)) =>
      unfold File_Close; apply emits_lift_bind, emits_lift_sys; not_an_open
  | |- emits _ (lift (File_Write _ _)) =>
      unfold File_Write; apply emits_lift_bind, emits_lift_sys; not_an_open
  | |- emits _ (lift (file_ListDir _)) =>
      unfold file_ListDir; apply emits_lift_sys; not_an_open
  | |- emits _ (lift (File_Stat _)) =>
      unfold File_Stat; apply emits_lift_sys; not_an_open
  | |- emits _ (lift (os_OpenFile _ _ _)) =>
      unfold os_OpenFile; apply emits_lift_sys; not_an_open
  | |- emits _ (lift (WriteCloser_Write ?c _)) =>
      unfold WriteCloser_Write; destruct (wc_closed c)
  | |- emits _ (lift (ret _)) => apply (emits_lift_gets _ (fun _ => _))
  | _ => emits_step
  end.

Lemma timed_open_perm : emits (opens_with FILE_PERM) Timed.open.
Proof. unfold Timed.open. repeat opens_step. Qed.

Lemma timed_doRollover_perm : emits (opens_with FILE_PERM) Timed.doRollover.
Proof.
  unfold Timed.doRollover, Timed.Close.
  apply emits_bind; [repeat opens_step | intros e0].
  destruct e0; [apply emits_ret|].
  apply emits_bind; [apply emits_self | intros t].
  do 4 (apply emits_bind; [repeat opens_step | intros ?]).
  apply emits_bind; [repeat opens_step | intros e1].
  destruct e1; [apply emits_ret|].
  apply emits_bind.
  { destruct (0 <? Timed.backupCount t); [|apply emits_ret].
    apply emits_bind.
    - unfold Timed.getFilesToDelete.
      apply emits_bind; [apply emits_self | intros t0].
      destruct (filepath_Split (Timed.filename t0)). repeat opens_step.
    - intros files. induction files as [|f rest IH]; cbn [Timed.remove_each].
      + apply emits_ret.
      + apply emits_bind; [opens_step | intros _; exact IH]. }
  intros _. apply emits_bind; [apply timed_reComputeRollover_tolerated|].
  intros _. apply timed_open_perm.
Qed.

Lemma timed_Write_perm data : emits (opens_with FILE_PERM) (Timed.Write data).
Proof.
  unfold Timed.Write. apply emits_bind; [apply emits_self | intros t].
  destruct (Timed.w t); [|apply emits_ret].
  apply emits_bind; [apply timed_shouldRollover_tolerated | intros b].
  apply emits_bind.
  - destruct b; [apply timed_doRollover_perm | apply emits_ret].
  - intros e0. repeat opens_step.
Qed.

Lemma rotating_open_perm : emits (opens_with FILE_PERM) Rotating.open.
Proof. unfold Rotating.open. repeat opens_step. Qed.

Lemma rotating_close_perm : emits (opens_with FILE_PERM) Rotating.close.
Proof.
  unfold Rotating.close. apply emits_bind; [apply emits_self | intros r].
  destruct (Rotating.w r) as [c|]; [|apply emits_ret].
  apply emits_bind; [|intros res; repeat opens_step].
  unfold WriteCloser_Close. destruct (wc_closed c).
  - apply (emits_lift_gets _ (fun _ => _)).
  - unfold File_Close.
    apply (emits_lift_bind (T:=Rotating.RotatingFile) _
             (let! r0 := sys (SysClose (f_name (wc_file c))) (fun m => inr (tt, m)) in
              ret (err_of r0))
             (fun err => (err, mkWriteCloser true (wc_file c)))).
    apply emits_lift_bind, emits_lift_sys. not_an_open.
Qed.

Lemma rotating_shift_backups_perm name indices :
  emits (opens_with FILE_PERM) (Rotating.shift_backups name indices).
Proof.
  induction indices as [|i rest IH]; cbn [Rotating.shift_backups].
  - apply emits_ret.
  - apply emits_bind; [repeat opens_step | intros es].
    apply emits_bind; [repeat opens_step | intros e0].
    destruct e0; [apply emits_ret | exact IH].
Qed.

Lemma rotating_doRollover_perm : emits (opens_with FILE_PERM) Rotating.doRollover.
Proof.
  unfold Rotating.doRollover.
  apply emits_bind; [apply rotating_close_perm | intros _].
  apply emits_bind; [apply emits_self | intros r].
  apply emits_bind.
  - destruct (0 <? Rotating.backupCount r); [|apply emits_ret].
    apply emits_bind; [apply rotating_shift_backups_perm | intros e0].
    repeat opens_step.
  - intros e0. destruct e0; [apply emits_ret | apply rotating_open_perm].
Qed.

Lemma rotating_Write_perm data :
  emits (opens_with FILE_PERM) (Rotating.Write data).
Proof.
  unfold Rotating.Write. apply emits_bind; [apply emits_self | intros r].
  destruct (Rotating.w r) as [c|]; [|apply emits_ret].
  destruct (WriteCloser_Closed c); [apply emits_ret|].
  apply emits_bind.
  - destruct (Rotating.maxSize r <? wrap64 (Rotating.nbytes r + len data));
      [apply rotating_doRollover_perm | apply emits_ret].
  - intros e0. repeat opens_step.
Qed.

(** Whatever [filePerm] holds, every file either writer opens, when it is
    constructed or when it writes and rotates, is opened with [FILE_PERM]. *)
Lemma opens_ignore_filePerm :
  (forall data t σ a t' σ',
     Timed.Write data (t, σ) = Done a (t', σ') ->
     extends (opens_with FILE_PERM) σ σ')
  /\ (forall data r σ a r' σ',
        Rotating.Write data (r, σ) = Done a (r', σ') ->
        extends (opens_with FILE_PERM) σ σ')
  /\ (forall t σ a t' σ',
        Timed.open (t, σ) = Done a (t', σ') ->
        extends (opens_with FILE_PERM) σ σ')
  /\ (forall r σ a r' σ',
        Rotating.open (r, σ) = Done a (r', σ') ->
        extends (opens_with FILE_PERM) σ σ').
Proof.
  repeat split; intros.
  - exact (timed_Write_perm data (t, σ) a (t', σ') H).
  - exact (rotating_Write_perm data (r, σ) a (r', σ') H).
  - exact (timed_open_perm (t, σ) a (t', σ') H).
  - exact (rotating_open_perm (r, σ) a (r', σ') H).
Qed.

(** C3 does not hold of the code.  After
    [ResetDefaultFilePerm(0600)] the variable [filePerm] holds 0600 (384),
    but both writers still open and create their file with 0644 (420), at
    construction and when they reopen after a rotation: [open] passes the
    constant [FILE_PERM], and [filePerm] is never read. *)
Theorem C3_reset_perm_not_used :
  let σ0 := Sample.world ∅ Sample.no_faults 0 in
  let σp := set_filePerm 384 σ0 in
  let sized := rotating_session "app.log" 4 2
                 [Sample.bytes "aaaa"; Sample.bytes "bbbb"] σp in
  let timed := timed_session "/var/log/app.log" [Sample.bytes "x"]
                 (set_filePerm 384 (daily_world ∅)) in
  ResetDefaultFilePerm 384 σ0 = Done tt σp
  /\ filePerm σp = 384
  /\ events_of sized =
       [(SysOpenFile "app.log" 1089 420, None);
        (SysStat "app.log", None);
        (SysWrite "app.log" (Sample.bytes "aaaa"), None);
        (SysClose "app.log", None);
        (SysRename "app.log" "app.log.1", None);
        (SysOpenFile "app.log" 1089 420, None);
        (SysStat "app.log", None);
        (SysWrite "app.log" (Sample.bytes "bbbb"), None)]
  /\ file_of sized "app.log" = Some (RegFile 420 (Sample.bytes "bbbb"))
  /\ file_of sized "app.log.1" = Some (RegFile 420 (Sample.bytes "aaaa"))
  /\ events_of timed =
       [(SysOpenFile "/var/log/app.log" 1089 420, None);
        (SysClose "/var/log/app.log", None);
        (SysRename "/var/log/app.log" "/var/log/app.log.1970-01-01", None);
        (SysReadDir "/var/log/", None);
        (SysOpenFile "/var/log/app.log" 1089 420, None);
        (SysWrite "/var/log/app.log" (Sample.bytes "x"), None)]
  /\ file_of timed "/var/log/app.log" = Some (RegFile 420 (Sample.bytes "x")).
Proof. vm_compute. repeat split; reflexivity. Qed.

(** ** C4: which failures a write reports *)

(** C4 as stated fails: during a time-based rotation the
    failure of the directory listing is absorbed by [getFilesToDelete], and
    the failures of the removals are not looked at; in both runs [Write]
    returns no error although a call failed. *)
Lemma C4_swallowed_failures :
  (let r := Timed.Write (Sample.bytes "y")
              (Sample.timed_writer,
               Sample.world Sample.timed_files Sample.listing_fails 90000) in
   returned r = Some (1, None)
   /\ events_of r =
        [(SysClose "/var/log/app.log", None);
         (SysRename "/var/log/app.log" "/var/log/app.log.1970-01-01", None);
         (SysReadDir "/var/log/", Some Sample.EIO);
         (SysOpenFile "/var/log/app.log" 1089 420, None);
         (SysWrite "/var/log/app.log" (Sample.bytes "y"), None)])
  /\
  (let r := Timed.Write (Sample.bytes "y")
              (Sample.timed_writer,
               Sample.world Sample.timed_files Sample.removal_fails 90000) in
   returned r = Some (1, None)
   /\ events_of r =
        [(SysClose "/var/log/app.log", None);
         (SysRename "/var/log/app.log" "/var/log/app.log.1970-01-01", None);
         (SysReadDir "/var/log/", None);
         (SysRemove "/var/log/app.log.1969-12-30", Some Sample.EACCES);
         (SysRemove "/var/log/app.log.1969-12-31", Some Sample.EACCES);
         (SysOpenFile "/var/log/app.log" 1089 420, None);
         (SysWrite "/var/log/app.log" (Sample.bytes "y"), None)]).
Proof. vm_compute. repeat split; reflexivity. Qed.

(** A listing that failed gives [getFilesToDelete] nothing to delete. *)
Lemma timed_getFilesToDelete_failed_listing t σ files t' σ' pre dir e :
  Timed.getFilesToDelete (t, σ) = Done files (t', σ') ->
  trace σ' = pre ++ [(SysReadDir dir, Some e)] ->
  files = [].
Proof.
  unfold Timed.getFilesToDelete. intros H Hlast.
  apply bind_Done in H as (t0 & ts0 & H0 & H). apply self_Done in H0 as [-> ->].
  cbn [fst] in H.
  destruct (filepath_Split (Timed.filename t)) as [dirName baseName].
  apply bind_Done in H as (listing & [t1 σ1] & Hl & H).
  apply lift_Done in Hl as [_ Hl]. cbn [snd] in Hl.
  apply sys_Done in Hl as (Tr & _).
  destruct listing as [e1|fileNames].
  - apply ret_Done in H as [-> _]. reflexivity.
  - exfalso. cbn [err_of] in Tr.
    assert (Eσ : σ' = σ1).
    { destruct (len _ <=? Timed.backupCount t);
        [apply ret_Done in H as [_ E]; injection E as _ ->; reflexivity|].
      destruct (Timed.backupCount t <? 0);
        [destruct (_ && _); [|discriminate]|];
        apply ret_Done in H as [_ E]; injection E as _ ->; reflexivity. }
    subst σ'. rewrite Tr in Hlast. apply app_inj_tail in Hlast as [_ E].
    discriminate E.
Qed.

(** The one call of [getFilesToDelete] is the listing; when it fails there
    is nothing to delete. *)
Lemma timed_getFilesToDelete_listing t σ files t' σ' :
  Timed.getFilesToDelete (t, σ) = Done files (t', σ') ->
  exists dir res,
    trace σ' = trace σ ++ [(SysReadDir dir, res)]
    /\ (forall e, res = Some e -> files = []).
Proof.
  unfold Timed.getFilesToDelete. intros H.
  apply bind_Done in H as (t0 & ts0 & H0 & H). apply self_Done in H0 as [-> ->].
  cbn [fst] in H.
  destruct (filepath_Split (Timed.filename t)) as [dirName baseName].
  apply bind_Done in H as (listing & [t1 σ1] & Hl & H).
  apply lift_Done in Hl as [_ Hl]. cbn [snd] in Hl.
  apply sys_Done in Hl as (Tr & _).
  exists dirName, (err_of listing).
  destruct listing as [e1|fileNames]; cbn [err_of] in *.
  - apply ret_Done in H as [-> E]. injection E as _ ->.
    split; [exact Tr | reflexivity].
  - assert (Eσ : σ' = σ1).
    { destruct (len _ <=? Timed.backupCount t);
        [apply ret_Done in H as [_ E]; injection E as _ ->; reflexivity|].
      destruct (Timed.backupCount t <? 0);
        [destruct (_ && _); [|discriminate]|];
        apply ret_Done in H as [_ E]; injection E as _ ->; reflexivity. }
    subst σ'. split; [exact Tr | discriminate].
Qed.

Lemma timed_remove_each_no_listing files :
  emits not_a_listing (Timed.remove_each files).
Proof.
  induction files as [|f rest IH]; cbn [Timed.remove_each].
  - apply emits_ret.
  - apply emits_bind; [|intros _; exact IH].
    unfold os_Remove. apply emits_lift_bind, emits_lift_sys.
    intros r. reflexivity.
Qed.

(** The pruning makes no call, or lists the directory once and then only
    removes; after a failed listing it makes no further call. *)
Lemma timed_prune_listing t ts u ts' :
  timed_prune t ts = Done u ts' ->
  trace (snd ts') = trace (snd ts)
  \/ exists dir res d,
       trace (snd ts') = trace (snd ts) ++ (SysReadDir dir, res) :: d
       /\ Forall not_a_listing d
       /\ (forall e, res = Some e -> d = []).
Proof.
  unfold timed_prune. destruct (0 <? Timed.backupCount t).
  2:{ intros H. apply ret_Done in H as [_ ->]. left. reflexivity. }
  intros H. apply bind_Done in H as (files & [t1 σ1] & Hg & H).
  destruct ts as [t0 σ0].
  apply timed_getFilesToDelete_listing in Hg as (dir & res & Tr & Hres).
  right. exists dir, res.
  destruct res as [e|].
  - rewrite (Hres e eq_refl) in H. apply ret_Done in H as [_ ->].
    exists []. cbn [snd]. split; [exact Tr|]. split; [constructor | reflexivity].
  - apply timed_remove_each_no_listing in H as (d & Tr' & Hd).
    exists d. cbn [snd] in *. split.
    + rewrite Tr', Tr, <- app_assoc. reflexivity.
    + split; [exact Hd | discriminate].
Qed.

(** A list of events holds at most one listing at a place where the events
    around it are none. *)
Lemma listing_split_unique (l1 l2 l1' l2' : list event) (x y : event) :
  l1 ++ x :: l2 = l1' ++ y :: l2' ->
  is_listing (fst x) = true ->
  Forall not_a_listing l1' -> Forall not_a_listing l2' ->
  l1 = l1' /\ x = y /\ l2 = l2'.
Proof.
  intros E Hx H1 H2. revert l1 E.
  induction H1 as [|a l1' Ha H1 IH]; intros l1 E.
  - destruct l1 as [|b l1]; cbn in E.
    + injection E as -> ->. auto.
    + exfalso. injection E as -> E. subst l2'.
      apply Forall_app in H2 as [_ H2]. apply Forall_cons in H2 as [H2 _].
      unfold not_a_listing in H2. congruence.
  - destruct l1 as [|b l1]; cbn in E.
    + exfalso. injection E as -> _. unfold not_a_listing in Ha. congruence.
    + injection E as -> E. destruct (IH l1 E) as (-> & -> & ->). auto.
Qed.

Lemma no_listing_split (d pre post : list event) dir res :
  Forall not_a_listing d -> d <> pre ++ (SysReadDir dir, res) :: post.
Proof.
  intros Hd ->. apply Forall_app in Hd as [_ Hd].
  apply Forall_cons in Hd as [Hd _]. discriminate Hd.
Qed.

(** The calls of a time-based rotation: none of them is a listing, or the
    listing is made once, followed by removals, none after a failed listing,
    and then by the reopening, whose result is the result of the
    rotation. *)
Lemma timed_doRollover_listing t σ err t' σ' :
  Timed.doRollover (t, σ) = Done err (t', σ') ->
  exists d,
    trace σ' = trace σ ++ d
    /\ (Forall not_a_listing d
        \/ exists d1 dir res d2,
             d = d1 ++ (SysReadDir dir, res)
                    :: d2 ++ [(SysOpenFile (Timed.filename t) FILE_MODE FILE_PERM,
                               err)]
             /\ Forall not_a_listing d1 /\ Forall not_a_listing d2
             /\ (forall e, res = Some e -> d2 = [])).
Proof.
  unfold Timed.doRollover. intros H.
  apply bind_Done in H as (e0 & [t1 σ1] & HC & H).
  apply timed_Close_inv in HC as (f & W & Tr1 & _ & Et1).
  destruct e0 as [e|].
  { apply ret_Done in H as [-> E]. injection E as -> ->.
    eexists. split; [exact Tr1|]. left. repeat constructor. }
  apply bind_Done in H as (t1' & ts & Hs & H). apply self_Done in Hs as [-> ->].
  cbn [fst] in H.
  apply bind_Done in H as (tm & [t2 σ2] & Htm & H).
  apply (calm_lift_gets (T:=Timed.TimedRotatingFile)) in Htm as Cm2.
  apply lift_Done in Htm as [_ Htm]. unfold time_Unix, gets in Htm.
  injection Htm as _ Eσ2. cbn [snd] in Eσ2. subst σ2.
  destruct Cm2 as [Et2 _]. cbn [fst] in Et2. subst t2.
  set (dst := (Timed.filename t1 +:+ "." +:+ Format tm (time2fmt (Timed.when t1)))%string) in H.
  apply bind_Done in H as (ex & [t3 σ3] & Hex & H).
  apply (calm_lift_gets (T:=Timed.TimedRotatingFile)) in Hex as Cm3.
  apply lift_Done in Hex as [_ Hex]. unfold file_IsExist, gets in Hex.
  injection Hex as _ Eσ3. cbn [snd] in Eσ3. subst σ3.
  destruct Cm3 as [Et3 _]. cbn [fst] in Et3. subst t3.
  apply bind_Done in H as (u4 & [t4 σ4] & Hrm & H).
  assert (R4 : t4 = t1 /\ exists d4, trace σ4 = trace σ1 ++ d4
                                     /\ Forall not_a_listing d4).
  { destruct ex.
    - pose proof Hrm as Hrm'. apply os_Remove_inv in Hrm' as [E _].
      split; [exact E|].
      assert (Em : emits not_a_listing
                     (lift (T:=Timed.TimedRotatingFile) (os_Remove dst))).
      { unfold os_Remove. apply emits_lift_bind, emits_lift_sys.
        intros r. reflexivity. }
      exact (Em _ _ _ Hrm).
    - apply ret_Done in Hrm as [_ E]. injection E as -> ->.
      split; [reflexivity|]. exists []. split; [symmetry; apply app_nil_r|].
      constructor. }
  destruct R4 as (-> & d4 & Tr4 & Hd4).
  apply bind_Done in H as (isf & [t5 σ5] & Hisf & H).
  apply (calm_lift_gets (T:=Timed.TimedRotatingFile)) in Hisf as Cm5.
  apply lift_Done in Hisf as [_ Hisf]. unfold file_IsFile, gets in Hisf.
  injection Hisf as _ Eσ5. cbn [snd] in Eσ5. subst σ5.
  destruct Cm5 as [Et5 _]. cbn [fst] in Et5. subst t5.
  apply bind_Done in H as (e6 & [t6 σ6] & Hrn & H).
  assert (R6 : t6 = t1 /\ exists d6, trace σ6 = trace σ4 ++ d6
                                     /\ Forall not_a_listing d6).
  { destruct isf.
    - apply os_Rename_inv in Hrn as ((E & _) & Tr). cbn [fst snd] in *.
      split; [exact E|]. eexists. split; [exact Tr|]. repeat constructor.
    - apply ret_Done in Hrn as [_ E]. injection E as -> ->.
      split; [reflexivity|]. exists []. split; [symmetry; apply app_nil_r|].
      constructor. }
  destruct R6 as (-> & d6 & Tr6 & Hd6).
  assert (Hd1 : Forall not_a_listing ([(SysClose (f_name f), None)] ++ d4 ++ d6)).
  { apply Forall_app. split; [repeat constructor|].
    apply Forall_app. split; assumption. }
  assert (Tr16 : trace σ6 = trace σ ++ [(SysClose (f_name f), None)] ++ d4 ++ d6).
  { rewrite Tr6, Tr4, Tr1, <- !app_assoc. reflexivity. }
  destruct e6 as [e|].
  { apply ret_Done in H as [-> E]. injection E as -> ->.
    eexists. split; [exact Tr16|]. left. exact Hd1. }
  fold (timed_prune t1) in H.
  apply bind_Done in H as (u7 & [t7 σ7] & Hpr & H).
  pose proof (timed_prune_calm t1 _ _ _ Hpr) as (Et7 & _).
  cbn [fst] in Et7. subst t7.
  apply timed_prune_listing in Hpr. cbn [snd] in Hpr.
  apply bind_Done in H as (u8 & [t8 σ8] & Hre & H).
  apply timed_reComputeRollover_inv in Hre as (-> & ->).
  apply timed_open_inv in H as (Tr9 & _ & _).
  cbn [tick trace Timed.filename Timed.set_rotatorAt] in Tr9.
  assert (Ef : Timed.filename t1 = Timed.filename t) by (subst t1; reflexivity).
  rewrite Ef in Tr9.
  destruct Hpr as [Tr7 | (dir & res & d2 & Tr7 & Hd2 & Hres)].
  - eexists. split.
    + rewrite Tr9, Tr7, Tr16, <- !app_assoc. reflexivity.
    + left. rewrite !app_assoc. apply Forall_app. split.
      * rewrite <- !app_assoc. exact Hd1.
      * repeat constructor.
  - eexists. split.
    + rewrite Tr9, Tr7, Tr16, <- !app_assoc. reflexivity.
    + right. exists ([(SysClose (f_name f), None)] ++ d4 ++ d6), dir, res, d2.
      split; [rewrite <- !app_assoc; reflexivity|]. auto.
Qed.

(** After a failed listing a [Write] of the time-based writer goes on with
    the reopening. *)
Lemma timed_Write_failed_listing data t σ n err t' σ' pre dir e post :
  Timed.Write data (t, σ) = Done (n, err) (t', σ') ->
  trace σ' = trace σ ++ pre ++ (SysReadDir dir, Some e) :: post ->
  exists res,
    post = (SysOpenFile (Timed.filename t) FILE_MODE FILE_PERM, res)
           :: match res with
              | Some _ => []
              | None => [(SysWrite (Timed.filename t) data, err)]
              end
    /\ (forall e', res = Some e' -> n = 0 /\ err = Some e').
Proof.
  intros H Htr. destruct (Timed.w t) as [f|] eqn:W.
  2:{ rewrite (timed_Write_absent data t σ W) in H. injection H as _ _ _ <-.
      exfalso. rewrite <- (app_nil_r (trace σ)) in Htr at 1.
      apply app_inv_head in Htr. symmetry in Htr.
      exact (app_cons_not_nil _ _ _ (eq_sym Htr)). }
  apply (timed_Write_inv _ _ _ _ _ _ _ _ W) in H.
  destruct (Timed.rotatorAt t <=? clock σ (ticks σ)).
  2:{ apply File_Write_inv in H as (_ & Tr & _). cbn [snd tick trace] in Tr.
      exfalso. rewrite Tr in Htr. apply app_inv_head in Htr.
      revert Htr. apply no_listing_split. repeat constructor. }
  destruct H as (e0 & t1 & σ1 & Hr & H).
  pose proof (timed_doRollover_inv _ _ _ _ _ Hr) as (f' & _ & Hcases).
  apply timed_doRollover_listing in Hr as (d & Trd & Hd).
  cbn [tick trace] in Trd.
  destruct e0 as [e1|].
  - destruct H as (-> & -> & -> & ->). rewrite Trd in Htr.
    apply app_inv_head in Htr.
    destruct Hd as [Hd | (d1 & dir' & res & d2 & -> & Hd1 & Hd2 & Hres)].
    { exfalso. revert Htr. apply no_listing_split. exact Hd. }
    symmetry in Htr.
    apply listing_split_unique in Htr as (_ & Ex & ->);
      [| reflexivity | exact Hd1
       | apply Forall_app; split; [exact Hd2 | repeat constructor]].
    injection Ex as _ <-. rewrite (Hres e eq_refl).
    exists (Some e1). split; [reflexivity|]. intros e' E. injection E as <-. auto.
  - destruct H as (f1 & W1 & H).
    assert (Ef1 : f1 = mkFile (Timed.filename t)).
    { destruct Hcases as [(e1 & E & _) | [(e1 & ? & ? & E & _) | (d0 & _ & _ & _ & _ & Et)]];
        try discriminate E.
      cbv zeta in Et. rewrite Et in W1. cbn in W1. injection W1 as <-.
      reflexivity. }
    subst f1. apply File_Write_inv in H as (_ & Tr & _).
    cbn [snd f_name] in Tr. rewrite Tr, Trd, <- app_assoc in Htr.
    apply app_inv_head in Htr.
    destruct Hd as [Hd | (d1 & dir' & res & d2 & -> & Hd1 & Hd2 & Hres)].
    { exfalso. revert Htr. apply no_listing_split.
      apply Forall_app. split; [exact Hd | repeat constructor]. }
    rewrite <- app_assoc in Htr. cbn [app] in Htr. symmetry in Htr.
    apply listing_split_unique in Htr as (_ & Ex & ->);
      [| reflexivity | exact Hd1
       | rewrite <- app_assoc; apply Forall_app; split;
         [exact Hd2 | repeat constructor]].
    injection Ex as _ <-. rewrite (Hres e eq_refl).
    exists None. split; [reflexivity | discriminate].
Qed.

(** C4, amended: a failure of an open, stat, write or rename call, of a
    close in the time-based writer and of a remove in the size-based writer,
    made inside a [Write] (rotation included), is returned by that [Write] at
    once: it is the last call made and its error is the result.  A failed
    directory listing during the pruning of the time-based writer is not
    reported: [getFilesToDelete] then has nothing to delete and the rotation
    goes on.  That is the third and the fourth part: whenever a listing made
    inside a [Write] failed, the next call is the reopening of the file,
    nothing being removed in between; if the reopening fails its error is
    the result of the [Write] and no call follows, otherwise the data are
    written to the reopened file and the result of the [Write] is the result
    of that write.  The calls in [timed_ignored] and [rotating_ignored] are
    those about which the first two parts say nothing. *)
Theorem C4_failures_reported_unless_ignored :
  (forall data t σ n err t' σ',
     Timed.Write data (t, σ) = Done (n, err) (t', σ') ->
     exists d, trace σ' = trace σ ++ d /\ propagated timed_ignored d err)
  /\
  (forall data r σ n err r' σ',
     Rotating.Write data (r, σ) = Done (n, err) (r', σ') ->
     exists d, trace σ' = trace σ ++ d /\ propagated rotating_ignored d err)
  /\
  (forall t σ files t' σ' pre dir e,
     Timed.getFilesToDelete (t, σ) = Done files (t', σ') ->
     trace σ' = pre ++ [(SysReadDir dir, Some e)] ->
     files = [])
  /\
  (forall data t σ n err t' σ' pre dir e post,
     Timed.Write data (t, σ) = Done (n, err) (t', σ') ->
     trace σ' = trace σ ++ pre ++ (SysReadDir dir, Some e) :: post ->
     exists res,
       post = (SysOpenFile (Timed.filename t) FILE_MODE FILE_PERM, res)
              :: match res with
                 | Some _ => []
                 | None => [(SysWrite (Timed.filename t) data, err)]
                 end
       /\ (forall e', res = Some e' -> n = 0 /\ err = Some e')).
Proof.
  split; [|split; [|split]].
  - intros data t σ n err t' σ' H.
    destruct (timed_Write_propagates data _ _ _ H) as (d & E & S).
    exists d. split; [exact E | apply settled_propagated; exact S].
  - intros data r σ n err r' σ' H.
    destruct (rotating_Write_propagates data _ _ _ H) as (d & E & S).
    exists d. split; [exact E | apply settled_propagated; exact S].
  - exact timed_getFilesToDelete_failed_listing.
  - exact timed_Write_failed_listing.
Qed.

(** C4, an instance: a run for each writer in which the rename of the
    active file fails, a listing that fails, and a [Write] that rotates
    while the listing fails. *)
Lemma C4_failures_reported_witness :
  (let σ0 := Sample.world Sample.timed_files Sample.rename_fails 90000 in
   let σ1 := log_event (SysRename "/var/log/app.log"
                          "/var/log/app.log.1970-01-01", Some Sample.EACCES)
               (log_event (SysClose "/var/log/app.log", None) (tick σ0)) in
   Timed.Write (Sample.bytes "y") (Sample.timed_writer, σ0)
   = Done (0, Some Sample.EACCES) (Timed.set_w None Sample.timed_writer, σ1)
   /\ exists d, trace σ1 = trace σ0 ++ d
                /\ propagated timed_ignored d (Some Sample.EACCES))
  /\
  (let σ0 := Sample.world Sample.timed_files Sample.rename_fails 0 in
   let σ1 := log_event (SysRename "/var/log/app.log" "/var/log/app.log.1",
                        Some Sample.EACCES)
               (log_event (SysClose "/var/log/app.log", None) σ0) in
   let r0 := Rotating.mkRotating (Some (NewWriteCloser (mkFile Sample.log)))
               Sample.log 1 1 1 in
   Rotating.Write (Sample.bytes "y") (r0, σ0)
   = Done (0, Some Sample.EACCES) (Rotating.set_w None r0, σ1)
   /\ exists d, trace σ1 = trace σ0 ++ d
                /\ propagated rotating_ignored d (Some Sample.EACCES))
  /\
  (let σ0 := Sample.world Sample.timed_files Sample.listing_fails 0 in
   let σ1 := log_event (SysReadDir "/var/log/", Some Sample.EIO) σ0 in
   Timed.getFilesToDelete (Sample.timed_writer, σ0)
   = Done [] (Sample.timed_writer, σ1)
   /\ trace σ1 = [] ++ [(SysReadDir "/var/log/", Some Sample.EIO)]
   /\ @nil string = [])
  /\
  (let σ0 := Sample.world Sample.timed_files Sample.listing_fails 90000 in
   let pre := [(SysClose "/var/log/app.log", @None error);
               (SysRename "/var/log/app.log" "/var/log/app.log.1970-01-01",
                None)] in
   let post := [(SysOpenFile "/var/log/app.log" 1089 420, @None error);
                (SysWrite "/var/log/app.log" (Sample.bytes "y"), None)] in
   exists t' σ',
     Timed.Write (Sample.bytes "y") (Sample.timed_writer, σ0)
     = Done (1, None) (t', σ')
     /\ trace σ'
        = trace σ0 ++ pre ++ (SysReadDir "/var/log/", Some Sample.EIO) :: post
     /\ exists res,
          post = (SysOpenFile (Timed.filename Sample.timed_writer)
                    FILE_MODE FILE_PERM, res)
                 :: match res with
                    | Some _ => []
                    | None => [(SysWrite (Timed.filename Sample.timed_writer)
                                  (Sample.bytes "y"), None)]
                    end
          /\ (forall e', res = Some e' -> 1 = 0 /\ @None error = Some e')).
Proof.
  split; [|split; [|split]].
  - intros σ0 σ1.
    assert (H : Timed.Write (Sample.bytes "y") (Sample.timed_writer, σ0)
                = Done (0, Some Sample.EACCES)
                    (Timed.set_w None Sample.timed_writer, σ1))
      by (vm_compute; reflexivity).
    split; [exact H|].
    exact (proj1 C4_failures_reported_unless_ignored _ _ _ _ _ _ _ H).
  - intros σ0 σ1 r0.
    assert (H : Rotating.Write (Sample.bytes "y") (r0, σ0)
                = Done (0, Some Sample.EACCES) (Rotating.set_w None r0, σ1))
      by (vm_compute; reflexivity).
    split; [exact H|].
    exact (proj1 (proj2 C4_failures_reported_unless_ignored) _ _ _ _ _ _ _ H).
  - intros σ0 σ1.
    assert (H : Timed.getFilesToDelete (Sample.timed_writer, σ0)
                = Done [] (Sample.timed_writer, σ1))
      by (vm_compute; reflexivity).
    assert (Tr : trace σ1 = [] ++ [(SysReadDir "/var/log/", Some Sample.EIO)])
      by reflexivity.
    split; [exact H|]. split; [exact Tr|].
    exact (proj1 (proj2 (proj2 C4_failures_reported_unless_ignored))
             _ _ _ _ _ _ _ _ H Tr).
  - intros σ0 pre post.
    set (run := Timed.Write (Sample.bytes "y") (Sample.timed_writer, σ0)).
    assert (R : returned run = Some (1, None)
                /\ events_of run
                   = pre ++ (SysReadDir "/var/log/", Some Sample.EIO) :: post)
      by (vm_compute; split; reflexivity).
    destruct R as [R Ev]. unfold run in R, Ev.
    destruct (Timed.Write (Sample.bytes "y") (Sample.timed_writer, σ0))
      as [a [t' σ']|] eqn:E; [|discriminate R].
    cbn [returned] in R. injection R as ->. cbn [events_of snd] in Ev.
    assert (Tr : trace σ'
                 = trace σ0 ++ pre
                   ++ (SysReadDir "/var/log/", Some Sample.EIO) :: post)
      by exact Ev.
    exists t', σ'. split; [reflexivity|]. split; [exact Tr|].
    exact (proj2 (proj2 (proj2 C4_failures_reported_unless_ignored))
             _ _ _ _ _ _ _ _ _ _ _ E Tr).
Defined.

(** ** C5: a size-based rotation that keeps no backup *)

(** C5 as stated fails: with [backupCount = 0] the rotation
    does not retire the active file.  The file stays where it is with its
    content, nothing is renamed to ["app.log.1"], and the writer goes on
    appending to it (here past [maxSize = 10]). *)
Lemma C5_active_file_not_retired :
  let files : gmap string node :=
    <["app.log" := RegFile 420 (Sample.bytes "12345678")]> ∅ in
  let σ0 := Sample.world files Sample.no_faults 0 in
  let r0 := Sample.rotating_writer 10 0 8 in
  let rotation := Rotating.doRollover (r0, σ0) in
  let write := Rotating.Write (Sample.bytes "abcde") (r0, σ0) in
  (returned rotation = Some None
   /\ events_of rotation =
        [(SysClose "app.log", None);
         (SysOpenFile "app.log" 1089 420, None);
         (SysStat "app.log", None)]
   /\ file_of rotation "app.log" = Some (RegFile 420 (Sample.bytes "12345678"))
   /\ file_of rotation "app.log.1" = None)
  /\
  (returned write = Some (5, None)
   /\ file_of write "app.log" = Some (RegFile 420 (Sample.bytes "12345678abcde"))
   /\ file_of write "app.log.1" = None).
Proof. vm_compute. repeat split; reflexivity. Qed.

(** C5, amended: with [backupCount = 0] a rotation of the size-based writer
    does not retire the active file.  It closes the handle and reopens the
    file where it is: no file is removed or renamed, every file (the active
    file, ["target.1"] and any other) is still there with its content, only
    the active file can appear (if it was missing), and on success
    [nbytes] restarts from the size of the active file. *)
Theorem C5_no_backup_rotation_reopens_in_place :
  forall r σ err r' σ',
    Rotating.backupCount r = 0 ->
    Rotating.doRollover (r, σ) = Done err (r', σ') ->
    (forall name n, fs σ !! name = Some n -> fs σ' !! name = Some n)
    /\ (forall name, name <> Rotating.filename r -> fs σ' !! name = fs σ !! name)
    /\ (exists d, trace σ' = trace σ ++ d
                  /\ Forall (fun ev => moves_file (fst ev) = false) d)
    /\ (err = None ->
        exists p c,
          fs σ' !! Rotating.filename r = Some (RegFile p c)
          /\ Rotating.nbytes r' = len c
          /\ Rotating.w r' = Some (NewWriteCloser (mkFile (Rotating.filename r)))).
Proof.
  intros r σ err r' σ' Hb H. unfold Rotating.doRollover in H.
  apply bind_Done in H as (e0 & [r1 σ1] & Hc & H).
  apply rotating_close_inv in Hc as (-> & Hfs1 & _ & Htr1).
  apply bind_Done in H as (r1 & ts1 & Hs & H). apply self_Done in Hs as [-> ->].
  cbn [fst Rotating.set_w Rotating.backupCount] in H. rewrite Hb in H.
  change (0 <? 0) with false in H. cbn iota in H.
  apply bind_Done in H as (e1 & ts2 & Hr & H). apply ret_Done in Hr as [-> ->].
  apply rotating_open_inv in H as (Hop & Hres).
  cbn [Rotating.filename Rotating.set_w] in Hop, Hres. rewrite Hfs1 in Hop.
  split; [intros name n; apply (opened_keeps _ _ _ _ _ Hop)|].
  split; [intros name; apply (opened_elsewhere _ _ _ _ Hop)|].
  assert (Hd1 : exists d1, trace σ1 = trace σ ++ d1
                  /\ Forall (fun ev => moves_file (fst ev) = false) d1).
  { destruct Htr1 as [(Tr & _) | (c & _ & _ & Tr)].
    - exists []. split; [rewrite Tr; symmetry; apply app_nil_r | constructor].
    - eexists. split; [exact Tr | repeat constructor]. }
  destruct Hd1 as (d1 & Tr1 & F1). split.
  - destruct err as [e|].
    + destruct Hres as (_ & [Tr | Tr]); eexists;
        (split; [rewrite Tr, Tr1, <- app_assoc; reflexivity|]);
        apply Forall_app; split; try exact F1; repeat constructor.
    + destruct Hres as (p & c & _ & _ & Tr). eexists.
      split; [rewrite Tr, Tr1, <- app_assoc; reflexivity|].
      apply Forall_app; split; try exact F1; repeat constructor.
  - intros ->. destruct Hres as (p & c & L & -> & _). exists p, c.
    split; [exact L|]. split; reflexivity.
Qed.

(** C5, an instance: the rotation of the sample writer that keeps no
    backup. *)
Lemma C5_no_backup_rotation_witness :
  let files : gmap string node :=
    <["app.log" := RegFile 420 (Sample.bytes "12345678")]> ∅ in
  let σ0 := Sample.world files Sample.no_faults 0 in
  let r0 := Sample.rotating_writer 10 0 8 in
  exists err r' σ',
    Rotating.backupCount r0 = 0
    /\ Rotating.doRollover (r0, σ0) = Done err (r', σ')
    /\ (forall name n, fs σ0 !! name = Some n -> fs σ' !! name = Some n)
    /\ (forall name, name <> Rotating.filename r0 ->
                     fs σ' !! name = fs σ0 !! name)
    /\ (exists d, trace σ' = trace σ0 ++ d
                  /\ Forall (fun ev => moves_file (fst ev) = false) d)
    /\ (err = None ->
        exists p c,
          fs σ' !! Rotating.filename r0 = Some (RegFile p c)
          /\ Rotating.nbytes r' = len c
          /\ Rotating.w r' = Some (NewWriteCloser (mkFile (Rotating.filename r0)))).
Proof.
  intros files σ0 r0.
  assert (R : returned (Rotating.doRollover (r0, σ0)) = Some None)
    by (vm_compute; reflexivity).
  destruct (Rotating.doRollover (r0, σ0)) as [err [r' σ']|] eqn:E;
    [|discriminate R].
  exists err, r', σ'. split; [reflexivity|]. split; [reflexivity|].
  exact (C5_no_backup_rotation_reopens_in_place r0 σ0 err r' σ' eq_refl E).
Defined.

(** ** C6: the size-based writer rotates before a write that would exceed
    [maxSize] *)



(** ** C7: writes after a successful close *)

Lemma write_each_rejected {S : Type} (write : list byte -> ST S (Z * option error))
    (s : S) chunks :
  (forall data, write data s = Done (0, Some ErrFileNotOpen) s) ->
  write_each write chunks s
  = Done (map (fun _ => (0, Some ErrFileNotOpen)) chunks) s.
Proof.
  intros Hw. induction chunks as [|data rest IH]; simpl; [reflexivity|].
  unfold bind. rewrite Hw. fold (@write_each S). rewrite IH. reflexivity.
Qed.

(** C7: once [Close] has succeeded on a writer of either kind, every [Write]
    returns [ErrFileNotOpen] and zero bytes, in whatever world it is called,
    and leaves the world as it was (no call to the operating system, no
    change of the file system, no reading of the clock) and the writer as it
    was; so does every further [Write], however many follow. *)
Theorem C7_write_after_close :
  (forall t σ t' σ',
     Timed.Close (t, σ) = Done None (t', σ') ->
     forall chunks σ2,
       write_each Timed.Write chunks (t', σ2)
       = Done (map (fun _ => (0, Some ErrFileNotOpen)) chunks) (t', σ2))
  /\
  (forall r σ r' σ',
     Rotating.Close (r, σ) = Done None (r', σ') ->
     forall chunks σ2,
       write_each Rotating.Write chunks (r', σ2)
       = Done (map (fun _ => (0, Some ErrFileNotOpen)) chunks) (r', σ2)).
Proof.
  split.
  - intros t σ t' σ' H chunks σ2. apply write_each_rejected.
    intros data. apply timed_Write_absent.
    eapply timed_Close_ok_absent; eauto.
  - intros r σ r' σ' H chunks σ2. apply write_each_rejected.
    intros data. apply rotating_Write_absent.
    eapply rotating_close_absent; eauto.
Qed.

(** C7, an instance: both writers are closed with success, then written to
    three times. *)
Lemma C7_write_after_close_witness :
  (let σ0 := Sample.world Sample.timed_files Sample.no_faults 0 in
   let σ1 := log_event (SysClose "/var/log/app.log", None) σ0 in
   let t1 := Timed.set_w None Sample.timed_writer in
   let chunks := [Sample.bytes "a"; Sample.bytes "b"; Sample.bytes "c"] in
   Timed.Close (Sample.timed_writer, σ0) = Done None (t1, σ1)
   /\ write_each Timed.Write chunks (t1, σ1)
      = Done (map (fun _ => (0, Some ErrFileNotOpen)) chunks) (t1, σ1))
  /\
  (let σ0 := Sample.world Sample.timed_files Sample.no_faults 0 in
   let σ1 := log_event (SysClose "/var/log/app.log", None) σ0 in
   let r0 := Rotating.mkRotating (Some (NewWriteCloser (mkFile Sample.log)))
               Sample.log 10 2 1 in
   let r1 := Rotating.set_w None r0 in
   let chunks := [Sample.bytes "a"; Sample.bytes "b"; Sample.bytes "c"] in
   Rotating.Close (r0, σ0) = Done None (r1, σ1)
   /\ write_each Rotating.Write chunks (r1, σ1)
      = Done (map (fun _ => (0, Some ErrFileNotOpen)) chunks) (r1, σ1)).
Proof.
  split.
  - intros σ0 σ1 t1 chunks.
    assert (H : Timed.Close (Sample.timed_writer, σ0) = Done None (t1, σ1))
      by (vm_compute; reflexivity).
    split; [exact H|].
    exact (proj1 C7_write_after_close _ _ _ _ H chunks σ1).
  - intros σ0 σ1 r0 r1 chunks.
    assert (H : Rotating.Close (r0, σ0) = Done None (r1, σ1))
      by (vm_compute; reflexivity).
    split; [exact H|].
    exact (proj2 C7_write_after_close _ _ _ _ H chunks σ1).
Defined.

(** ** C8: [WriteString] and [Write] *)

(** The time-based [WriteString] is [Write] on the bytes of the string. *)
Lemma timed_WriteString_is_Write (s : string) (ts : Timed.Self) :
  Timed.WriteString s ts = Timed.Write (list_byte_of_string s) ts.
Proof. reflexivity. Qed.

(** C8 does not hold of the code for the size-based writer,
    whose [WriteString] calls the handle's [Write] and not the writer's.
    With [maxSize = 10] and eight bytes in the file, [Write] of five bytes
    rotates first and counts the bytes; [WriteString] of the same bytes does
    not rotate, lets the file grow to thirteen bytes and leaves [nbytes] at
    eight.  After [Close], [Write] returns [ErrFileNotOpen] and [WriteString]
    panics. *)
Theorem C8_WriteString_bypasses_Write :
  let files : gmap string node :=
    <["app.log" := RegFile 420 (Sample.bytes "12345678")]> ∅ in
  let σ0 := Sample.world files Sample.no_faults 0 in
  let r0 := Sample.rotating_writer 10 2 8 in
  let by_Write := Rotating.Write (list_byte_of_string "abcde") (r0, σ0) in
  let by_WriteString := Rotating.WriteString "abcde" (r0, σ0) in
  (returned by_Write = Some (5, None)
   /\ events_of by_Write =
        [(SysClose "app.log", None);
         (SysRename "app.log" "app.log.1", None);
         (SysOpenFile "app.log" 1089 420, None);
         (SysStat "app.log", None);
         (SysWrite "app.log" (Sample.bytes "abcde"), None)]
   /\ file_of by_Write "app.log" = Some (RegFile 420 (Sample.bytes "abcde"))
   /\ file_of by_Write "app.log.1" = Some (RegFile 420 (Sample.bytes "12345678"))
   /\ Rotating.nbytes <$> receiver_of by_Write = Some 5)
  /\
  (returned by_WriteString = Some (5, None)
   /\ events_of by_WriteString =
        [(SysWrite "app.log" (Sample.bytes "abcde"), None)]
   /\ file_of by_WriteString "app.log"
      = Some (RegFile 420 (Sample.bytes "12345678abcde"))
   /\ file_of by_WriteString "app.log.1" = None
   /\ Rotating.nbytes <$> receiver_of by_WriteString = Some 8)
  /\
  (Rotating.Write (list_byte_of_string "abcde") (Rotating.set_w None r0, σ0)
   = Done (0, Some ErrFileNotOpen) (Rotating.set_w None r0, σ0)
   /\ Rotating.WriteString "abcde" (Rotating.set_w None r0, σ0) = Panic).
Proof. vm_compute. repeat split; reflexivity. Qed.

(** ** C9: the deadline after a rotation *)




(** ** C10: closing a time-based writer that has no handle *)

Lemma timed_Close_absent t σ : Timed.w t = None -> Timed.Close (t, σ) = Panic.
Proof.
  intros W. unfold Timed.Close, bind, self, gets. cbn [fst]. rewrite W.
  reflexivity.
Qed.

Lemma last_event_differs (l1 l2 : list event) (x y : event) :
  l1 ++ [x] = l2 ++ [y] -> fst x <> fst y -> False.
Proof. intros E Hne. apply app_inj_tail in E as [_ ->]. apply Hne. reflexivity. Qed.

Lemma timed_failed_reopen_absent data t σ n e t' σ' pre name flag perm :
  Timed.Write data (t, σ) = Done (n, Some e) (t', σ') ->
  trace σ' = pre ++ [(SysOpenFile name flag perm, Some e)] ->
  Timed.w t' = None.
Proof.
  intros H Hlast. destruct (Timed.w t) as [f|] eqn:W.
  2:{ rewrite (timed_Write_absent data t σ W) in H. inversion H; subst. exact W. }
  apply (timed_Write_inv _ _ _ _ _ _ _ _ W) in H.
  destruct (Timed.rotatorAt t <=? clock σ (ticks σ)).
  - destruct H as (e0 & t1 & σ1 & Hr & H).
    apply timed_doRollover_inv in Hr as (f' & _ & Hcases).
    cbn [ticks clock zone tick trace] in Hcases.
    destruct Hcases as [(e1 & -> & -> & Tr & _)
                       | [(e1 & d & dst & -> & -> & Tr & _)
                         | (d & Tr & _ & _ & _ & Et)]].
    + destruct H as (_ & _ & _ & ->). exfalso. rewrite Tr in Hlast.
      eapply last_event_differs; [exact Hlast | discriminate].
    + destruct H as (_ & _ & _ & ->). exfalso.
      rewrite Tr, app_assoc in Hlast.
      eapply last_event_differs; [exact Hlast | discriminate].
    + destruct e0 as [e1|].
      * destruct H as (_ & _ & -> & _). cbv zeta in Et. rewrite Et. reflexivity.
      * destruct H as (f1 & _ & H). apply File_Write_inv in H as (_ & Tr' & _).
        cbn [snd] in Tr'. exfalso. rewrite Tr' in Hlast.
        eapply last_event_differs; [exact Hlast | discriminate].
  - apply File_Write_inv in H as (_ & Tr' & _). cbn [snd] in Tr'. exfalso.
    rewrite Tr' in Hlast.
    eapply last_event_differs; [exact Hlast | discriminate].
Qed.

(** C10: [Close] on a time-based writer whose handle is absent panics (it
    returns no error value): whenever the handle is absent; hence on a second
    [Close] after a successful one; and on a [Close] after a [Write] whose
    rotation ended with the reopening of the file failing. *)
Theorem C10_close_without_handle_panics :
  (forall t σ, Timed.w t = None -> Timed.Close (t, σ) = Panic)
  /\ (forall t σ t' σ',
        Timed.Close (t, σ) = Done None (t', σ') ->
        forall σ2, Timed.Close (t', σ2) = Panic)
  /\ (forall data t σ n e t' σ' pre name flag perm,
        Timed.Write data (t, σ) = Done (n, Some e) (t', σ') ->
        trace σ' = pre ++ [(SysOpenFile name flag perm, Some e)] ->
        forall σ2, Timed.Close (t', σ2) = Panic).
Proof.
  split; [exact timed_Close_absent|]. split.
  - intros t σ t' σ' H σ2. apply timed_Close_absent.
    eapply timed_Close_ok_absent; eauto.
  - intros data t σ n e t' σ' pre name flag perm H Hlast σ2.
    apply timed_Close_absent. eapply timed_failed_reopen_absent; eauto.
Qed.

(** C10, an instance of each situation on the sample writer: no handle; a
    second close; a close after a write whose rotation could not reopen the
    file. *)
Lemma C10_close_without_handle_witness :
  let σ0 := Sample.world Sample.timed_files Sample.no_faults 90000 in
  let σf := Sample.world Sample.timed_files Sample.open_fails 90000 in
  (Timed.w (Timed.set_w None Sample.timed_writer) = None
   /\ Timed.Close (Timed.set_w None Sample.timed_writer, σ0) = Panic)
  /\ (let t1 := Timed.set_w None Sample.timed_writer in
      let σ1 := log_event (SysClose "/var/log/app.log", None) σ0 in
      Timed.Close (Sample.timed_writer, σ0) = Done None (t1, σ1)
      /\ Timed.Close (t1, σ1) = Panic)
  /\ (exists n e t' σ' pre,
        Timed.Write (Sample.bytes "y") (Sample.timed_writer, σf)
        = Done (n, Some e) (t', σ')
        /\ trace σ' = pre ++ [(SysOpenFile "/var/log/app.log" 1089 420, Some e)]
        /\ Timed.Close (t', σ') = Panic).
Proof.
  intros σ0 σf. split; [|split].
  - split; [reflexivity|].
    exact (proj1 C10_close_without_handle_panics
             (Timed.set_w None Sample.timed_writer) σ0 eq_refl).
  - intros t1 σ1.
    assert (H : Timed.Close (Sample.timed_writer, σ0) = Done None (t1, σ1))
      by (vm_compute; reflexivity).
    split; [exact H|].
    exact (proj1 (proj2 C10_close_without_handle_panics) _ _ _ _ H σ1).
  - assert (R : returned (Timed.Write (Sample.bytes "y") (Sample.timed_writer, σf))
                = Some (0, Some Sample.EACCES)) by (vm_compute; reflexivity).
    assert (Tr : events_of (Timed.Write (Sample.bytes "y") (Sample.timed_writer, σf))
                 = [(SysClose "/var/log/app.log", None);
                    (SysRename "/var/log/app.log" "/var/log/app.log.1970-01-01", None);
                    (SysReadDir "/var/log/", None);
                    (SysRemove "/var/log/app.log.1969-12-30", None);
                    (SysRemove "/var/log/app.log.1969-12-31", None)]
                   ++ [(SysOpenFile "/var/log/app.log" 1089 420, Some Sample.EACCES)])
      by (vm_compute; reflexivity).
    destruct (Timed.Write (Sample.bytes "y") (Sample.timed_writer, σf))
      as [[n err] [t' σ']|] eqn:E; [|discriminate R].
    cbn [returned events_of snd] in R, Tr. injection R as -> ->.
    exists 0, Sample.EACCES, t', σ'. eexists.
    split; [reflexivity|]. split; [exact Tr|].
    exact (proj2 (proj2 C10_close_without_handle_panics) _ _ _ _ _ _ _ _ _ _ _
             E Tr σ').
Defined.

(** * Further properties *)

(** ** The size-based writer *)

Lemma sys_returns {A : Type} c run σ :
  exists (r : error + A) σ', sys c run σ = Done r σ'.
Proof.
  unfold sys. destruct (faults σ (List.length (trace σ)) c) as [e|].
  - eauto.
  - destruct (run (fs σ)) as [e|[a m]]; eauto.
Qed.

(** The three stages of a size-based rotation. *)
Lemma rotating_doRollover_stages r σ e0 r1 σ1 :
  Rotating.doRollover (r, σ) = Done e0 (r1, σ1) ->
  exists ec σa eb σb,
    Rotating.close (r, σ) = Done ec (Rotating.set_w None r, σa)
    /\ rotating_retire (Rotating.set_w None r) (Rotating.set_w None r, σa)
       = Done eb (Rotating.set_w None r, σb)
    /\ match eb with
       | Some e => e0 = Some e /\ r1 = Rotating.set_w None r /\ σ1 = σb
       | None => Rotating.open (Rotating.set_w None r, σb) = Done e0 (r1, σ1)
       end.
Proof.
  intros H. rewrite rotating_doRollover_unfold in H.
  apply bind_Done in H as (ec & [ra σa] & Hc & H).
  pose proof (rotating_close_inv _ _ _ _ _ Hc) as (Era & _). subst ra.
  apply bind_Done in H as (r0 & ts0 & Hs & H). apply self_Done in Hs as [-> ->].
  cbn [fst] in H.
  apply bind_Done in H as (eb & [rb σb] & Hret & H).
  pose proof (rotating_retire_receiver _ _ _ _ Hret) as Erb. cbn [fst] in Erb.
  subst rb. exists ec, σa, eb, σb. split; [exact Hc|]. split; [exact Hret|].
  destruct eb as [e|]; [|exact H].
  apply ret_Done in H as [-> E]. injection E as -> ->. auto.
Qed.

(** Without backups to keep the retirement does nothing. *)
Lemma rotating_retire_skipped r ts :
  Rotating.backupCount r <= 0 -> rotating_retire r ts = Done None ts.
Proof.
  intros Hb. unfold rotating_retire.
  destruct (Z.ltb_spec 0 (Rotating.backupCount r)); [lia | reflexivity].
Qed.

(** A successful retirement puts what was the active file in the first
    slot. *)
Lemma rotating_retire_moves r ts ts' n :
  0 < Rotating.backupCount r ->
  rotating_retire r ts = Done None ts' ->
  fs (snd ts) !! Rotating.filename r = Some n ->
  fs (snd ts') !! (Rotating.filename r +:+ ".1")%string = Some n.
Proof.
  intros Hb H Hn. unfold rotating_retire in H.
  destruct (Z.ltb_spec 0 (Rotating.backupCount r)) as [_|]; [|lia].
  apply bind_Done in H as (e1 & ts1 & Hsh & H).
  apply (rotating_shift_backups_fixes (Rotating.filename r)) in Hsh as [_ F1].
  destruct e1 as [e|]; [apply ret_Done in H as [? _]; discriminate|].
  apply bind_Done in H as (ed & ts2 & Hed & H).
  apply (fixes_gets (Rotating.filename r)) in Hed as [_ F2].
  apply bind_Done in H as (e2 & ts3 & Hrm & H).
  assert (F3 : fs (snd ts3) !! Rotating.filename r = fs (snd ts2) !! Rotating.filename r).
  { destruct ed.
    - apply (fixes_Remove (Rotating.filename r)) in Hrm as [_ F]; [exact F|].
      apply append_ne_self. discriminate.
    - apply ret_Done in Hrm as [_ ->]. reflexivity. }
  destruct e2 as [e|]; [apply ret_Done in H as [? _]; discriminate|].
  apply bind_Done in H as (ef & ts4 & Hef & H).
  apply lift_Done in Hef as [_ Hef]. unfold file_IsExist, gets in Hef.
  injection Hef as Eef Eσ.
  assert (L3 : fs (snd ts3) !! Rotating.filename r = Some n) by congruence.
  rewrite L3 in Eef. rewrite bool_decide_eq_true_2 in Eef by eauto. subst ef.
  apply os_Rename_fs in H as [_ (n' & Ln' & ->)].
  rewrite <- Eσ in Ln'. rewrite L3 in Ln'. injection Ln' as <-.
  apply lookup_insert_eq.
Qed.

(** A rotation from a writer that tracks its file, when it succeeds. *)
Lemma rotating_doRollover_reopened r σ p c r1 σ1 :
  Rotating.w r = Some (NewWriteCloser (mkFile (Rotating.filename r))) ->
  fs σ !! Rotating.filename r = Some (RegFile p c) ->
  Rotating.doRollover (r, σ) = Done None (r1, σ1) ->
  exists p1 c1,
    fs σ1 !! Rotating.filename r = Some (RegFile p1 c1)
    /\ r1 = Rotating.set_nbytes (len c1) r
    /\ (0 < Rotating.backupCount r ->
        p1 = FILE_PERM /\ c1 = []
        /\ fs σ1 !! (Rotating.filename r +:+ ".1")%string = Some (RegFile p c))
    /\ (Rotating.backupCount r <= 0 -> fs σ1 = fs σ).
Proof.
  intros W L H.
  apply rotating_doRollover_stages in H as (ec & σa & eb & σb & Hc & Hret & H).
  apply rotating_close_inv in Hc as (_ & Hfsa & _ & _).
  destruct eb as [e|]; [destruct H as (? & _); discriminate|].
  apply rotating_open_inv in H as (Hop & (p1 & c1 & L1 & -> & _)).
  cbn [Rotating.filename Rotating.set_w] in Hop, L1.
  exists p1, c1. split; [exact L1|]. split.
  { destruct r. cbn in W. subst. reflexivity. }
  split.
  - intros Hb.
    pose proof (rotating_retire_vacates _ _ _ Hb Hret) as Hv.
    pose proof (rotating_retire_moves _ _ _ (RegFile p c) Hb Hret) as Hm.
    cbn [snd Rotating.filename Rotating.set_w] in Hv, Hm.
    rewrite Hfsa in Hm. specialize (Hm L).
    destruct Hop as [Eq | [_ Eq]].
    + rewrite Eq in L1. congruence.
    + rewrite Eq in L1. rewrite lookup_insert_eq in L1. injection L1 as <- <-.
      split; [reflexivity|]. split; [reflexivity|].
      rewrite Eq, lookup_insert_ne; [exact Hm|].
      intros E. symmetry in E. revert E. apply append_ne_self. discriminate.
  - intros Hb. rewrite rotating_retire_skipped in Hret by exact Hb.
    injection Hret as <-. rewrite <- Hfsa.
    destruct Hop as [Eq | [Hn _]]; [exact Eq|].
    rewrite Hfsa in Hn. congruence.
Qed.

Lemma len_app {A : Type} (l1 l2 : list A) : len (l1 ++ l2) = len l1 + len l2.
Proof. unfold len. rewrite length_app. lia. Qed.

Lemma len_nonneg {A : Type} (l : list A) : 0 <= len l.
Proof. unfold len. lia. Qed.

(** A successful [Write] from a writer that tracks its file: either the
    payload fits and is appended, or the rotation runs and the payload goes
    to the reopened file. *)
Lemma rotating_Write_success data r σ p c n r' σ' :
  Rotating.w r = Some (NewWriteCloser (mkFile (Rotating.filename r))) ->
  fs σ !! Rotating.filename r = Some (RegFile p c) ->
  Rotating.nbytes r = len c ->
  int64_range (len c + len data) ->
  Rotating.Write data (r, σ) = Done (n, None) (r', σ') ->
  n = len data
  /\ ((len c + len data <= Rotating.maxSize r
       /\ fs σ' = <[Rotating.filename r := RegFile p (c ++ data)]> (fs σ)
       /\ r' = Rotating.set_nbytes (len c + len data) r
       /\ trace σ' = trace σ ++ [(SysWrite (Rotating.filename r) data, None)])
      \/ (Rotating.maxSize r < len c + len data
          /\ exists σ1 p1 c1,
               Rotating.doRollover (r, σ) = Done None (Rotating.set_nbytes (len c1) r, σ1)
               /\ fs σ1 !! Rotating.filename r = Some (RegFile p1 c1)
               /\ (0 < Rotating.backupCount r ->
                   p1 = FILE_PERM /\ c1 = []
                   /\ fs σ1 !! (Rotating.filename r +:+ ".1")%string
                      = Some (RegFile p c))
               /\ (Rotating.backupCount r <= 0 -> fs σ1 = fs σ)
               /\ fs σ' = <[Rotating.filename r := RegFile p1 (c1 ++ data)]> (fs σ1)
               /\ r' = Rotating.set_nbytes (len c1 + len data) r)).
Proof.
  intros W L Hn Hrange H.
  apply (rotating_Write_inv _ _ _ _ _ _ _ _ W eq_refl) in H.
  rewrite Hn, (wrap64_id _ Hrange) in H.
  destruct (Z.ltb_spec (Rotating.maxSize r) (len c + len data)) as [Hlt | Hle].
  - destruct H as (e0 & r1 & σ1 & Hr & H).
    destruct e0 as [e|]; [destruct H as (_ & ? & _); discriminate|].
    destruct (rotating_doRollover_reopened _ _ _ _ _ _ W L Hr)
      as (p1 & c1 & L1 & -> & Hpos & Hzero).
    destruct H as (c' & W' & H). cbn [Rotating.w Rotating.set_nbytes] in W'.
    rewrite W in W'. injection W' as <-. specialize (H eq_refl).
    destruct H as (_ & -> & -> & p2 & c2 & L2 & ->).
    cbn [f_name wc_file NewWriteCloser Rotating.filename Rotating.set_nbytes] in *.
    rewrite L1 in L2. injection L2 as <- <-.
    split; [reflexivity|]. right. split; [exact Hlt|].
    exists σ1, p1, c1. repeat (split; [assumption|]). split; [reflexivity|].
    cbn [Rotating.nbytes Rotating.set_nbytes].
    assert (R : int64_range (len c1 + len data)).
    { pose proof (len_nonneg c) as ?. pose proof (len_nonneg c1) as ?.
      pose proof (len_nonneg data) as ?.
      destruct (Z.ltb_spec 0 (Rotating.backupCount r)) as [Hb|Hb].
      - destruct (Hpos Hb) as (_ & -> & _). unfold int64_range in *.
        change (len (@nil byte)) with 0. lia.
      - rewrite (Hzero Hb) in L1. rewrite L in L1. injection L1 as _ <-.
        exact Hrange. }
    rewrite (wrap64_id _ R). destruct r; reflexivity.
  - destruct H as (Tr & -> & -> & p2 & c2 & L2 & ->).
    cbn [f_name wc_file NewWriteCloser] in *.
    rewrite L in L2. injection L2 as <- <-.
    split; [reflexivity|]. left. split; [exact Hle|]. split; [reflexivity|].
    rewrite Hn, (wrap64_id _ Hrange). split; [reflexivity | exact Tr].
Qed.

(** X1: [Close] of the size-based writer never panics and always drops the
    handle, whether or not there was one and whether or not closing it
    failed; a further [Close] does nothing at all and returns no error. *)
Theorem X1_rotating_Close_is_idempotent :
  (forall r σ, exists err σ',
      Rotating.Close (r, σ) = Done err (Rotating.set_w None r, σ'))
  /\ (forall r σ err r' σ',
        Rotating.Close (r, σ) = Done err (r', σ') ->
        forall σ2, Rotating.Close (r', σ2) = Done None (r', σ2)).
Proof.
  split.
  - intros r σ. unfold Rotating.Close, Rotating.close, bind, self, gets.
    cbn [fst snd]. destruct (Rotating.w r) as [c|] eqn:W.
    + unfold lift, WriteCloser_Close. cbn [fst snd].
      destruct (wc_closed c).
      * unfold ret, update, modify. cbn [fst snd]. eauto.
      * unfold File_Close, bind.
        destruct (sys_returns (A:=unit) (SysClose (f_name (wc_file c)))
                    (fun m => inr (tt, m)) σ) as (x & σ' & ->).
        unfold ret, update, modify. cbn [fst snd]. eauto.
    + unfold ret. exists None, σ. destruct r. cbn in W. subst. reflexivity.
  - intros r σ err r' σ' H σ2. apply rotating_close_absent in H.
    unfold Rotating.Close, Rotating.close, bind, self, gets. cbn [fst].
    rewrite H. reflexivity.
Qed.

(** X1, an instance: the sample writer is closed twice. *)
Lemma X1_rotating_Close_witness :
  let σ0 := Sample.world ∅ Sample.no_faults 0 in
  let σ1 := log_event (SysClose "app.log", None) σ0 in
  let r0 := Sample.rotating_writer 10 2 0 in
  Rotating.Close (r0, σ0) = Done None (Rotating.set_w None r0, σ1)
  /\ Rotating.Close (Rotating.set_w None r0, σ1)
     = Done None (Rotating.set_w None r0, σ1).
Proof.
  intros σ0 σ1 r0.
  assert (H : Rotating.Close (r0, σ0) = Done None (Rotating.set_w None r0, σ1))
    by (vm_compute; reflexivity).
  split; [exact H|].
  exact (proj2 X1_rotating_Close_is_idempotent _ _ _ _ _ H σ1).
Defined.

(** X2: [NewRotatingFile] opens the file and takes its size as the count of
    bytes written.  On an existing regular file nothing changes on disk and
    [nbytes] is the size of the file; a missing file is created empty with
    0644 and [nbytes] is zero; the three parameters are stored as given.  On
    a path that is not a regular file the constructor panics. *)
Theorem X2_NewRotatingFile_resumes :
  forall name size count σ,
    (forall r σ',
       Rotating.NewRotatingFile name size count σ = Done r σ' ->
       r = Rotating.mkRotating (Some (NewWriteCloser (mkFile name))) name
             size count (Rotating.nbytes r)
       /\ tracks r σ'
       /\ trace σ' = trace σ ++ [(SysOpenFile name FILE_MODE FILE_PERM, None);
                                 (SysStat name, None)]
       /\ (forall p c, fs σ !! name = Some (RegFile p c) ->
                       fs σ' = fs σ /\ Rotating.nbytes r = len c)
       /\ (fs σ !! name = None ->
           fs σ' = <[name := RegFile FILE_PERM []]> (fs σ)
           /\ Rotating.nbytes r = 0))
    /\ (fs σ !! name = Some Dir ->
        Rotating.NewRotatingFile name size count σ = Panic).
Proof.
  intros name size count σ. split.
  - intros r σ' H. unfold Rotating.NewRotatingFile in H.
    destruct (Rotating.open (Rotating.mkRotating None name size count 0, σ))
      as [[e|] [r0 σ0]|] eqn:Ho; try discriminate.
    injection H as -> ->.
    apply rotating_open_inv in Ho as (Hop & (p & c & L & -> & Tr)).
    cbn [Rotating.filename Rotating.set_w Rotating.set_nbytes Rotating.nbytes
         Rotating.maxSize Rotating.backupCount] in *.
    split; [reflexivity|]. split.
    { split; [reflexivity|]. exists p, c. auto. }
    split; [exact Tr|]. split.
    + intros p0 c0 L0. destruct Hop as [Eq | [Hn _]]; [|congruence].
      split; [exact Eq|]. rewrite Eq, L0 in L. injection L as _ <-. reflexivity.
    + intros Hn. destruct Hop as [Eq | [_ Eq]].
      * rewrite Eq, Hn in L. discriminate.
      * split; [exact Eq|]. rewrite Eq, lookup_insert_eq in L.
        injection L as _ <-. reflexivity.
  - intros Hd. unfold Rotating.NewRotatingFile, Rotating.open, bind, self, gets,
      lift, os_OpenFile, sys. cbn [fst snd Rotating.filename].
    destruct (faults σ (List.length (trace σ))
                (SysOpenFile name FILE_MODE FILE_PERM)); [reflexivity|].
    rewrite Hd. reflexivity.
Qed.

(** X2, an instance: a writer constructed on a file of eight bytes. *)
Lemma X2_NewRotatingFile_witness :
  let files : gmap string node :=
    <["app.log" := RegFile 384 (Sample.bytes "12345678")]> ∅ in
  let σ0 := Sample.world files Sample.no_faults 0 in
  (exists r σ',
     Rotating.NewRotatingFile "app.log" 10 2 σ0 = Done r σ'
     /\ fs σ0 !! "app.log"%string = Some (RegFile 384 (Sample.bytes "12345678"))
     /\ fs σ' = fs σ0 /\ Rotating.nbytes r = 8)
  /\ (let σd := Sample.world (<["app.log" := Dir]> ∅) Sample.no_faults 0 in
      fs σd !! "app.log"%string = Some Dir
      /\ Rotating.NewRotatingFile "app.log" 10 2 σd = Panic).
Proof.
  intros files σ0. split.
  - destruct (Rotating.NewRotatingFile "app.log" 10 2 σ0) as [r σ'|] eqn:E.
    + exists r, σ'. split; [reflexivity|].
      assert (L : fs σ0 !! "app.log"%string
                  = Some (RegFile 384 (Sample.bytes "12345678")))
        by (vm_compute; reflexivity).
      split; [exact L|].
      destruct (proj1 (X2_NewRotatingFile_resumes "app.log" 10 2 σ0) r σ' E)
        as (_ & _ & _ & Hex & _).
      exact (Hex _ _ L).
    + vm_compute in E. discriminate E.
  - intros σd.
    assert (L : fs σd !! "app.log"%string = Some Dir) by (vm_compute; reflexivity).
    split; [exact L|].
    exact (proj2 (X2_NewRotatingFile_resumes "app.log" 10 2 σd) L).
Defined.

(** X3: the count of bytes follows the file.  If [nbytes] is the size of the
    active file and the handle is on it, then after every [Write] that
    returns no error [nbytes] is again the size of the active file, and the
    call returned the length of the payload, whether or not it rotated.  The
    size after the write is assumed to fit in 64 bits. *)
Theorem X3_nbytes_is_size_of_active_file :
  forall data r σ n r' σ',
    tracks r σ ->
    int64_range (Rotating.nbytes r + len data) ->
    Rotating.Write data (r, σ) = Done (n, None) (r', σ') ->
    tracks r' σ' /\ n = len data /\ same_config r r'.
Proof.
  intros data r σ n r' σ' (W & p & c & L & Hn) Hrange H. rewrite Hn in Hrange.
  destruct (rotating_Write_success _ _ _ _ _ _ _ _ W L Hn Hrange H)
    as (-> & [(_ & Efs & -> & _)
             | (_ & σ1 & p1 & c1 & _ & L1 & _ & _ & Efs & ->)]).
  - split; [|split; [reflexivity | repeat split]].
    split; [exact W|]. exists p, (c ++ data).
    cbn [Rotating.filename Rotating.set_nbytes Rotating.nbytes].
    rewrite Efs, lookup_insert_eq, len_app. auto.
  - split; [|split; [reflexivity | repeat split]].
    split; [exact W|]. exists p1, (c1 ++ data).
    cbn [Rotating.filename Rotating.set_nbytes Rotating.nbytes].
    rewrite Efs, lookup_insert_eq, len_app. auto.
Qed.

(** X3, an instance: a write of five bytes after eight, with rotation. *)
Lemma X3_nbytes_witness :
  let files : gmap string node :=
    <["app.log" := RegFile 420 (Sample.bytes "12345678")]> ∅ in
  let σ0 := Sample.world files Sample.no_faults 0 in
  let r0 := Sample.rotating_writer 10 2 8 in
  let data := Sample.bytes "abcde" in
  exists n r' σ',
    tracks r0 σ0
    /\ int64_range (Rotating.nbytes r0 + len data)
    /\ Rotating.Write data (r0, σ0) = Done (n, None) (r', σ')
    /\ tracks r' σ' /\ n = len data /\ same_config r0 r'.
Proof.
  intros files σ0 r0 data.
  assert (T0 : tracks r0 σ0).
  { split; [reflexivity|]. exists 420, (Sample.bytes "12345678").
    split; vm_compute; reflexivity. }
  assert (Hrange : int64_range (Rotating.nbytes r0 + len data))
    by (vm_compute; split; [discriminate | reflexivity]).
  assert (R : returned (Rotating.Write data (r0, σ0)) = Some (5, None))
    by (vm_compute; reflexivity).
  destruct (Rotating.Write data (r0, σ0)) as [[n err] [r' σ']|] eqn:E;
    [|discriminate R].
  cbn [returned] in R. injection R as -> ->.
  exists 5, r', σ'. split; [exact T0|]. split; [exact Hrange|].
  split; [reflexivity|].
  exact (X3_nbytes_is_size_of_active_file data r0 σ0 5 r' σ' T0 Hrange E).
Defined.

(** X4: with backups kept, the active file stays within [maxSize] except for
    a single payload that is itself larger.  After a [Write] that returns no
    error, from a writer that tracks its file, the active file is at most
    [maxSize] bytes long or holds exactly the payload of that write. *)
Theorem X4_active_file_within_maxSize :
  forall data r σ n r' σ',
    tracks r σ ->
    0 < Rotating.backupCount r ->
    int64_range (Rotating.nbytes r + len data) ->
    Rotating.Write data (r, σ) = Done (n, None) (r', σ') ->
    exists p c',
      fs σ' !! Rotating.filename r = Some (RegFile p c')
      /\ (len c' <= Rotating.maxSize r \/ (p = FILE_PERM /\ c' = data)).
Proof.
  intros data r σ n r' σ' (W & p & c & L & Hn) Hb Hrange H. rewrite Hn in Hrange.
  destruct (rotating_Write_success _ _ _ _ _ _ _ _ W L Hn Hrange H)
    as (_ & [(Hle & -> & _)
            | (_ & σ1 & p1 & c1 & _ & _ & Hpos & _ & -> & _)]).
  - exists p, (c ++ data). rewrite lookup_insert_eq, len_app. auto.
  - destruct (Hpos Hb) as (-> & -> & _). exists FILE_PERM, data.
    rewrite lookup_insert_eq. auto.
Qed.

(** X4, an instance: the same write of five bytes after eight. *)
Lemma X4_active_file_witness :
  let files : gmap string node :=
    <["app.log" := RegFile 420 (Sample.bytes "12345678")]> ∅ in
  let σ0 := Sample.world files Sample.no_faults 0 in
  let r0 := Sample.rotating_writer 10 2 8 in
  let data := Sample.bytes "abcde" in
  exists n r' σ',
    tracks r0 σ0 /\ 0 < Rotating.backupCount r0
    /\ int64_range (Rotating.nbytes r0 + len data)
    /\ Rotating.Write data (r0, σ0) = Done (n, None) (r', σ')
    /\ exists p c',
         fs σ' !! Rotating.filename r0 = Some (RegFile p c')
         /\ (len c' <= Rotating.maxSize r0 \/ (p = FILE_PERM /\ c' = data)).
Proof.
  intros files σ0 r0 data.
  assert (T0 : tracks r0 σ0).
  { split; [reflexivity|]. exists 420, (Sample.bytes "12345678").
    split; vm_compute; reflexivity. }
  assert (Hb : 0 < Rotating.backupCount r0) by (vm_compute; reflexivity).
  assert (Hrange : int64_range (Rotating.nbytes r0 + len data))
    by (vm_compute; split; [discriminate | reflexivity]).
  assert (R : returned (Rotating.Write data (r0, σ0)) = Some (5, None))
    by (vm_compute; reflexivity).
  destruct (Rotating.Write data (r0, σ0)) as [[n err] [r' σ']|] eqn:E;
    [|discriminate R].
  cbn [returned] in R. injection R as -> ->.
  exists 5, r', σ'. do 3 (split; [assumption|]). split; [reflexivity|].
  exact (X4_active_file_within_maxSize data r0 σ0 5 r' σ' T0 Hb Hrange E).
Defined.

(** X5: a rotation loses none of the bytes of the active file.  With backups
    kept, when a [Write] goes over [maxSize] and returns no error, the first
    backup is the former active file, content and permission, and the active
    file is a new file that holds exactly the payload. *)
Theorem X5_rotation_moves_active_file_to_first_backup :
  forall data r σ p c n r' σ',
    Rotating.w r = Some (NewWriteCloser (mkFile (Rotating.filename r))) ->
    fs σ !! Rotating.filename r = Some (RegFile p c) ->
    Rotating.nbytes r = len c ->
    0 < Rotating.backupCount r ->
    int64_range (len c + len data) ->
    Rotating.maxSize r < len c + len data ->
    Rotating.Write data (r, σ) = Done (n, None) (r', σ') ->
    fs σ' !! (Rotating.filename r +:+ ".1")%string = Some (RegFile p c)
    /\ fs σ' !! Rotating.filename r = Some (RegFile FILE_PERM data)
    /\ Rotating.nbytes r' = len data.
Proof.
  intros data r σ p c n r' σ' W L Hn Hb Hrange Hover H.
  destruct (rotating_Write_success _ _ _ _ _ _ _ _ W L Hn Hrange H)
    as (_ & [(Hle & _)
            | (_ & σ1 & p1 & c1 & _ & _ & Hpos & _ & -> & ->)]); [lia|].
  destruct (Hpos Hb) as (-> & -> & L1). split; [|split].
  - rewrite lookup_insert_ne; [exact L1|].
    intros E. symmetry in E. revert E. apply append_ne_self. discriminate.
  - apply lookup_insert_eq.
  - reflexivity.
Qed.

(** X5, an instance: the same write of five bytes after eight. *)
Lemma X5_rotation_moves_witness :
  let files : gmap string node :=
    <["app.log" := RegFile 384 (Sample.bytes "12345678")]> ∅ in
  let σ0 := Sample.world files Sample.no_faults 0 in
  let r0 := Sample.rotating_writer 10 2 8 in
  let data := Sample.bytes "abcde" in
  exists n r' σ',
    Rotating.Write data (r0, σ0) = Done (n, None) (r', σ')
    /\ fs σ' !! "app.log.1"%string = Some (RegFile 384 (Sample.bytes "12345678"))
    /\ fs σ' !! "app.log"%string = Some (RegFile FILE_PERM data)
    /\ Rotating.nbytes r' = len data.
Proof.
  intros files σ0 r0 data.
  assert (L : fs σ0 !! Rotating.filename r0
              = Some (RegFile 384 (Sample.bytes "12345678")))
    by (vm_compute; reflexivity).
  assert (Hrange : int64_range (len (Sample.bytes "12345678") + len data))
    by (vm_compute; split; [discriminate | reflexivity]).
  assert (R : returned (Rotating.Write data (r0, σ0)) = Some (5, None))
    by (vm_compute; reflexivity).
  destruct (Rotating.Write data (r0, σ0)) as [[n err] [r' σ']|] eqn:E;
    [|discriminate R].
  cbn [returned] in R. injection R as -> ->.
  exists 5, r', σ'. split; [reflexivity|].
  apply (X5_rotation_moves_active_file_to_first_backup data r0 σ0 384
           (Sample.bytes "12345678") 5 r' σ' eq_refl L).
  - reflexivity.
  - vm_compute. reflexivity.
  - exact Hrange.
  - vm_compute. reflexivity.
  - exact E.
Defined.

(** Writes that fit, one after the other. *)
Lemma rotating_write_each_fits chunks :
  forall r σ p c results r' σ',
    Rotating.w r = Some (NewWriteCloser (mkFile (Rotating.filename r))) ->
    fs σ !! Rotating.filename r = Some (RegFile p c) ->
    Rotating.nbytes r = len c ->
    int64_range (Rotating.maxSize r) ->
    len c + len (concat chunks) <= Rotating.maxSize r ->
    write_each Rotating.Write chunks (r, σ) = Done results (r', σ') ->
    Forall (fun x => snd x = None) results ->
    results = map (fun data => (len data, None)) chunks
    /\ fs σ' = <[Rotating.filename r := RegFile p (c ++ concat chunks)]> (fs σ)
    /\ r' = Rotating.set_nbytes (len c + len (concat chunks)) r
    /\ trace σ' = trace σ
         ++ map (fun data => (SysWrite (Rotating.filename r) data, None)) chunks.
Proof.
  induction chunks as [|data rest IH];
    intros r σ p c results r' σ' W L Hn Hmax Hfit H Hok.
  - apply ret_Done in H as [-> E]. injection E as -> ->.
    cbn [concat map]. rewrite !app_nil_r.
    change (len (@nil byte)) with 0. rewrite Z.add_0_r.
    split; [reflexivity|]. split; [symmetry; apply insert_id; exact L|].
    split; [destruct r; cbn in Hn; subst; reflexivity | reflexivity].
  - cbn [write_each] in H. apply bind_Done in H as ([n err] & [r1 σ1] & Hw & H).
    apply bind_Done in H as (rs & [r2 σ2] & Hrest & H).
    apply ret_Done in H as [-> E]. injection E as <- <-.
    apply Forall_cons in Hok as [Herr Hok]. cbn [snd] in Herr. subst err.
    cbn [concat] in Hfit. rewrite len_app in Hfit.
    pose proof (len_nonneg c) as Hc. pose proof (len_nonneg data) as Hd.
    pose proof (len_nonneg (concat rest)) as Hr.
    assert (Hrange : int64_range (len c + len data))
      by (unfold int64_range in *; lia).
    destruct (rotating_Write_success _ _ _ _ _ _ _ _ W L Hn Hrange Hw)
      as (-> & [(_ & Efs & -> & Tr) | (Hover & _)]); [|lia].
    assert (L1 : fs σ1 !! Rotating.filename r = Some (RegFile p (c ++ data)))
      by (rewrite Efs; apply lookup_insert_eq).
    destruct (IH (Rotating.set_nbytes (len c + len data) r) σ1 p (c ++ data)
                 rs r' σ' W L1) as (-> & Efs' & -> & Tr');
      try assumption; try (destruct r; cbn in *; rewrite ?len_app; lia).
    + cbn [Rotating.filename Rotating.set_nbytes] in *.
      split; [reflexivity|]. split.
      { rewrite Efs', Efs, insert_insert_eq. cbn [concat].
        rewrite app_assoc. reflexivity. }
      split.
      { cbn [concat]. rewrite !len_app. destruct r.
        unfold Rotating.set_nbytes. cbn. f_equal. lia. }
      rewrite Tr', Tr, <- app_assoc. reflexivity.
Qed.

(** X6: writes that fit are appended in order and never rotate.  From a
    writer that tracks its file, if the file and all the chunks together stay
    within [maxSize] and every [Write] returns no error, then each returned
    the length of its chunk, the active file holds its former content
    followed by the chunks in order, no other file changed, the only calls
    made are the writes, and [nbytes] is the new size. *)
Theorem X6_writes_that_fit_are_appended :
  forall chunks r σ p c results r' σ',
    Rotating.w r = Some (NewWriteCloser (mkFile (Rotating.filename r))) ->
    fs σ !! Rotating.filename r = Some (RegFile p c) ->
    Rotating.nbytes r = len c ->
    int64_range (Rotating.maxSize r) ->
    len c + len (concat chunks) <= Rotating.maxSize r ->
    write_each Rotating.Write chunks (r, σ) = Done results (r', σ') ->
    Forall (fun x => snd x = None) results ->
    results = map (fun data => (len data, None)) chunks
    /\ fs σ' !! Rotating.filename r = Some (RegFile p (c ++ concat chunks))
    /\ (forall q, q <> Rotating.filename r -> fs σ' !! q = fs σ !! q)
    /\ Rotating.nbytes r' = len c + len (concat chunks)
    /\ trace σ' = trace σ
         ++ map (fun data => (SysWrite (Rotating.filename r) data, None)) chunks.
Proof.
  intros chunks r σ p c results r' σ' W L Hn Hmax Hfit H Hok.
  destruct (rotating_write_each_fits chunks r σ p c results r' σ'
              W L Hn Hmax Hfit H Hok) as (-> & Efs & -> & Tr).
  split; [reflexivity|]. split; [rewrite Efs; apply lookup_insert_eq|].
  split; [intros q Hq; rewrite Efs; apply lookup_insert_ne; congruence|].
  split; [reflexivity | exact Tr].
Qed.

(** X6, an instance: two chunks of five bytes into an empty file with
    [maxSize = 10]. *)
Lemma X6_writes_that_fit_witness :
  let files : gmap string node := <["app.log" := RegFile 420 []]> ∅ in
  let σ0 := Sample.world files Sample.no_faults 0 in
  let r0 := Sample.rotating_writer 10 2 0 in
  let chunks := [Sample.bytes "12345"; Sample.bytes "67890"] in
  exists results r' σ',
    write_each Rotating.Write chunks (r0, σ0) = Done results (r', σ')
    /\ Forall (fun x => snd x = None) results
    /\ results = map (fun data => (len data, None)) chunks
    /\ fs σ' !! "app.log"%string = Some (RegFile 420 ([] ++ concat chunks))
    /\ (forall q, q <> "app.log"%string -> fs σ' !! q = fs σ0 !! q)
    /\ Rotating.nbytes r' = len (@nil byte) + len (concat chunks)
    /\ trace σ' = trace σ0
         ++ map (fun data => (SysWrite "app.log" data, None)) chunks.
Proof.
  intros files σ0 r0 chunks.
  assert (R : returned (write_each Rotating.Write chunks (r0, σ0))
              = Some [(5, None); (5, None)]) by (vm_compute; reflexivity).
  destruct (write_each Rotating.Write chunks (r0, σ0))
    as [results [r' σ']|] eqn:E; [|discriminate R].
  cbn [returned] in R. injection R as ->.
  assert (Hok : Forall (fun x : Z * option error => snd x = None)
                  [(5, None); (5, None)]) by (repeat constructor).
  exists [(5, None); (5, None)], r', σ'. split; [reflexivity|].
  split; [exact Hok|].
  apply (X6_writes_that_fit_are_appended chunks r0 σ0 420 [] _ r' σ').
  - reflexivity.
  - vm_compute. reflexivity.
  - reflexivity.
  - vm_compute. split; [discriminate | reflexivity].
  - vm_compute. discriminate.
  - exact E.
  - exact Hok.
Defined.

(** A rotation that fails leaves the size-based writer without handle. *)
Lemma rotating_doRollover_failed_absent r σ e r' σ' :
  Rotating.doRollover (r, σ) = Done (Some e) (r', σ') -> Rotating.w r' = None.
Proof.
  intros H.
  apply rotating_doRollover_stages in H as (ec & σa & eb & σb & _ & _ & H).
  destruct eb as [e1|].
  - destruct H as (_ & -> & _). reflexivity.
  - apply rotating_open_inv in H as (_ & -> & _). reflexivity.
Qed.

(** X7: a failed rotation leaves the size-based writer unusable.  When a
    [Write] on an open handle returns an error that is not the error of the
    write itself (so it is the error of the rotation), the writer has no
    handle any more, and every later [Write] returns [ErrFileNotOpen]
    without a call to the operating system. *)
Theorem X7_failed_rotation_drops_the_handle :
  forall data r σ c n e r' σ',
    Rotating.w r = Some c -> wc_closed c = false ->
    Rotating.Write data (r, σ) = Done (n, Some e) (r', σ') ->
    (forall pre name d, trace σ' <> pre ++ [(SysWrite name d, Some e)]) ->
    Rotating.w r' = None
    /\ forall chunks σ2,
         write_each Rotating.Write chunks (r', σ2)
         = Done (map (fun _ => (0, Some ErrFileNotOpen)) chunks) (r', σ2).
Proof.
  intros data r σ c n e r' σ' W C H Hnot.
  assert (Habs : Rotating.w r' = None).
  { apply (rotating_Write_inv _ _ _ _ _ _ _ _ W C) in H.
    destruct (Rotating.maxSize r <? wrap64 (Rotating.nbytes r + len data)).
    - destruct H as (e0 & r1 & σ1 & Hr & H). destruct e0 as [e1|].
      + destruct H as (_ & _ & -> & _).
        eapply rotating_doRollover_failed_absent; eauto.
      + exfalso.
        destruct (rotating_doRollover_inv _ _ _ _ _ _ W C Hr)
          as (_ & _ & _ & _ & Hok).
        destruct (Hok eq_refl) as (p & content & _ & -> & _).
        destruct H as (c1 & W1 & H). cbn [Rotating.w Rotating.set_w] in W1.
        injection W1 as <-. destruct (H eq_refl) as (Tr & _).
        eapply Hnot; eauto.
    - exfalso. destruct H as (Tr & _). eapply Hnot; eauto. }
  split; [exact Habs|]. intros chunks σ2. apply write_each_rejected.
  intros d. apply rotating_Write_absent. exact Habs.
Qed.

(** X7, an instance: the rename of the active file fails. *)
Lemma X7_failed_rotation_witness :
  let files : gmap string node :=
    <["app.log" := RegFile 420 (Sample.bytes "12345678")]> ∅ in
  let σ0 := Sample.world files Sample.rename_fails 0 in
  let σ1 := log_event (SysRename "app.log" "app.log.1", Some Sample.EACCES)
              (log_event (SysClose "app.log", None) σ0) in
  let r0 := Sample.rotating_writer 10 2 8 in
  let r1 := Rotating.set_w None r0 in
  Rotating.Write (Sample.bytes "abcde") (r0, σ0)
  = Done (0, Some Sample.EACCES) (r1, σ1)
  /\ Rotating.w r1 = None
  /\ forall chunks σ2,
       write_each Rotating.Write chunks (r1, σ2)
       = Done (map (fun _ => (0, Some ErrFileNotOpen)) chunks) (r1, σ2).
Proof.
  intros files σ0 σ1 r0 r1.
  assert (H : Rotating.Write (Sample.bytes "abcde") (r0, σ0)
              = Done (0, Some Sample.EACCES) (r1, σ1))
    by (vm_compute; reflexivity).
  split; [exact H|].
  apply (X7_failed_rotation_drops_the_handle (Sample.bytes "abcde") r0 σ0
           (NewWriteCloser (mkFile "app.log")) 0 Sample.EACCES r1 σ1
           eq_refl eq_refl H).
  intros pre name d E. cbn in E.
  change [(SysClose "app.log", None);
          (SysRename "app.log" "app.log.1", Some Sample.EACCES)]
    with ([(SysClose "app.log", @None error)]
          ++ [(SysRename "app.log" "app.log.1", Some Sample.EACCES)]) in E.
  apply app_inj_tail in E as [_ E]. discriminate E.
Defined.

(** The loop over the backups touches numbered backups only. *)
Lemma rotating_shift_backups_confined name indices q :
  (forall i, q <> Sprintf_s_d name i) ->
  keeps (fixes q) (Rotating.shift_backups name indices).
Proof.
  intros Hq. induction indices as [|i rest IH]; cbn [Rotating.shift_backups].
  - apply keeps_ret, fixes_refl.
  - apply (keeps_bind _ (fixes_trans q)); [apply fixes_gets | intros es].
    apply (keeps_bind _ (fixes_trans q)).
    + destruct es; [|apply keeps_ret, fixes_refl].
      apply (keeps_bind _ (fixes_trans q)); [apply fixes_gets | intros ed].
      destruct ed; [|apply keeps_ret, fixes_refl].
      apply (keeps_bind _ (fixes_trans q)).
      * apply fixes_Remove. intros E. exact (Hq _ (eq_sym E)).
      * intros [e|]; [apply keeps_ret, fixes_refl|].
        apply fixes_Rename; intros E; exact (Hq _ (eq_sym E)).
    + intros [e|]; [apply keeps_ret, fixes_refl | exact IH].
Qed.

(** The retirement touches the active file and numbered backups only. *)
Lemma rotating_retire_confined r q :
  q <> Rotating.filename r ->
  (forall i, q <> Sprintf_s_d (Rotating.filename r) i) ->
  keeps (fixes q) (rotating_retire r).
Proof.
  intros Hn Hq. unfold rotating_retire.
  assert (H1 : (Rotating.filename r +:+ ".1")%string <> q).
  { rewrite <- Sprintf_s_d_1. intros E. exact (Hq _ (eq_sym E)). }
  destruct (0 <? Rotating.backupCount r); [|apply keeps_ret, fixes_refl].
  apply (keeps_bind _ (fixes_trans q));
    [apply rotating_shift_backups_confined; exact Hq|].
  intros [e|]; [apply keeps_ret, fixes_refl|].
  apply (keeps_bind _ (fixes_trans q)); [apply fixes_gets | intros ed].
  apply (keeps_bind _ (fixes_trans q)).
  - destruct ed; [apply fixes_Remove; exact H1 | apply keeps_ret, fixes_refl].
  - intros [e|]; [apply keeps_ret, fixes_refl|].
    apply (keeps_bind _ (fixes_trans q)); [apply fixes_gets | intros ef].
    destruct ef; [|apply keeps_ret, fixes_refl].
    apply fixes_Rename; [congruence | exact H1].
Qed.

(** A rotation touches the active file and numbered backups only, and
    leaves a handle on the active file or none. *)
Lemma rotating_doRollover_confined r σ e r' σ' q :
  Rotating.doRollover (r, σ) = Done e (r', σ') ->
  (Rotating.filename r' = Rotating.filename r
   /\ (Rotating.w r' = None
       \/ Rotating.w r' = Some (NewWriteCloser (mkFile (Rotating.filename r)))))
  /\ (q <> Rotating.filename r ->
      (forall i, q <> Sprintf_s_d (Rotating.filename r) i) ->
      fs σ' !! q = fs σ !! q).
Proof.
  intros H.
  apply rotating_doRollover_stages in H as (ec & σa & eb & σb & Hc & Hr & H).
  apply rotating_close_inv in Hc as (_ & Fa & _).
  assert (Fb : q <> Rotating.filename r ->
               (forall i, q <> Sprintf_s_d (Rotating.filename r) i) ->
               fs σb !! q = fs σ !! q).
  { intros Hn Hq.
    apply (rotating_retire_confined (Rotating.set_w None r) q Hn Hq)
      in Hr as [_ F]. cbn [snd] in F. rewrite F, Fa. reflexivity. }
  destruct eb as [e1|].
  - destruct H as (_ & -> & ->). split; [split; [reflexivity | left; reflexivity]|].
    exact Fb.
  - apply rotating_open_inv in H as (Ho & H).
    cbn [Rotating.filename Rotating.set_w] in Ho, H. split.
    + destruct e as [e|].
      * destruct H as (-> & _). split; [reflexivity | left; reflexivity].
      * destruct H as (p & c & _ & -> & _).
        split; [reflexivity | right; reflexivity].
    + intros Hn Hq. rewrite (opened_elsewhere _ _ _ _ Ho Hn). exact (Fb Hn Hq).
Qed.

(** A [Write] touches own paths only, and its own paths do not grow. *)
Lemma rotating_Write_confined data r σ a r' σ' :
  Rotating.Write data (r, σ) = Done a (r', σ') ->
  (forall q, rotating_own r' q -> rotating_own r q)
  /\ forall q, ~ rotating_own r q -> fs σ' !! q = fs σ !! q.
Proof.
  intros H. destruct (Rotating.w r) as [c|] eqn:W.
  2:{ rewrite (rotating_Write_absent data r σ W) in H.
      injection H as _ <- <-. auto. }
  destruct (wc_closed c) eqn:C.
  { unfold Rotating.Write in H.
    apply bind_Done in H as (r0 & ts0 & Hs & H).
    apply self_Done in Hs as [-> ->]. cbn [fst] in H. rewrite W in H. unfold WriteCloser_Closed in H. rewrite C in H.
    apply ret_Done in H as [_ E]. injection E as -> ->. auto. }
  destruct a as [n err].
  apply (rotating_Write_inv _ _ _ _ _ _ _ _ W C) in H.
  assert (Hstep : forall c0 r0 σ0,
             Rotating.w r0 = Some c0 ->
             write_and_count c0 data r0 σ0 n err r' σ' ->
             (Rotating.filename r' = Rotating.filename r0
              /\ Rotating.w r' = Rotating.w r0)
             /\ forall q, q <> f_name (wc_file c0) -> fs σ' !! q = fs σ0 !! q).
  { intros c0 r0 σ0 W0 (_ & Hwc). destruct err as [e|].
    - destruct Hwc as (_ & -> & ->). auto.
    - destruct Hwc as (_ & -> & p & content & _ & ->).
      split; [split; reflexivity|]. intros q Hq.
      apply lookup_insert_ne. congruence. }
  destruct (Rotating.maxSize r <? wrap64 (Rotating.nbytes r + len data)).
  - destruct H as (e0 & r1 & σ1 & Hr & H).
    destruct (rotating_doRollover_confined r σ e0 r1 σ1 (Rotating.filename r) Hr)
      as ((En & Hw) & _).
    assert (Hfs : forall q, ~ rotating_own r q -> fs σ1 !! q = fs σ !! q).
    { intros q Hq.
      apply (rotating_doRollover_confined r σ e0 r1 σ1 q Hr).
      - intros ->. apply Hq. left. reflexivity.
      - intros i ->. apply Hq. right. left. eauto. }
    destruct e0 as [e|].
    + destruct H as (_ & _ & -> & ->). split; [|exact Hfs].
      intros q [Hq | [Hq | (c1 & W1 & Hq)]].
      * left. congruence.
      * right. left. rewrite <- En. exact Hq.
      * destruct Hw as [Hw | Hw]; rewrite Hw in W1; [discriminate|].
        injection W1 as <-. left. exact Hq.
    + destruct H as (c1 & W1 & H).
      destruct Hw as [Hw | Hw]; rewrite Hw in W1; [discriminate|].
      injection W1 as <-.
      destruct (Hstep _ r1 σ1 Hw (H eq_refl)) as ((En' & Ew') & Hfs').
      cbn [f_name wc_file NewWriteCloser] in Hfs'. split.
      * intros q [Hq | [Hq | (c1 & W1 & Hq)]].
        -- left. congruence.
        -- right. left. rewrite <- En, <- En'. exact Hq.
        -- rewrite Ew', Hw in W1. injection W1 as <-. left. exact Hq.
      * intros q Hq. rewrite Hfs'; [exact (Hfs q Hq)|].
        intros ->. apply Hq. left. reflexivity.
  - destruct (Hstep c r σ W H) as ((En' & Ew') & Hfs'). split.
    + intros q [Hq | [Hq | (c1 & W1 & Hq)]].
      * left. congruence.
      * right. left. rewrite <- En'. exact Hq.
      * right. right. exists c1. split; [congruence | exact Hq].
    + intros q Hq. apply Hfs'. intros ->. apply Hq. right. right. eauto.
Qed.

(** X8: a size-based writer touches no file but its own.  Whatever a
    sequence of [Write] calls returns, every path other than the active
    file's, those of the numbered backups ([filename.i] for an integer [i])
    and the path of the handle held at the start holds after the calls what
    it held before. *)
Theorem X8_rotating_writes_touch_own_files_only :
  forall chunks r σ results r' σ' q,
    write_each Rotating.Write chunks (r, σ) = Done results (r', σ') ->
    ~ rotating_own r q ->
    fs σ' !! q = fs σ !! q.
Proof.
  induction chunks as [|data rest IH]; intros r σ results r' σ' q H Hq.
  - apply ret_Done in H as [_ E]. injection E as -> ->. reflexivity.
  - cbn [write_each] in H. apply bind_Done in H as (a & [r1 σ1] & Hw & H).
    apply bind_Done in H as (rs & [r2 σ2] & Hrest & H).
    apply ret_Done in H as [_ E]. injection E as <- <-.
    apply rotating_Write_confined in Hw as [Hown Hfs].
    rewrite (IH r1 σ1 rs r' σ' q Hrest); [exact (Hfs q Hq)|].
    intros Ho. exact (Hq (Hown q Ho)).
Qed.

(** X8, an instance: three writes with two rotations next to a file of
    another program. *)
Lemma X8_rotating_writes_witness :
  let files : gmap string node :=
    <["app.log" := RegFile 420 (Sample.bytes "12345678")]>
      (<["other.txt" := RegFile 384 (Sample.bytes "keep")]> ∅) in
  let σ0 := Sample.world files Sample.no_faults 0 in
  let r0 := Sample.rotating_writer 10 2 8 in
  let chunks := [Sample.bytes "abcde"; Sample.bytes "fghijk"; Sample.bytes "l"] in
  exists results r' σ',
    write_each Rotating.Write chunks (r0, σ0) = Done results (r', σ')
    /\ ~ rotating_own r0 "other.txt"
    /\ fs σ' !! "other.txt"%string = fs σ0 !! "other.txt"%string.
Proof.
  intros files σ0 r0 chunks.
  assert (R : returned (write_each Rotating.Write chunks (r0, σ0))
              = Some [(5, None); (6, None); (1, None)])
    by (vm_compute; reflexivity).
  destruct (write_each Rotating.Write chunks (r0, σ0))
    as [results [r' σ']|] eqn:E; [|discriminate R].
  assert (Hq : ~ rotating_own r0 "other.txt").
  { intros [Hq | [(i & Hq) | (c & W & Hq)]].
    - discriminate Hq.
    - unfold Sprintf_s_d in Hq. discriminate Hq.
    - injection W as <-. discriminate Hq. }
  exists results, r', σ'. split; [reflexivity|]. split; [exact Hq|].
  exact (X8_rotating_writes_touch_own_files_only chunks r0 σ0 results r' σ'
           "other.txt" E Hq).
Defined.

(** ** The time-based writer *)

(** A [Write] before the deadline is a single call of the handle's
    [Write]. *)
Lemma timed_Write_early data t σ f n err t' σ' :
  Timed.w t = Some f ->
  clock σ (ticks σ) < Timed.rotatorAt t ->
  Timed.Write data (t, σ) = Done (n, err) (t', σ') ->
  t' = t
  /\ trace σ' = trace σ ++ [(SysWrite (f_name f) data, err)]
  /\ ticks σ' = Datatypes.S (ticks σ) /\ clock σ' = clock σ
  /\ match err with
     | None => n = len data
               /\ exists p c, fs σ !! f_name f = Some (RegFile p c)
                    /\ fs σ' = <[f_name f := RegFile p (c ++ data)]> (fs σ)
     | Some _ => n = 0 /\ fs σ' = fs σ
     end.
Proof.
  intros W Hearly H. apply (timed_Write_inv _ _ _ _ _ _ _ _ W) in H.
  destruct (Z.leb_spec (Timed.rotatorAt t) (clock σ (ticks σ))) as [|_]; [lia|].
  apply File_Write_inv in H as ((Et & Tk & Ck & _) & Tr & Hres).
  cbn [fst snd tick ticks clock trace fs] in *. auto.
Qed.

(** X9: before the deadline the time-based writer only appends.  With a
    handle on a regular file, as long as every reading of the clock made by
    the calls is earlier than [rotatorAt] and no write fails, a sequence of
    [Write] calls returns the length of each chunk, leaves the active file
    with its former content followed by the chunks in order and every other
    file as it was, makes one write call per chunk and nothing else, reads
    the clock once per call, and leaves the writer as it was. *)
Theorem X9_timed_writes_before_deadline_append :
  forall chunks t σ f p c results t' σ',
    Timed.w t = Some f ->
    fs σ !! f_name f = Some (RegFile p c) ->
    (forall k, (k < List.length chunks)%nat ->
               clock σ (ticks σ + k) < Timed.rotatorAt t) ->
    write_each Timed.Write chunks (t, σ) = Done results (t', σ') ->
    Forall (fun x => snd x = None) results ->
    t' = t
    /\ results = map (fun data => (len data, None)) chunks
    /\ fs σ' = <[f_name f := RegFile p (c ++ concat chunks)]> (fs σ)
    /\ trace σ' = trace σ
         ++ map (fun data => (SysWrite (f_name f) data, None)) chunks
    /\ ticks σ' = (ticks σ + List.length chunks)%nat.
Proof.
  induction chunks as [|data rest IH];
    intros t σ f p c results t' σ' W L Hearly H Hok.
  - apply ret_Done in H as [-> E]. injection E as -> ->.
    cbn [concat map List.length]. rewrite !app_nil_r, Nat.add_0_r.
    split; [reflexivity|]. split; [reflexivity|].
    split; [symmetry; apply insert_id; exact L|]. split; reflexivity.
  - cbn [write_each] in H. apply bind_Done in H as ([n err] & [t1 σ1] & Hw & H).
    apply bind_Done in H as (rs & [t2 σ2] & Hrest & H).
    apply ret_Done in H as [-> E]. injection E as <- <-.
    apply Forall_cons in Hok as [Herr Hok]. cbn [snd] in Herr. subst err.
    assert (H0 : clock σ (ticks σ) < Timed.rotatorAt t).
    { rewrite <- (Nat.add_0_r (ticks σ)). apply Hearly. cbn. lia. }
    destruct (timed_Write_early _ _ _ _ _ _ _ _ W H0 Hw)
      as (-> & Tr & Tk & Ck & -> & p0 & c0 & L0 & Efs).
    rewrite L in L0. injection L0 as <- <-.
    assert (L1 : fs σ1 !! f_name f = Some (RegFile p (c ++ data)))
      by (rewrite Efs; apply lookup_insert_eq).
    destruct (IH t σ1 f p (c ++ data) rs t' σ' W L1) as (-> & -> & Efs' & Tr' & Tk');
      try assumption.
    { intros k Hk. rewrite Ck, Tk.
      replace (Datatypes.S (ticks σ) + k)%nat with (ticks σ + Datatypes.S k)%nat
        by lia.
      apply Hearly. cbn. lia. }
    split; [reflexivity|]. split; [reflexivity|]. split.
    { rewrite Efs', Efs, insert_insert_eq. cbn [concat].
      rewrite app_assoc. reflexivity. }
    split.
    { rewrite Tr', Tr, <- app_assoc. reflexivity. }
    rewrite Tk', Tk. cbn [List.length]. lia.
Qed.

(** X9, an instance: two writes during the first day. *)
Lemma X9_timed_writes_witness :
  let σ0 := Sample.world Sample.timed_files Sample.no_faults 10 in
  let chunks := [Sample.bytes "ab"; Sample.bytes "cde"] in
  exists results t' σ',
    write_each Timed.Write chunks (Sample.timed_writer, σ0)
    = Done results (t', σ')
    /\ t' = Sample.timed_writer
    /\ results = map (fun data => (len data, None)) chunks
    /\ fs σ' = <[Sample.log := RegFile 420 (Sample.bytes "x" ++ concat chunks)]>
                 (fs σ0)
    /\ trace σ' = trace σ0
         ++ map (fun data => (SysWrite Sample.log data, None)) chunks
    /\ ticks σ' = (ticks σ0 + List.length chunks)%nat.
Proof.
  intros σ0 chunks.
  assert (R : returned (write_each Timed.Write chunks (Sample.timed_writer, σ0))
              = Some [(2, None); (3, None)]) by (vm_compute; reflexivity).
  destruct (write_each Timed.Write chunks (Sample.timed_writer, σ0))
    as [results [t' σ']|] eqn:E; [|discriminate R].
  cbn [returned] in R. injection R as ->.
  exists [(2, None); (3, None)], t', σ'. split; [reflexivity|].
  apply (X9_timed_writes_before_deadline_append chunks Sample.timed_writer σ0
           (mkFile Sample.log) 420 (Sample.bytes "x") _ t' σ').
  - reflexivity.
  - vm_compute. reflexivity.
  - intros k Hk. cbn in Hk. cbn [Sample.timed_writer Timed.rotatorAt].
    unfold σ0, Sample.world. cbn [clock ticks]. lia.
  - exact E.
  - repeat constructor.
Defined.


(** What [os.OpenFile] does to the files when the time-based writer opens
    its file. *)
Lemma timed_open_files t σ err t' σ' :
  Timed.open (t, σ) = Done err (t', σ') ->
  opened (Timed.filename t) (fs σ) (fs σ')
  /\ ticks σ' = ticks σ
  /\ (err = None -> exists p c, fs σ' !! Timed.filename t = Some (RegFile p c)).
Proof.
  unfold Timed.open. intros H.
  apply bind_Done in H as (t0 & ts0 & H0 & H). apply self_Done in H0 as [-> ->].
  cbn [fst] in H. apply bind_Done in H as (r & [t1 σ1] & H1 & H).
  apply lift_Done in H1 as [E1 H1]. cbn [fst snd] in E1, H1. subst t1.
  unfold os_OpenFile in H1.
  apply sys_Done in H1 as (_ & _ & _ & Tk & _ & _ & Hr).
  destruct r as [e|file].
  - apply ret_Done in H as [-> E]. injection E as -> ->.
    destruct Hr as [Hfs _]. split; [left; exact Hfs|].
    split; [exact Tk | discriminate].
  - apply bind_Done in H as (u & ts2 & H2 & H). apply update_Done in H2.
    apply ret_Done in H as [-> E]. rewrite H2 in E. cbn [fst snd] in E.
    injection E as -> ->.
    destruct (fs σ !! Timed.filename t) as [[p c|]|] eqn:L;
      [| discriminate Hr |]; injection Hr as _ Hfs; rewrite <- Hfs.
    + split; [left; reflexivity|]. split; [exact Tk|]. intros _. eauto.
    + split; [right; auto|]. split; [exact Tk|]. intros _.
      rewrite lookup_insert_eq. eauto.
Qed.



(** *** Strings and paths *)

Lemma append_assoc (a b c : string) : ((a +:+ b) +:+ c = a +:+ (b +:+ c))%string.
Proof.
  induction a as [|x a IH]; [reflexivity|].
  change (String x ((a +:+ b) +:+ c) = String x (a +:+ (b +:+ c))).
  f_equal. exact IH.
Qed.

Lemma filepath_Split_app path :
  path = (fst (filepath_Split path) +:+ snd (filepath_Split path))%string.
Proof.
  induction path as [|c r IH]; [reflexivity|]. cbn [filepath_Split].
  destruct (filepath_Split r) as [d b]. cbn [fst snd] in IH.
  destruct (String.eqb d "") eqn:E; cbn [negb].
  - apply String.eqb_eq in E. subst d.
    change (r = b) in IH. subst r.
    destruct (Ascii.eqb c "/"); reflexivity.
  - cbn [fst snd]. rewrite IH at 1. reflexivity.
Qed.

Lemma filepath_Split_dir path :
  fst (filepath_Split path) = ""%string
  \/ ends_with_slash (fst (filepath_Split path)) = true.
Proof.
  induction path as [|c r IH]; [left; reflexivity|]. cbn [filepath_Split].
  destruct (filepath_Split r) as [d b]. cbn [fst] in IH.
  destruct (String.eqb d "") eqn:E; cbn [negb].
  - destruct (Ascii.eqb c "/") eqn:Ec; cbn [fst]; [right | left; reflexivity].
    cbn. exact Ec.
  - right. cbn [fst]. destruct IH as [-> | IH]; [discriminate E|].
    destruct d as [|x d]; [discriminate IH|]. exact IH.
Qed.

Lemma filepath_Join_dir dir name :
  dir <> ""%string -> ends_with_slash dir = true ->
  filepath_Join dir name = (dir +:+ name)%string.
Proof.
  intros Hd He. unfold filepath_Join.
  destruct (String.eqb dir "") eqn:E; [apply String.eqb_eq in E; contradiction|].
  rewrite He. reflexivity.
Qed.

Lemma substring_all s : substring 0 (String.length s) s = s.
Proof. induction s as [|c s IH]; cbn; [reflexivity | rewrite IH; reflexivity]. Qed.

Lemma substring_split n : forall s,
  (n <= String.length s)%nat ->
  s = (substring 0 n s +:+ substring n (String.length s - n) s)%string.
Proof.
  induction n as [|n IH]; intros s Hn.
  - rewrite Nat.sub_0_r, substring_all. destruct s; reflexivity.
  - destruct s as [|c s]; cbn in Hn; [lia|].
    change (String c s
            = String c (substring 0 n s
                        +:+ substring n (String.length s - n) s)).
    f_equal. apply IH. lia.
Qed.

Lemma prefix_length s1 : forall s2,
  String.prefix s1 s2 = true -> (String.length s1 <= String.length s2)%nat.
Proof.
  induction s1 as [|a s1 IH]; intros s2 H; [cbn; lia|].
  destruct s2 as [|b s2]; [discriminate H|]. cbn in H.
  destruct (ascii_dec a b); [|discriminate H]. cbn. apply IH in H. lia.
Qed.

Lemma entry_name_inv dirname path name :
  entry_name dirname path = Some name -> path = (dirname +:+ name)%string.
Proof.
  unfold entry_name. destruct (String.prefix dirname path) eqn:P; [|discriminate].
  destruct (_ && _); [|discriminate]. intros E. injection E as <-.
  pose proof (prefix_length _ _ P) as L. apply prefix_correct in P.
  rewrite (substring_split (String.length dirname) path L) at 1.
  rewrite P. reflexivity.
Qed.

Lemma timed_is_backup_inv t pre name :
  Timed.is_backup t pre name = true ->
  exists suffix,
    name = (pre +:+ suffix)%string /\ MatchString (Timed.extRE t) suffix = true.
Proof.
  unfold Timed.is_backup.
  destruct (Nat.leb_spec (String.length name) (String.length pre)) as [|L];
    [discriminate|].
  destruct (String.eqb pre (substring 0 (String.length pre) name)) eqn:E;
    [|discriminate].
  apply String.eqb_eq in E. intros M. eexists. split; [|exact M].
  rewrite E at 1. apply substring_split. lia.
Qed.

(** *** Sorting *)

Lemma String_leb_trans (a b c : string) :
  String.leb a b = true -> String.leb b c = true -> String.leb a c = true.
Proof.
  unfold String.leb. intros H1 H2.
  destruct (String.compare a b) eqn:E1; try discriminate H1;
    destruct (String.compare b c) eqn:E2; try discriminate H2.
  - apply OrderedTypeEx.String_as_OT.cmp_eq in E1. subst b. rewrite E2.
    reflexivity.
  - apply OrderedTypeEx.String_as_OT.cmp_eq in E1. subst b. rewrite E2.
    reflexivity.
  - apply OrderedTypeEx.String_as_OT.cmp_eq in E2. subst c. rewrite E1.
    reflexivity.
  - apply OrderedTypeEx.String_as_OT.cmp_lt in E1, E2.
    pose proof (OrderedTypeEx.String_as_OT.lt_trans _ _ _ E1 E2) as E.
    apply OrderedTypeEx.String_as_OT.cmp_lt in E.
    unfold OrderedTypeEx.String_as_OT.cmp in E. rewrite E. reflexivity.
Qed.

Lemma insert_sorted_In x l y : In y (insert_sorted x l) <-> y = x \/ In y l.
Proof.
  induction l as [|z l IH]; cbn.
  - intuition.
  - destruct (String.leb x z); cbn; [intuition|]. rewrite IH. intuition.
Qed.

Lemma insert_sorted_Permutation x l : Permutation (insert_sorted x l) (x :: l).
Proof.
  induction l as [|z l IH]; cbn; [reflexivity|].
  destruct (String.leb x z); [reflexivity|].
  rewrite IH. apply perm_swap.
Qed.

Lemma insert_sorted_sorted x l :
  Sorted.StronglySorted String_le l ->
  Sorted.StronglySorted String_le (insert_sorted x l).
Proof.
  induction 1 as [|z l Hl IH Hz]; cbn.
  - repeat constructor.
  - destruct (String.leb x z) eqn:E.
    + constructor; [constructor; assumption|].
      constructor; [exact E|].
      apply List.Forall_forall. intros y Hy.
      rewrite List.Forall_forall in Hz.
      exact (String_leb_trans _ _ _ E (Hz y Hy)).
    + constructor; [exact IH|].
      apply List.Forall_forall. intros y Hy. apply insert_sorted_In in Hy as [-> | Hy].
      * destruct (String.leb_total x z) as [H | H]; [congruence | exact H].
      * rewrite List.Forall_forall in Hz. exact (Hz y Hy).
Qed.

Lemma sort_Strings_Permutation l : Permutation (sort_Strings l) l.
Proof.
  induction l as [|x l IH]; cbn; [reflexivity|].
  change (foldr insert_sorted [] l) with (sort_Strings l).
  rewrite insert_sorted_Permutation, IH. reflexivity.
Qed.

Lemma sort_Strings_sorted l : Sorted.StronglySorted String_le (sort_Strings l).
Proof.
  induction l as [|x l IH]; cbn; [constructor|].
  apply insert_sorted_sorted. exact IH.
Qed.

Lemma sorted_take_drop (l : list string) : forall k x y,
  Sorted.StronglySorted String_le l ->
  In x (take k l) -> In y (drop k l) -> String_le x y.
Proof.
  induction l as [|z l IH]; intros k x y Hs Hx Hy.
  - destruct k; contradiction.
  - inversion Hs as [|? ? Hl Hz]; subst.
    destruct k as [|k]; [contradiction|]. cbn in Hx, Hy.
    destruct Hx as [<- | Hx].
    + rewrite List.Forall_forall in Hz. apply Hz.
      rewrite <- (take_drop k l). apply in_or_app. right. exact Hy.
    + exact (IH k x y Hl Hx Hy).
Qed.

(** *** The backups [getFilesToDelete] selects *)

(** What [getFilesToDelete] does: it lists the directory of the log file and
    changes nothing; from a listing that failed it returns nothing, and from
    one that succeeded the oldest of the dated backups beyond
    [backupCount]. *)
Lemma timed_getFilesToDelete_inv t σ files t' σ' :
  Timed.getFilesToDelete (t, σ) = Done files (t', σ') ->
  let dirName := fst (filepath_Split (Timed.filename t)) in
  t' = t /\ fs σ' = fs σ
  /\ ((exists e, trace σ' = trace σ ++ [(SysReadDir dirName, Some e)]
                 /\ files = [])
      \/ (trace σ' = trace σ ++ [(SysReadDir dirName, None)]
          /\ dirName <> ""%string
          /\ (0 <= Timed.backupCount t ->
              let found := timed_candidates t (listed dirName (fs σ)) in
              files = if len found <=? Timed.backupCount t then []
                      else take (Z.to_nat (len found - Timed.backupCount t))
                                (sort_Strings found)))).
Proof.
  unfold Timed.getFilesToDelete, timed_candidates. intros H.
  apply bind_Done in H as (t0 & ts0 & H0 & H). apply self_Done in H0 as [-> ->].
  cbn [fst] in H.
  destruct (filepath_Split (Timed.filename t)) as [dirName baseName].
  cbn [fst].
  apply bind_Done in H as (listing & [t1 σ1] & Hl & H).
  apply lift_Done in Hl as [Et Hl]. cbn [fst snd] in Et, Hl. subst t1.
  unfold file_ListDir in Hl. apply sys_Done in Hl as (Tr & _ & _ & _ & _ & _ & Hr).
  destruct listing as [e1|fileNames]; cbn [err_of] in *.
  - apply ret_Done in H as [-> E]. injection E as -> ->.
    destruct Hr as [Hfs _]. split; [reflexivity|]. split; [exact Hfs|].
    left. eauto.
  - destruct (String.eqb dirName "") eqn:Ed; [discriminate Hr|].
    injection Hr as <- Hfs. unfold listed.
    set (found := map (filepath_Join dirName) _) in *.
    assert (E : t' = t /\ σ' = σ1
                /\ (0 <= Timed.backupCount t ->
                    files = if len found <=? Timed.backupCount t then []
                            else take (Z.to_nat (len found - Timed.backupCount t))
                                      (sort_Strings found))).
    { destruct (len found <=? Timed.backupCount t).
      - apply ret_Done in H as [-> E]. injection E as -> ->. auto.
      - destruct (Z.ltb_spec (Timed.backupCount t) 0).
        + destruct (_ && _); [|discriminate].
          apply ret_Done in H as [_ E]. injection E as -> ->.
          split; [reflexivity|]. split; [reflexivity|]. lia.
        + apply ret_Done in H as [-> E]. injection E as -> ->. auto. }
    destruct E as (-> & -> & Hfiles).
    split; [reflexivity|]. split; [symmetry; exact Hfs|].
    right. split; [exact Tr|]. split; [|exact Hfiles].
    intros ->. discriminate Ed.
Qed.

(** A candidate is an existing file named after the log file, with a
    suffix that the pattern of the writer matches. *)
Lemma timed_candidates_inv t m p :
  fst (filepath_Split (Timed.filename t)) <> ""%string ->
  In p (timed_candidates t (listed (fst (filepath_Split (Timed.filename t))) m)) ->
  is_Some (m !! p)
  /\ exists suffix,
       p = (Timed.filename t +:+ "." +:+ suffix)%string
       /\ MatchString (Timed.extRE t) suffix = true.
Proof.
  unfold timed_candidates, listed.
  pose proof (filepath_Split_app (Timed.filename t)) as Happ.
  pose proof (filepath_Split_dir (Timed.filename t)) as Hdir.
  destruct (filepath_Split (Timed.filename t)) as [dirName baseName].
  cbn [fst snd] in *. intros Hne Hp.
  destruct Hdir as [-> | Hslash]; [contradiction|].
  apply in_map_iff in Hp as (name & <- & Hname).
  apply list_elem_of_In, list_elem_of_filter in Hname as [Hb Hname].
  apply list_elem_of_omap in Hname as (path & Hpath & He).
  apply entry_name_inv in He.
  rewrite (filepath_Join_dir _ _ Hne Hslash), <- He. split.
  - apply list_elem_of_fmap in Hpath as ([k n] & -> & Hk).
    apply elem_of_map_to_list in Hk. cbn [fst]. eauto.
  - apply timed_is_backup_inv in Hb as (suffix & -> & M).
    exists suffix. split; [|exact M].
    rewrite He, Happ, !append_assoc. reflexivity.
Qed.

(** What [getFilesToDelete] returns when [backupCount] is not negative:
    existing files named after the log file. *)
Lemma timed_getFilesToDelete_dated t σ files t' σ' :
  Timed.getFilesToDelete (t, σ) = Done files (t', σ') ->
  0 <= Timed.backupCount t ->
  t' = t /\ fs σ' = fs σ
  /\ forall p, In p files ->
       is_Some (fs σ !! p)
       /\ p <> Timed.filename t
       /\ exists suffix,
            p = (Timed.filename t +:+ "." +:+ suffix)%string
            /\ MatchString (Timed.extRE t) suffix = true.
Proof.
  intros H Hb.
  apply timed_getFilesToDelete_inv in H
    as (-> & Hfs & [(e & _ & ->) | (_ & Hne & Hfiles)]).
  { split; [reflexivity|]. split; [exact Hfs|]. intros p []. }
  split; [reflexivity|]. split; [exact Hfs|]. intros p Hp.
  rewrite (Hfiles Hb) in Hp.
  assert (Hin : In p (timed_candidates t
                        (listed (fst (filepath_Split (Timed.filename t))) (fs σ)))).
  { destruct (_ <=? _); [contradiction|].
    apply (Permutation_in _ (sort_Strings_Permutation _)).
    rewrite <- (take_drop (Z.to_nat (len
      (timed_candidates t (listed (fst (filepath_Split (Timed.filename t)))
                                  (fs σ))) - Timed.backupCount t))
      (sort_Strings _)).
    apply in_or_app. left. exact Hp. }
  destruct (timed_candidates_inv t (fs σ) p Hne Hin) as (Hex & suffix & -> & M).
  split; [exact Hex|]. split; [|eauto].
  apply append_ne_self. discriminate.
Qed.

(** X11: [getFilesToDelete] selects nothing but dated backups of the log
    file.  It changes neither the writer nor the files, and, with
    [backupCount] not negative, every path it returns is the path of an
    existing file whose name is that of the log file followed by a dot and a
    suffix matched by the pattern of the writer; so it is never the log file
    itself. *)
Theorem X11_getFilesToDelete_selects_dated_backups :
  forall t σ files t' σ',
    Timed.getFilesToDelete (t, σ) = Done files (t', σ') ->
    0 <= Timed.backupCount t ->
    t' = t /\ fs σ' = fs σ
    /\ forall p, In p files ->
         is_Some (fs σ !! p)
         /\ p <> Timed.filename t
         /\ exists suffix,
              p = (Timed.filename t +:+ "." +:+ suffix)%string
              /\ MatchString (Timed.extRE t) suffix = true.
Proof.
  intros t σ files t' σ' H Hb.
  exact (timed_getFilesToDelete_dated t σ files t' σ' H Hb).
Qed.

(** X11, an instance: three dated backups, one of them to go. *)
Lemma X11_getFilesToDelete_witness :
  let files : gmap string node :=
    <["/var/log/app.log" := RegFile 420 []]>
    (<["/var/log/app.log.1969-12-29" := RegFile 420 []]>
    (<["/var/log/app.log.1969-12-30" := RegFile 420 []]>
    (<["/var/log/app.log.1969-12-31" := RegFile 420 []]>
    (<["/var/log/app.log.old" := RegFile 420 []]>
    (<["/var/log/other.log.1969-12-01" := RegFile 420 []]> ∅))))) in
  let σ0 := Sample.world files Sample.no_faults 0 in
  let t0 := Timed.set_backupCount 2 Sample.timed_writer in
  exists t' σ',
    Timed.getFilesToDelete (t0, σ0)
    = Done ["/var/log/app.log.1969-12-29"%string] (t', σ')
    /\ t' = t0 /\ fs σ' = fs σ0
    /\ forall p, In p ["/var/log/app.log.1969-12-29"%string] ->
         is_Some (fs σ0 !! p)
         /\ p <> Timed.filename t0
         /\ exists suffix,
              p = (Timed.filename t0 +:+ "." +:+ suffix)%string
              /\ MatchString (Timed.extRE t0) suffix = true.
Proof.
  intros files σ0 t0.
  assert (R : returned (Timed.getFilesToDelete (t0, σ0))
              = Some ["/var/log/app.log.1969-12-29"%string])
    by (vm_compute; reflexivity).
  destruct (Timed.getFilesToDelete (t0, σ0)) as [a [t' σ']|] eqn:E;
    [|discriminate R].
  cbn [returned] in R. injection R as ->.
  exists t', σ'. split; [reflexivity|].
  apply (X11_getFilesToDelete_selects_dated_backups t0 σ0 _ t' σ' E).
  vm_compute. discriminate.
Defined.

(** X12: [getFilesToDelete] keeps the newest [backupCount] dated backups.
    When the listing succeeded and [backupCount] is not negative, the paths
    returned together with the paths kept are the dated backups found in the
    directory; as many are kept as there are, up to [backupCount]; and every
    path returned comes before every path kept in the byte-wise order of
    [sort.Strings], which for dates written year-month-day is the order of
    time. *)
Theorem X12_getFilesToDelete_keeps_newest :
  forall t σ files t' σ',
    let dirName := fst (filepath_Split (Timed.filename t)) in
    let found := timed_candidates t (listed dirName (fs σ)) in
    Timed.getFilesToDelete (t, σ) = Done files (t', σ') ->
    0 <= Timed.backupCount t ->
    trace σ' = trace σ ++ [(SysReadDir dirName, None)] ->
    exists kept,
      Permutation (files ++ kept) found
      /\ len kept = Z.min (len found) (Timed.backupCount t)
      /\ forall x y, In x files -> In y kept -> String.leb x y = true.
Proof.
  intros t σ files t' σ' dirName found H Hb Htr.
  apply timed_getFilesToDelete_inv in H
    as (_ & _ & [(e & Tr & _) | (_ & _ & Hfiles)]).
  { exfalso. fold dirName in Tr. rewrite Tr in Htr.
    apply app_inv_head in Htr. discriminate Htr. }
  specialize (Hfiles Hb). cbv zeta in Hfiles. fold dirName found in Hfiles.
  destruct (Z.leb_spec (len found) (Timed.backupCount t)) as [Hle | Hlt].
  - subst files. exists found. split; [reflexivity|].
    split; [lia | intros x y []].
  - set (k := Z.to_nat (len found - Timed.backupCount t)) in *.
    exists (drop k (sort_Strings found)). subst files. split.
    + rewrite take_drop. apply sort_Strings_Permutation.
    + split.
      * unfold len. rewrite length_drop.
        rewrite (Permutation_length (sort_Strings_Permutation found)).
        unfold len in Hlt. subst k. unfold len. lia.
      * intros x y Hx Hy.
        exact (sorted_take_drop _ k x y (sort_Strings_sorted found) Hx Hy).
Qed.

(** X12, an instance: the same three dated backups with two to keep. *)
Lemma X12_getFilesToDelete_witness :
  let files : gmap string node :=
    <["/var/log/app.log" := RegFile 420 []]>
    (<["/var/log/app.log.1969-12-29" := RegFile 420 []]>
    (<["/var/log/app.log.1969-12-30" := RegFile 420 []]>
    (<["/var/log/app.log.1969-12-31" := RegFile 420 []]>
    (<["/var/log/app.log.old" := RegFile 420 []]>
    (<["/var/log/other.log.1969-12-01" := RegFile 420 []]> ∅))))) in
  let σ0 := Sample.world files Sample.no_faults 0 in
  let t0 := Timed.set_backupCount 2 Sample.timed_writer in
  let found := timed_candidates t0 (listed "/var/log/" (fs σ0)) in
  exists t' σ',
    Timed.getFilesToDelete (t0, σ0)
    = Done ["/var/log/app.log.1969-12-29"%string] (t', σ')
    /\ exists kept,
         Permutation (["/var/log/app.log.1969-12-29"%string] ++ kept) found
         /\ len kept = Z.min (len found) 2
         /\ forall x y, In x ["/var/log/app.log.1969-12-29"%string] ->
                        In y kept -> String.leb x y = true.
Proof.
  intros files σ0 t0 found.
  set (run := Timed.getFilesToDelete (t0, σ0)).
  assert (R : returned run = Some ["/var/log/app.log.1969-12-29"%string]
              /\ events_of run = [(SysReadDir "/var/log/", None)])
    by (vm_compute; split; reflexivity).
  destruct R as [R Ev]. unfold run in R, Ev.
  destruct (Timed.getFilesToDelete (t0, σ0)) as [a [t' σ']|] eqn:E;
    [|discriminate R].
  cbn [returned] in R. injection R as ->. cbn [events_of snd] in Ev.
  exists t', σ'. split; [reflexivity|].
  apply (X12_getFilesToDelete_keeps_newest t0 σ0 _ t' σ' E).
  - vm_compute. discriminate.
  - exact Ev.
Defined.

(** *** The files after a time-based rotation *)

Lemma timed_Close_fs t σ err t' σ' :
  Timed.Close (t, σ) = Done err (t', σ') -> fs σ' = fs σ.
Proof.
  unfold Timed.Close. intros H.
  apply bind_Done in H as (t0 & ts0 & H0 & H). apply self_Done in H0 as [-> ->].
  cbn [fst] in H. destruct (Timed.w t) as [f|]; [|discriminate].
  apply bind_Done in H as (e & [t1 σ1] & H1 & H).
  apply lift_Done in H1 as [_ H1]. cbn [snd] in H1. unfold File_Close in H1.
  apply bind_Done in H1 as (r & σ2 & H1 & H2). apply ret_Done in H2 as [_ <-].
  apply sys_Done in H1 as (_ & _ & _ & _ & _ & _ & Hr).
  assert (Hfs : fs σ1 = fs σ).
  { destruct r as [e0|[]]; [apply Hr | injection Hr as <-; reflexivity]. }
  destruct e as [e|].
  - apply ret_Done in H as [_ E]. injection E as _ ->. exact Hfs.
  - apply bind_Done in H as (u & ts2 & H2 & H). apply update_Done in H2.
    apply ret_Done in H as [_ E]. rewrite H2 in E. injection E as _ ->.
    exact Hfs.
Qed.

(** The removals of the pruning take files away and do nothing else. *)
Lemma timed_remove_each_fs files : forall ts u ts',
  Timed.remove_each files ts = Done u ts' ->
  forall q, fs (snd ts') !! q = fs (snd ts) !! q
            \/ (In q files /\ fs (snd ts') !! q = None).
Proof.
  induction files as [|f rest IH]; intros ts u ts' H q.
  - apply ret_Done in H as [_ ->]. left. reflexivity.
  - cbn [Timed.remove_each] in H.
    apply bind_Done in H as (e & ts1 & H1 & H).
    apply os_Remove_inv in H1 as [_ Hfs].
    destruct (IH _ _ _ H q) as [E | [Hin E]];
      [|right; split; [right; exact Hin | exact E]].
    rewrite E. destruct e as [e|]; rewrite Hfs; [left; reflexivity|].
    destruct (decide (q = f)) as [->|Hq].
    + right. split; [left; reflexivity | apply lookup_delete_eq].
    + left. apply lookup_delete_ne. congruence.
Qed.

(** The pruning removes dated backups only. *)
Lemma timed_prune_fs t σ u t' σ' :
  timed_prune t (t, σ) = Done u (t', σ') ->
  forall q, fs σ' !! q = fs σ !! q
            \/ (0 < Timed.backupCount t /\ fs σ' !! q = None
                /\ q <> Timed.filename t /\ timed_backup t q).
Proof.
  unfold timed_prune. intros H q.
  destruct (Z.ltb_spec 0 (Timed.backupCount t)) as [Hb|_].
  2:{ apply ret_Done in H as [_ E]. injection E as _ ->. left. reflexivity. }
  apply bind_Done in H as (files & [t1 σ1] & Hg & H).
  apply timed_getFilesToDelete_dated in Hg as (-> & Hfs & Hfiles); [|lia].
  destruct (timed_remove_each_fs _ _ _ _ H q) as [E | [Hin E]]; cbn [snd] in E.
  - left. rewrite E, Hfs. reflexivity.
  - right. destruct (Hfiles q Hin) as (_ & Hne & Hs). auto.
Qed.

Lemma timed_dstPath_ne t z : timed_dstPath t z <> Timed.filename t.
Proof. unfold timed_dstPath. apply append_ne_self. discriminate. Qed.

(** A time-based rotation that succeeds, file by file. *)
Lemma timed_doRollover_files t σ p c t' σ' :
  fs σ !! Timed.filename t = Some (RegFile p c) ->
  Timed.doRollover (t, σ) = Done None (t', σ') ->
  let dst := timed_dstPath t (zone σ) in
  fs σ' !! Timed.filename t = Some (RegFile FILE_PERM [])
  /\ (fs σ' !! dst = Some (RegFile p c)
      \/ (0 < Timed.backupCount t /\ fs σ' !! dst = None /\ timed_backup t dst))
  /\ forall q, q <> Timed.filename t -> q <> dst ->
       fs σ' !! q = fs σ !! q
       \/ (0 < Timed.backupCount t /\ fs σ' !! q = None /\ timed_backup t q).
Proof.
  intros L H dst. unfold Timed.doRollover in H.
  apply bind_Done in H as (e0 & [t1 σ1] & HC & H).
  pose proof (timed_Close_fs _ _ _ _ _ HC) as F1.
  apply timed_Close_inv in HC as (f & W & _ & (_ & _ & Z1) & Et1).
  destruct e0 as [e|]; [apply ret_Done in H as [E _]; discriminate E|].
  apply bind_Done in H as (t1' & ts & Hs & H). apply self_Done in Hs as [-> ->].
  cbn [fst] in H.
  assert (Ef : Timed.filename t1 = Timed.filename t) by (subst t1; reflexivity).
  assert (Eb : Timed.backupCount t1 = Timed.backupCount t)
    by (subst t1; reflexivity).
  assert (Ebk : forall q, timed_backup t1 q -> timed_backup t q)
    by (subst t1; auto).
  apply bind_Done in H as (tm & [t2 σ2] & Htm & H).
  apply lift_Done in Htm as [Et2 Htm]. cbn [fst snd] in Et2, Htm. subst t2.
  unfold time_Unix, gets in Htm. injection Htm as <- <-.
  assert (Ed : (Timed.filename t1 +:+ "."
                +:+ Format (mkTime (wrap64 (Timed.rotatorAt t1 - Timed.interval t1))
                              (zone σ1 (wrap64 (Timed.rotatorAt t1
                                                - Timed.interval t1))))
                           (time2fmt (Timed.when t1)))%string = dst).
  { subst t1 dst. unfold timed_dstPath. cbn. rewrite Z1. reflexivity. }
  rewrite Ed in H. clear Ed.
  assert (Hne : dst <> Timed.filename t) by apply timed_dstPath_ne.
  apply bind_Done in H as (ex & [t3 σ3] & Hex & H).
  apply lift_Done in Hex as [Et3 Hex]. cbn [fst snd] in Et3, Hex. subst t3.
  unfold file_IsExist, gets in Hex. injection Hex as _ <-.
  apply bind_Done in H as (u4 & [t4 σ4] & Hrm & H).
  assert (R4 : t4 = t1
               /\ fs σ4 !! Timed.filename t = Some (RegFile p c)
               /\ forall q, q <> dst -> fs σ4 !! q = fs σ !! q).
  { destruct ex.
    - apply os_Remove_inv in Hrm as [E Hfs]. cbn [fst snd] in E, Hfs.
      split; [exact E|].
      destruct u4 as [e|]; rewrite Hfs, F1.
      + split; [exact L | reflexivity].
      + split; [rewrite lookup_delete_ne by exact Hne; exact L|].
        intros q Hq. apply lookup_delete_ne. congruence.
    - apply ret_Done in Hrm as [_ E]. injection E as -> ->. rewrite F1.
      split; [reflexivity|]. split; [exact L | reflexivity]. }
  destruct R4 as (-> & L4 & F4).
  apply bind_Done in H as (isf & [t5 σ5] & Hisf & H).
  apply lift_Done in Hisf as [Et5 Hisf]. cbn [fst snd] in Et5, Hisf. subst t5.
  unfold file_IsFile, gets in Hisf. injection Hisf as <- <-.
  rewrite Ef, L4 in H.
  apply bind_Done in H as (e6 & [t6 σ6] & Hrn & H).
  apply os_Rename_fs in Hrn as [Et6 Hfs6]. cbn [fst snd] in Et6, Hfs6. subst t6.
  destruct e6 as [e|]; [apply ret_Done in H as [E _]; discriminate E|].
  destruct Hfs6 as (n6 & Ln & F6). rewrite L4 in Ln. injection Ln as <-.
  fold (timed_prune t1) in H.
  apply bind_Done in H as (u7 & [t7 σ7] & Hpr & H).
  pose proof (timed_prune_calm t1 _ _ _ Hpr) as (Et7 & _).
  cbn [fst] in Et7. subst t7.
  pose proof (timed_prune_fs _ _ _ _ _ Hpr) as F7. rewrite Eb, Ef in F7.
  apply bind_Done in H as (u8 & [t8 σ8] & Hre & H).
  apply timed_reComputeRollover_inv in Hre as (-> & ->).
  pose proof (timed_open_files _ _ _ _ _ H) as (Ho & _ & Hreg).
  cbn [Timed.filename Timed.set_rotatorAt tick fs] in Ho, Hreg.
  rewrite Ef in Ho, Hreg. destruct (Hreg eq_refl) as (p9 & c9 & L9).
  assert (V7 : fs σ7 !! Timed.filename t = None).
  { destruct (F7 (Timed.filename t)) as [E | (_ & E & _)]; [|exact E].
    rewrite E, F6. rewrite lookup_insert_ne by exact Hne.
    apply lookup_delete_eq. }
  assert (F9 : fs σ' = <[Timed.filename t := RegFile FILE_PERM []]> (fs σ7)).
  { destruct Ho as [E | [_ E]]; [|exact E].
    rewrite E, V7 in L9. discriminate L9. }
  split; [rewrite F9; apply lookup_insert_eq|]. split.
  - rewrite F9, lookup_insert_ne by congruence.
    destruct (F7 dst) as [E | (Hb & E & _ & Hbk)].
    + left. rewrite E, F6. apply lookup_insert_eq.
    + right. auto.
  - intros q Hq1 Hq2. rewrite F9, lookup_insert_ne by congruence.
    destruct (F7 q) as [E | (Hb & E & _ & Hbk)].
    + left. rewrite E, F6, lookup_insert_ne by congruence.
      rewrite lookup_delete_ne by congruence. apply F4. exact Hq2.
    + right. auto.
Qed.

(** X13: what a time-based rotation does to the files.  When a [Write] on a
    handle finds the deadline passed and returns no error, with the log file
    a regular file: the log file is a new file with [FILE_PERM] that holds
    exactly the payload; the former log file, content and permission, is at
    the dated path, the name of the log file followed by a dot and the start
    of the period that ended, unless the pruning removed it; and every other
    file is as before, unless it is a dated backup of the log file that the
    pruning removed.  With [backupCount] at most zero nothing is pruned. *)
Theorem X13_timed_rotation_moves_the_log_file :
  forall data t σ f p c n t' σ',
    Timed.w t = Some f ->
    fs σ !! Timed.filename t = Some (RegFile p c) ->
    Timed.rotatorAt t <= clock σ (ticks σ) ->
    Timed.Write data (t, σ) = Done (n, None) (t', σ') ->
    let dst := timed_dstPath t (zone σ) in
    n = len data
    /\ fs σ' !! Timed.filename t = Some (RegFile FILE_PERM data)
    /\ (fs σ' !! dst = Some (RegFile p c)
        \/ (0 < Timed.backupCount t /\ fs σ' !! dst = None
            /\ timed_backup t dst))
    /\ forall q, q <> Timed.filename t -> q <> dst ->
         fs σ' !! q = fs σ !! q
         \/ (0 < Timed.backupCount t /\ fs σ' !! q = None /\ timed_backup t q).
Proof.
  intros data t σ f p c n t' σ' W L Hdue H dst.
  apply (timed_Write_inv _ _ _ _ _ _ _ _ W) in H.
  destruct (Z.leb_spec (Timed.rotatorAt t) (clock σ (ticks σ))) as [_|]; [|lia].
  destruct H as (e0 & t1 & σ1 & Hr & H).
  destruct e0 as [e|]; [destruct H as (_ & E & _); discriminate E|].
  destruct H as (f1 & W1 & H).
  pose proof (timed_doRollover_inv _ _ _ _ _ Hr) as (f' & _ & Hcases).
  assert (Ef1 : f1 = mkFile (Timed.filename t)).
  { destruct Hcases as [(e1 & E & _) | [(e1 & ? & ? & E & _) | (d0 & _ & _ & _ & _ & Et)]];
      try discriminate E.
    cbv zeta in Et. rewrite Et in W1. cbn in W1. injection W1 as <-.
    reflexivity. }
  subst f1.
  apply (timed_doRollover_files t (tick σ) p c t1 σ1 L) in Hr
    as (L1 & Hdst & Hq).
  cbn [tick zone] in Hdst, Hq. fold dst in Hdst, Hq.
  apply File_Write_inv in H as (_ & _ & -> & p2 & c2 & L2 & Efs).
  cbn [fst snd f_name] in L2, Efs. rewrite L1 in L2. injection L2 as <- <-.
  assert (Hne : dst <> Timed.filename t) by apply timed_dstPath_ne.
  split; [reflexivity|]. split; [rewrite Efs; apply lookup_insert_eq|].
  split.
  - rewrite Efs, lookup_insert_ne by congruence. exact Hdst.
  - intros q Hq1 Hq2. rewrite Efs, lookup_insert_ne by congruence.
    destruct (Hq q Hq1 Hq2) as [E | E]; [left | right]; exact E.
Qed.

(** X13, an instance: the sample writer at the second day; the oldest of
    the two backups is pruned. *)
Lemma X13_timed_rotation_witness :
  let σ0 := Sample.world Sample.timed_files Sample.no_faults 90000 in
  let dst := timed_dstPath Sample.timed_writer (zone σ0) in
  exists t' σ',
    Timed.Write (Sample.bytes "y") (Sample.timed_writer, σ0)
    = Done (1, None) (t', σ')
    /\ dst = "/var/log/app.log.1970-01-01"%string
    /\ 1 = len (Sample.bytes "y")
    /\ fs σ' !! Timed.filename Sample.timed_writer
       = Some (RegFile FILE_PERM (Sample.bytes "y"))
    /\ (fs σ' !! dst = Some (RegFile 420 (Sample.bytes "x"))
        \/ (0 < Timed.backupCount Sample.timed_writer /\ fs σ' !! dst = None
            /\ timed_backup Sample.timed_writer dst))
    /\ forall q, q <> Timed.filename Sample.timed_writer -> q <> dst ->
         fs σ' !! q = fs σ0 !! q
         \/ (0 < Timed.backupCount Sample.timed_writer /\ fs σ' !! q = None
             /\ timed_backup Sample.timed_writer q).
Proof.
  intros σ0 dst.
  assert (R : returned (Timed.Write (Sample.bytes "y") (Sample.timed_writer, σ0))
              = Some (1, None)) by (vm_compute; reflexivity).
  destruct (Timed.Write (Sample.bytes "y") (Sample.timed_writer, σ0))
    as [a [t' σ']|] eqn:E; [|discriminate R].
  cbn [returned] in R. injection R as ->.
  exists t', σ'. split; [reflexivity|].
  split; [vm_compute; reflexivity|].
  apply (X13_timed_rotation_moves_the_log_file (Sample.bytes "y")
           Sample.timed_writer σ0 (mkFile Sample.log) 420 (Sample.bytes "x")
           1 t' σ').
  - reflexivity.
  - vm_compute. reflexivity.
  - vm_compute. discriminate.
  - exact E.
Defined.
